(** * Result-orchestration pipeline of the shotlist / Getty search application

    A shallow embedding of the React component [App] (held in [src/server.js]
    after the proxy server code) and of the gateway handlers
    ([src/api/getty-videos.js] and its photo twin), followed by the
    properties of the selection ledger, the search aggregator, the export
    compiler, the bundle packager and the reset handler.

    Conventions of the embedding:
    - a React state cell [useState] is a field of the record [App.t]; a
      handler is a function from the state before to the state after;
    - a JavaScript array is a [list]; an array index is a [nat];
    - [undefined] / [null] is [None];
    - a thrown [Error] is the [Throw] outcome of the small effect monad
      [Eff], which also records every outbound request;
    - the stock-media provider, the binary fetch of the packager and
      [Date.prototype.toLocaleDateString] are parameters of a Section. *)

From stdpp Require Import base list strings gmap fin_maps sorting.
From Stdlib Require Import Ascii DecimalString.

Set Default Proof Using "Type".

(** ** Data model (the TypeScript interfaces of the component) *)

Module Person.
Record t := mk { name : string; searchTerm : string }.
#[global] Instance eq_dec : EqDecision t.
Proof. solve_decision. Defined.
End Person.

(** [title] is copied from the provider's record as it is: it is a string,
    or [None] when the record held no string there ([undefined], [null] or
    a value of another type). *)
Module GettyMedia.
Record t := mk {
  id : string;
  title : option string;
  thumbnailUrl : string;
  previewUrl : string;
  compUrl : string;
  dateCreated : string
}.
#[global] Instance eq_dec : EqDecision t.
Proof. solve_decision. Defined.
End GettyMedia.

Module PersonGettyResults.
Record t := mk {
  person : Person.t;
  videos : list GettyMedia.t;
  photos : list GettyMedia.t
}.
#[global] Instance eq_dec : EqDecision t.
Proof. solve_decision. Defined.
End PersonGettyResults.

(** ['video' | 'photo'] *)
Inductive MediaType := video | photo.

#[global] Instance MediaType_eq_dec : EqDecision MediaType.
Proof. solve_decision. Defined.

(** [`${type}`] *)
Definition mediaTypeString (type : MediaType) : string :=
  match type with video => "video" | photo => "photo" end.

Module SelectedItem.
Record t := mk {
  personIndex : nat;
  personName : string;
  mediaId : string;
  mediaType : MediaType;
  compUrl : string;
  fileName : string
}.
#[global] Instance eq_dec : EqDecision t.
Proof. solve_decision. Defined.
End SelectedItem.

Module ModalState.
Record t := mk {
  isOpen : bool;
  mediaUrl : string;
  mediaTitle : string;
  mediaType : MediaType;
  mediaId : string
}.
End ModalState.

(** The five collection toggles, in the key order of the object literal. *)
Module Collections.
Record t := mk {
  billboard : bool;
  wwd : bool;
  rollingStone : bool;
  hollywoodReporter : bool;
  variety : bool
}.
End Collections.

(** ** Selection ledger ([selectedItems] and its handlers)

    Every handler calls [setSelectedItems (prev => ...)]; the embedding is
    the function applied to [prev]. *)

Section Ledger.

Implicit Types (prev : list SelectedItem.t) (personIndex : nat)
  (personName : string) (media : GettyMedia.t) (type : MediaType).

(** [item => item.personIndex === personIndex && item.mediaId === mediaId] *)
Definition samePair personIndex (mediaId : string) (item : SelectedItem.t) : Prop :=
  SelectedItem.personIndex item = personIndex ∧ SelectedItem.mediaId item = mediaId.

(** [item => item.personIndex === personIndex && item.mediaType === type] *)
Definition sameKind personIndex type (item : SelectedItem.t) : Prop :=
  SelectedItem.personIndex item = personIndex ∧ SelectedItem.mediaType item = type.

(** [Array.prototype.filter] with the two-argument callback
    [(element, index) => ...]. *)
Fixpoint filterIndexed {A} (keep : A → nat → bool) (index : nat) (l : list A) : list A :=
  match l with
  | [] => []
  | x :: l' =>
      if keep x index then x :: filterIndexed keep (S index) l'
      else filterIndexed keep (S index) l'
  end.

(** [prev.findIndex(...)]: [None] stands for the result [-1]. *)
Definition findIndex {A} (P : A → Prop) `{!∀ x, Decision (P x)} (l : list A) : option nat :=
  fst <$> list_find P l.

(** The object literal shared by [toggleSelection] and the bulk selectors;
    [`${media.id}.${type === 'video' ? 'mp4' : 'jpg'}`] is the file name
    (the bulk selectors write the extension for their own kind). *)
Definition newSelection personIndex personName media type : SelectedItem.t :=
  {| SelectedItem.personIndex := personIndex;
     SelectedItem.personName := personName;
     SelectedItem.mediaId := GettyMedia.id media;
     SelectedItem.mediaType := type;
     SelectedItem.compUrl := GettyMedia.compUrl media;
     SelectedItem.fileName :=
       GettyMedia.id media +:+ "." +:+ match type with video => "mp4" | photo => "jpg" end |}.

Definition toggleSelection personIndex personName media type prev : list SelectedItem.t :=
  match findIndex (samePair personIndex (GettyMedia.id media)) prev with
  | Some existingIndex =>
      (* Remove from selection *)
      filterIndexed (λ _ index, negb (index =? existingIndex)%nat) 0 prev
  | None =>
      (* Add to selection *)
      prev ++ [newSelection personIndex personName media type]
  end.

Definition isSelected (selectedItems : list SelectedItem.t) personIndex (mediaId : string) : bool :=
  bool_decide (Exists (samePair personIndex mediaId) selectedItems).

Definition selectAllVideos personIndex personName (videos : list GettyMedia.t) prev :=
  let videoSelections := (λ v, newSelection personIndex personName v video) <$> videos in
  let filtered := filter (λ item, ¬ sameKind personIndex video item) prev in
  filtered ++ videoSelections.

Definition selectAllPhotos personIndex personName (photos : list GettyMedia.t) prev :=
  let photoSelections := (λ p, newSelection personIndex personName p photo) <$> photos in
  let filtered := filter (λ item, ¬ sameKind personIndex photo item) prev in
  filtered ++ photoSelections.

Definition deselectAllVideos personIndex prev :=
  filter (λ item, ¬ sameKind personIndex video item) prev.

Definition deselectAllPhotos personIndex prev :=
  filter (λ item, ¬ sameKind personIndex photo item) prev.

(** The nested [forEach] of the global selectors: every media of the given
    kind of every result, tagged with the index of its result. *)
Definition mediaOf type (result : PersonGettyResults.t) : list GettyMedia.t :=
  match type with
  | video => PersonGettyResults.videos result
  | photo => PersonGettyResults.photos result
  end.

Definition allSelections type (gettyResults : list PersonGettyResults.t) : list SelectedItem.t :=
  concat (imap (λ index result,
    (λ m, newSelection index (Person.name (PersonGettyResults.person result)) m type)
      <$> mediaOf type result) gettyResults).

Definition selectAllVideosGlobal (gettyResults : list PersonGettyResults.t) prev :=
  let allVideoSelections := allSelections video gettyResults in
  let filtered := filter (λ item, SelectedItem.mediaType item ≠ video) prev in
  filtered ++ allVideoSelections.

Definition deselectAllVideosGlobal prev :=
  filter (λ item, SelectedItem.mediaType item ≠ video) prev.

Definition selectAllPhotosGlobal (gettyResults : list PersonGettyResults.t) prev :=
  let allPhotoSelections := allSelections photo gettyResults in
  let filtered := filter (λ item, SelectedItem.mediaType item ≠ photo) prev in
  filtered ++ allPhotoSelections.

Definition deselectAllPhotosGlobal prev :=
  filter (λ item, SelectedItem.mediaType item ≠ photo) prev.

End Ledger.

(** The ledger operations as the markup wires them to its buttons and
    checkboxes; a run of the ledger is a list of such operations. *)
Inductive LedgerOp :=
| OpToggle (personIndex : nat) (personName : string) (media : GettyMedia.t) (type : MediaType)
| OpSelectAll (type : MediaType) (personIndex : nat) (personName : string) (items : list GettyMedia.t)
| OpDeselectAll (type : MediaType) (personIndex : nat)
| OpSelectAllGlobal (type : MediaType)
| OpDeselectAllGlobal (type : MediaType).

Definition applyOp (gettyResults : list PersonGettyResults.t) (op : LedgerOp)
    (prev : list SelectedItem.t) : list SelectedItem.t :=
  match op with
  | OpToggle personIndex personName media type =>
      toggleSelection personIndex personName media type prev
  | OpSelectAll video personIndex personName items =>
      selectAllVideos personIndex personName items prev
  | OpSelectAll photo personIndex personName items =>
      selectAllPhotos personIndex personName items prev
  | OpDeselectAll video personIndex => deselectAllVideos personIndex prev
  | OpDeselectAll photo personIndex => deselectAllPhotos personIndex prev
  | OpSelectAllGlobal video => selectAllVideosGlobal gettyResults prev
  | OpSelectAllGlobal photo => selectAllPhotosGlobal gettyResults prev
  | OpDeselectAllGlobal video => deselectAllVideosGlobal prev
  | OpDeselectAllGlobal photo => deselectAllPhotosGlobal prev
  end.

Definition runOps (gettyResults : list PersonGettyResults.t) (ops : list LedgerOp)
    (prev : list SelectedItem.t) : list SelectedItem.t :=
  foldl (λ ledger op, applyOp gettyResults op ledger) prev ops.

(** An operation the rendered page can issue over [gettyResults]: the
    checkbox of a media of [gettyResults[index]] calls
    [toggleSelection(index, result.person.name, media, kind)], the per-person
    buttons pass [result.videos] / [result.photos], the global buttons take
    no argument. *)
Definition wired (gettyResults : list PersonGettyResults.t) (op : LedgerOp) : Prop :=
  match op with
  | OpToggle personIndex personName media type =>
      match gettyResults !! personIndex with
      | Some result =>
          personName = Person.name (PersonGettyResults.person result)
          ∧ media ∈ mediaOf type result
      | None => False
      end
  | OpSelectAll type personIndex personName items =>
      match gettyResults !! personIndex with
      | Some result =>
          personName = Person.name (PersonGettyResults.person result)
          ∧ items = mediaOf type result
      | None => False
      end
  | OpDeselectAll _ personIndex => is_Some (gettyResults !! personIndex)
  | OpSelectAllGlobal _ | OpDeselectAllGlobal _ => True
  end.

#[global] Instance wired_dec gettyResults op : Decision (wired gettyResults op).
Proof. destruct op; simpl; try destruct (gettyResults !! _); apply _. Defined.

(** The identity of a Selection, and the ledger invariant. *)
Definition pairOf (item : SelectedItem.t) : nat * string :=
  (SelectedItem.personIndex item, SelectedItem.mediaId item).

Definition uniquePairs (ledger : list SelectedItem.t) : Prop :=
  NoDup (pairOf <$> ledger).

(** Ids of one person's result set, both kinds together. *)
Definition idsOf (result : PersonGettyResults.t) : list string :=
  GettyMedia.id <$> (PersonGettyResults.videos result ++ PersonGettyResults.photos result).

(** ** Provider records, gateway and search aggregator *)

Module DisplaySize.
Record t := mk { name : string; uri : string }.
End DisplaySize.

(** A record of the provider's [videos] / [images] array; [display_sizes]
    is read with [?.], so it may be absent; [title] is [None] when the
    record holds no string there. *)
Module GettyRecord.
Record t := mk {
  id : string;
  title : option string;
  display_sizes : option (list DisplaySize.t);
  date_created : string
}.
End GettyRecord.

(** A JSON body: the two arrays the client reads, and the rest of the body
    (for an error response, the provider's error payload). *)
Module Body.
Record t := mk {
  videos : option (list GettyRecord.t);
  images : option (list GettyRecord.t);
  detail : string
}.
End Body.

Module Response.
Record t := mk { status : nat; body : Body.t }.
(** [response.ok]: the status is in the range 200-299. *)
Definition ok (r : t) : bool := (200 <=? status r) && (status r <=? 299).
End Response.

(** A GET request with its query parameters (in the order
    [URLSearchParams] holds them) and its [Authorization] header. *)
Module Request.
Record t := mk {
  route : string;
  query : list (string * string);
  authorization : string
}.
End Request.

(** [params.get('phrase')] *)
Definition phraseOf (req : Request.t) : option string :=
  snd <$> (snd <$> list_find (λ kv : string * string, kv.1 = "phrase") (Request.query req)).

(** [params.has(key)] *)
Definition hasParam (key : string) (params : list (string * string)) : bool :=
  bool_decide (key ∈ params.*1).

(** [buildGettyUrl]: the provider request for an endpoint, with the default
    [fields] and [sort_order] added when the caller gave none. *)
Definition buildGettyUrl (endpoint : string) (queryParams : list (string * string))
    : string * list (string * string) :=
  let params := queryParams in
  let params :=
    if hasParam "fields" params then params
    else params ++ [("fields", "id,title,thumb,preview,date_created")] in
  let params :=
    if hasParam "sort_order" params then params
    else params ++ [("sort_order", "best_match")] in
  ("https://api.gettyimages.com/v3" +:+ endpoint, params).

(** The request a gateway handler sends to the provider: the URL and
    parameters of [buildGettyUrl], with the caller's [Authorization] header
    passed on (the API key header is the same for every request and is left
    out). *)
Definition providerRequest (endpoint : string) (req : Request.t) : Request.t :=
  let '(url, params) := buildGettyUrl endpoint (Request.query req) in
  {| Request.route := url; Request.query := params;
     Request.authorization := Request.authorization req |}.

Definition emptyBody (detail : string) : Body.t :=
  {| Body.videos := None; Body.images := None; Body.detail := detail |}.

(** [`${n}`] for a non-negative integer. *)
Definition numberString (n : nat) : string :=
  NilEmpty.string_of_uint (Nat.to_uint n).

(** Truthiness of a value that is a string or [undefined] / [null]: the
    empty string and the absent value are falsy. *)
Definition truthy (a : option string) : bool :=
  match a with Some s => negb (bool_decide (s = "")) | None => false end.

(** [a || b] *)
Definition jsOr (a b : option string) : option string :=
  if truthy a then a else b.

(** [a || ''] *)
Definition orEmpty (a : option string) : string :=
  match jsOr a (Some "") with Some s => s | None => "" end.

(** [`${x}`] for a string or [null]. *)
Definition templateString (x : option string) : string :=
  match x with Some s => s | None => "null" end.

(** [record.display_sizes?.find(size => size.name === name)?.uri] *)
Definition renditionUri (record : GettyRecord.t) (name : string) : option string :=
  sizes ← GettyRecord.display_sizes record;
  size ← snd <$> list_find (λ size, DisplaySize.name size = name) sizes;
  Some (DisplaySize.uri size).

(** In the words of the specification: the rendition named [name] of a
    record is the first entry of [display_sizes] with that name, and a
    record has no such rendition when the list is absent or names none. *)
Definition firstRendition (record : GettyRecord.t) (name uri : string) : Prop :=
  ∃ sizes before size after,
    GettyRecord.display_sizes record = Some sizes
    ∧ sizes = before ++ size :: after
    ∧ Forall (λ other, DisplaySize.name other ≠ name) before
    ∧ DisplaySize.name size = name
    ∧ DisplaySize.uri size = uri.

Definition noRendition (record : GettyRecord.t) (name : string) : Prop :=
  match GettyRecord.display_sizes record with
  | Some sizes => Forall (λ other, DisplaySize.name other ≠ name) sizes
  | None => True
  end.

(** The object literal of the [map] callback of both searches. *)
Definition normalize (record : GettyRecord.t) : GettyMedia.t :=
  {| GettyMedia.id := GettyRecord.id record;
     GettyMedia.title := GettyRecord.title record;
     GettyMedia.thumbnailUrl := orEmpty (renditionUri record "thumb");
     GettyMedia.previewUrl := orEmpty (renditionUri record "preview");
     GettyMedia.compUrl :=
       orEmpty (jsOr (renditionUri record "comp") (renditionUri record "preview"));
     GettyMedia.dateCreated := GettyRecord.date_created record |}.

(** [(records || []).slice(0, 5).map(...)], after the early return on a
    missing or empty array. *)
Definition topResults (records : option (list GettyRecord.t)) : list GettyMedia.t :=
  match records with
  | None | Some [] => []
  | Some records => normalize <$> take 5 records
  end.

Definition COLLECTION_CODES : list (string * string) :=
  [("billboard", "blb"); ("wwd", "wom"); ("rollingStone", "rol");
   ("hollywoodReporter", "tho"); ("variety", "vrt")].

(** [Object.entries(collections)] *)
Definition collectionEntries (collections : Collections.t) : list (string * bool) :=
  [("billboard", Collections.billboard collections);
   ("wwd", Collections.wwd collections);
   ("rollingStone", Collections.rollingStone collections);
   ("hollywoodReporter", Collections.hollywoodReporter collections);
   ("variety", Collections.variety collections)].

(** [COLLECTION_CODES[key]]; a missing key reads [undefined], which
    [join] prints as the empty string. *)
Definition collectionCode (key : string) : string :=
  match list_find (λ kc : string * string, kc.1 = key) COLLECTION_CODES with
  | Some (_, (_, code)) => code
  | None => ""
  end.

Definition getActiveCollectionCodes (collections : Collections.t) : option string :=
  let activeCodes : list string :=
    (λ entry : string * bool, collectionCode entry.1)
      <$> filter (λ entry : string * bool, entry.2 = true) (collectionEntries collections) in
  if (0 <? length activeCodes)%nat then Some (String.concat "," activeCodes) else None.

(** Outcome of a computation that may throw. *)
Inductive result (A : Type) := Ok (a : A) | Throw (message : string).
Arguments Ok {A} a.
Arguments Throw {A} message.

(** Client-side effects: the requests sent so far are threaded through, and
    a computation ends with a value or a thrown error. *)
Definition Eff (A : Type) : Type := list Request.t → list Request.t * result A.

Definition ret {A} (a : A) : Eff A := λ sent, (sent, Ok a).
Definition throw {A} (message : string) : Eff A := λ sent, (sent, Throw message).
Definition bind {A B} (m : Eff A) (k : A → Eff B) : Eff B :=
  λ sent, match m sent with
          | (sent', Ok a) => k a sent'
          | (sent', Throw message) => (sent', Throw message)
          end.

Notation "x ←! m ;; k" := (bind m (λ x, k))
  (at level 100, m at next level, right associativity, only parsing).

(** ** The component state (one field per [useState] cell) *)

Module App.
Record t := mk {
  script : string;
  shotlist : list Person.t;
  gettyResults : list PersonGettyResults.t;
  currentStep : nat;
  isLoading : bool;
  error : string;
  accessToken : option string;
  exportText : string;
  modal : ModalState.t;
  selectedItems : list SelectedItem.t;
  isDownloading : bool;
  collections : Collections.t;
  usePMCARC : bool
}.

Definition setScript (v : string) (st : t) : t :=
  mk v (shotlist st) (gettyResults st) (currentStep st) (isLoading st) (error st)
     (accessToken st) (exportText st) (modal st) (selectedItems st)
     (isDownloading st) (collections st) (usePMCARC st).
Definition setShotlist (v : list Person.t) (st : t) : t :=
  mk (script st) v (gettyResults st) (currentStep st) (isLoading st) (error st)
     (accessToken st) (exportText st) (modal st) (selectedItems st)
     (isDownloading st) (collections st) (usePMCARC st).
Definition setGettyResults (v : list PersonGettyResults.t) (st : t) : t :=
  mk (script st) (shotlist st) v (currentStep st) (isLoading st) (error st)
     (accessToken st) (exportText st) (modal st) (selectedItems st)
     (isDownloading st) (collections st) (usePMCARC st).
Definition setCurrentStep (v : nat) (st : t) : t :=
  mk (script st) (shotlist st) (gettyResults st) v (isLoading st) (error st)
     (accessToken st) (exportText st) (modal st) (selectedItems st)
     (isDownloading st) (collections st) (usePMCARC st).
Definition setIsLoading (v : bool) (st : t) : t :=
  mk (script st) (shotlist st) (gettyResults st) (currentStep st) v (error st)
     (accessToken st) (exportText st) (modal st) (selectedItems st)
     (isDownloading st) (collections st) (usePMCARC st).
Definition setError (v : string) (st : t) : t :=
  mk (script st) (shotlist st) (gettyResults st) (currentStep st) (isLoading st) v
     (accessToken st) (exportText st) (modal st) (selectedItems st)
     (isDownloading st) (collections st) (usePMCARC st).
Definition setExportText (v : string) (st : t) : t :=
  mk (script st) (shotlist st) (gettyResults st) (currentStep st) (isLoading st) (error st)
     (accessToken st) v (modal st) (selectedItems st)
     (isDownloading st) (collections st) (usePMCARC st).
Definition setSelectedItems (v : list SelectedItem.t) (st : t) : t :=
  mk (script st) (shotlist st) (gettyResults st) (currentStep st) (isLoading st) (error st)
     (accessToken st) (exportText st) (modal st) v
     (isDownloading st) (collections st) (usePMCARC st).
Definition setIsDownloading (v : bool) (st : t) : t :=
  mk (script st) (shotlist st) (gettyResults st) (currentStep st) (isLoading st) (error st)
     (accessToken st) (exportText st) (modal st) (selectedItems st)
     v (collections st) (usePMCARC st).
End App.

(** The line feed and the double quote, by their character codes. *)
Definition LF : string := String "010"%char EmptyString.
Definition DQUOTE : ascii := "034"%char.

(** [title.replace] with the global pattern matching one double quote and
    the replacement made of two: every double quote is doubled. *)
Fixpoint escapeQuotes (s : string) : string :=
  match s with
  | EmptyString => EmptyString
  | String c s' =>
      if decide (c = DQUOTE) then String DQUOTE (String DQUOTE (escapeQuotes s'))
      else String c (escapeQuotes s')
  end.

Definition csvHeader : string :=
  "Person Name,Getty File ID,Media Type,Title,Date Created,Download URL" +:+ LF.

(** [array.find(m => m.id === mediaId)] *)
Definition findById (mediaId : string) (items : list GettyMedia.t) : option GettyMedia.t :=
  snd <$> list_find (λ m, GettyMedia.id m = mediaId) items.

(** The media a Selection refers to: [gettyResults[item.personIndex]], then
    the array of the Selection's kind searched by id. *)
Definition resolveSelection (gettyResults : list PersonGettyResults.t)
    (item : SelectedItem.t) : option GettyMedia.t :=
  result ← gettyResults !! SelectedItem.personIndex item;
  match SelectedItem.mediaType item with
  | video => findById (SelectedItem.mediaId item) (PersonGettyResults.videos result)
  | photo => findById (SelectedItem.mediaId item) (PersonGettyResults.photos result)
  end.

(** A Selection resolves when its person has a result set whose array of
    the Selection's kind holds a media with the Selection's id. *)
Definition resolves (gettyResults : list PersonGettyResults.t)
    (item : SelectedItem.t) : Prop :=
  ∃ result, gettyResults !! SelectedItem.personIndex item = Some result
    ∧ SelectedItem.mediaId item
      ∈ GettyMedia.id <$> mediaOf (SelectedItem.mediaType item) result.

(** Outcome of [handleCompileExport]: the early return after [setError], the
    text handed to [setExportText], or the [TypeError] that
    [media.title.replace] raises on a title that is not a string and that
    nothing catches. *)
Inductive ExportOutcome :=
| ExportError (message : string)
| Exported (csvText : string)
| TitleTypeError.

(** Outcome of [downloadSelectedAsZip]: the early return after [alert], the
    archive handed to [saveAs] (path to content) with the lines written by
    [console.error], or the message the outer [catch] hands to [setError]. *)
Inductive DownloadOutcome :=
| Alerted (message : string)
| Saved (zip : gmap string string) (errorLog : list string)
| Failed (message : string).

(** [groupedByPerson] is an object literal used as a map from person name
    to array; it is kept as the list of its own entries in the order the
    keys were created. [pushGroup] is the body of the [forEach] callback
    for a name that is not inherited: the array is created on first use and
    pushed to. *)
Fixpoint pushGroup (personName : string) (item : SelectedItem.t)
    (groups : list (string * list SelectedItem.t)) : list (string * list SelectedItem.t) :=
  match groups with
  | [] => [(personName, [item])]
  | (key, items) :: rest =>
      if decide (key = personName) then (key, items ++ [item]) :: rest
      else (key, items) :: pushGroup personName item rest
  end.

(** The property names an object literal inherits from [Object.prototype]:
    for these [groupedByPerson[name]] reads the inherited value, which is
    truthy and has no [push], so the callback throws a [TypeError]. *)
Definition inheritedKeys : list string :=
  ["constructor"; "hasOwnProperty"; "isPrototypeOf"; "propertyIsEnumerable";
   "toLocaleString"; "toString"; "valueOf"; "__proto__"; "__defineGetter__";
   "__defineSetter__"; "__lookupGetter__"; "__lookupSetter__"].

(** The message of that [TypeError]. *)
Definition pushError : string :=
  "groupedByPerson[item.personName].push is not a function".

(** The grouping [forEach]; [None] when the callback throws. *)
Definition groupByPerson (selectedItems : list SelectedItem.t)
    : option (list (string * list SelectedItem.t)) :=
  foldl (λ groupedByPerson item,
           groups ← groupedByPerson;
           if bool_decide (SelectedItem.personName item ∈ inheritedKeys) then None
           else Some (pushGroup (SelectedItem.personName item) item groups))
        (Some []) selectedItems.

(** A key that is an array index: a decimal numeral without leading zero
    and below [2^32 - 1]. *)
Definition digitValue (c : ascii) : option N :=
  let code := N_of_ascii c in
  if ((48 <=? code) && (code <=? 57))%N then Some (code - 48)%N else None.

Fixpoint digitsValue (acc : N) (digits : string) : option N :=
  match digits with
  | EmptyString => Some acc
  | String c rest => d ← digitValue c; digitsValue (acc * 10 + d)%N rest
  end.

Definition arrayIndex (key : string) : option N :=
  match key with
  | EmptyString => None
  | String c rest =>
      if bool_decide (c = "0"%char) && negb (bool_decide (rest = EmptyString)) then None
      else
        n ← digitsValue 0 key;
        if (n <? 2 ^ 32 - 1)%N then Some n else None
  end.

(** Entries tagged with their array index, compared by the index. *)
Definition indexLe {V} (a b : N * V) : Prop := (a.1 ≤ b.1)%N.

#[global] Instance indexLe_dec {V} : RelDecision (@indexLe V).
Proof. intros a b. unfold indexLe. apply _. Defined.

(** [Object.entries(object)]: the keys that are array indices first, in
    ascending numeric order, then the other keys in creation order. *)
Definition objectEntries {V} (object : list (string * V)) : list (string * V) :=
  let indexed :=
    omap (λ entry : string * V, (λ n, (n, entry)) <$> arrayIndex entry.1) object in
  let named := filter (λ entry : string * V, arrayIndex entry.1 = None) object in
  (snd <$> merge_sort indexLe indexed) ++ named.

(** The (key, item) pairs of the grouping, in the order the two nested
    [for] loops of the packager visit them. *)
Definition groupedItems (groups : list (string * list SelectedItem.t))
    : list (string * SelectedItem.t) :=
  groups ≫= (λ group, (λ item, (group.1, item)) <$> group.2).

(** The line [console.error] writes for an item whose fetch rejects. *)
Definition failureLine (item : SelectedItem.t) : string :=
  "Failed to download " +:+ SelectedItem.fileName item +:+ ":".

(** [`${personName}/${item.mediaType}s/${item.fileName}`] *)
Definition zipPath (personName : string) (item : SelectedItem.t) : string :=
  let folderPath :=
    personName +:+ "/" +:+ mediaTypeString (SelectedItem.mediaType item) +:+ "s" in
  folderPath +:+ "/" +:+ SelectedItem.fileName item.

Section Pipeline.

(** The stock-media provider: the response to a GET of a URL with query
    parameters and credentials. *)
Variable provider : Request.t → Response.t.

(** [new Date(s).toLocaleDateString()], which depends on the locale. *)
Variable toLocaleDateString : string → string.

(** [fetch(url)] followed by [response.blob()] in the packager: the
    content, or [None] when either call rejects. *)
Variable fetchBlob : string → option string.

(** *** Gateway ([api/getty-videos.js], [api/getty-photos.js]) as the
    search aggregator sees it: the answer to a GET when the provider's
    answer arrives and is parsed. The function in full, with the answers
    to other methods and the [catch], is [apiHandler] below. *)
Definition gatewayHandler (endpoint : string) (req : Request.t) : Response.t :=
  let authToken := Request.authorization req in
  if negb (truthy (Some authToken)) || negb (String.prefix "Bearer " authToken) then
    {| Response.status := 401;
       Response.body := emptyBody "Invalid or missing authorization token" |}
  else
    let response := provider (providerRequest endpoint req) in
    if negb (Response.ok response) then
      (* res.status(response.status).json(errorData) *)
      {| Response.status := Response.status response;
         Response.body := Response.body response |}
    else
      (* res.json(data) *)
      {| Response.status := 200; Response.body := Response.body response |}.

Definition gettyVideosHandler : Request.t → Response.t :=
  gatewayHandler "/search/videos/editorial".
Definition gettyPhotosHandler : Request.t → Response.t :=
  gatewayHandler "/search/images/editorial".

(** [await fetch(...)] of the client, answered by a gateway handler. *)
Definition fetchFrom (handler : Request.t → Response.t) (req : Request.t)
    : Eff Response.t :=
  λ sent, (sent ++ [req], Ok (handler req)).

(** *** Search aggregator *)

(** The [URLSearchParams] both searches build. *)
Definition searchParams (st : App.t) (searchTerm : string) : list (string * string) :=
  (* Build phrase - include PMCARC if enabled *)
  let phrase := if App.usePMCARC st then searchTerm +:+ " PMCARC" else searchTerm in
  let params :=
    [("phrase", phrase); ("page", "1"); ("page_size", "30");
     ("fields", "id,title,thumb,preview,comp,date_created");
     ("sort_order", "most_popular")] in
  (* Add collection codes if any are selected *)
  let collectionCodes := getActiveCollectionCodes (App.collections st) in
  if truthy collectionCodes
  then params ++ [("collection_codes", templateString collectionCodes)]
  else params.

Definition searchRequest (st : App.t) (route searchTerm : string) : Request.t :=
  {| Request.route := route;
     Request.query := searchParams st searchTerm;
     Request.authorization := "Bearer " +:+ templateString (App.accessToken st) |}.

Definition searchGettyVideos (st : App.t) (searchTerm : string) : Eff (list GettyMedia.t) :=
  response ←! fetchFrom gettyVideosHandler (searchRequest st "/api/getty-videos" searchTerm);;
  if negb (Response.ok response) then
    throw ("Getty video search failed: " +:+ numberString (Response.status response))
  else
    let data := Response.body response in
    ret (topResults (Body.videos data)).

Definition searchGettyPhotos (st : App.t) (searchTerm : string) : Eff (list GettyMedia.t) :=
  response ←! fetchFrom gettyPhotosHandler (searchRequest st "/api/getty-photos" searchTerm);;
  if negb (Response.ok response) then
    throw ("Getty photo search failed: " +:+ numberString (Response.status response))
  else
    let data := Response.body response in
    ret (topResults (Body.images data)).

(** The provider's answers to the two searches for a name, as the
    gateway asks for them. *)
Definition videosReply (st : App.t) (searchTerm : string) : Response.t :=
  provider (providerRequest "/search/videos/editorial"
              (searchRequest st "/api/getty-videos" searchTerm)).
Definition photosReply (st : App.t) (searchTerm : string) : Response.t :=
  provider (providerRequest "/search/images/editorial"
              (searchRequest st "/api/getty-photos" searchTerm)).

(** What a completed search stores for a person, and the two requests
    it sends for that person. *)
Definition resultFor (st : App.t) (person : Person.t) : PersonGettyResults.t :=
  {| PersonGettyResults.person := person;
     PersonGettyResults.videos :=
       topResults (Body.videos (Response.body (videosReply st (Person.name person))));
     PersonGettyResults.photos :=
       topResults (Body.images (Response.body (photosReply st (Person.name person)))) |}.

Definition requestsFor (st : App.t) (person : Person.t) : list Request.t :=
  [searchRequest st "/api/getty-videos" (Person.name person);
   searchRequest st "/api/getty-photos" (Person.name person)].

(** Both searches of a person are answered with a success status. *)
Definition answered (st : App.t) (person : Person.t) : Prop :=
  Response.ok (videosReply st (Person.name person)) = true
  ∧ Response.ok (photosReply st (Person.name person)) = true.




(** The [for (const person of shotlist)] loop; [results] is the array the
    loop pushes to. The [delay(1000)] between persons has no effect on
    the state and is left out. *)
Fixpoint searchLoop (st : App.t) (shotlist : list Person.t)
    (results : list PersonGettyResults.t) : Eff (list PersonGettyResults.t) :=
  match shotlist with
  | [] => ret results
  | person :: rest =>
      (* Use only the person's name for Getty search (not the full search term) *)
      videos ←! searchGettyVideos st (Person.name person);;
      photos ←! searchGettyPhotos st (Person.name person);;
      searchLoop st rest
        (results ++ [ {| PersonGettyResults.person := person;
                         PersonGettyResults.videos := videos;
                         PersonGettyResults.photos := photos |} ])
  end.

(** The handler returns the requests it sent and the state it leaves. *)
Definition handleSearchGetty (st : App.t) : list Request.t * App.t :=
  if negb (truthy (App.accessToken st)) then
    ([], App.setError "Getty API not initialized" st)
  else
    let st := App.setError "" (App.setIsLoading true st) in
    match searchLoop st (App.shotlist st) [] [] with
    | (sent, Ok results) =>
        (sent, App.setIsLoading false
                 (App.setCurrentStep 4 (App.setGettyResults results st)))
    | (sent, Throw message) =>
        (sent, App.setIsLoading false (App.setError message st))
    end.

(** *** Export compiler *)

(** The row of a media; [None] when [media.title.replace] throws, the
    title being no string. *)
Definition csvRow (item : SelectedItem.t) (media : GettyMedia.t) : option string :=
  rawTitle ← GettyMedia.title media;
  let title :=
    String DQUOTE (escapeQuotes rawTitle) +:+ String DQUOTE EmptyString in
  let date := toLocaleDateString (GettyMedia.dateCreated media) in
  let downloadUrl := GettyMedia.compUrl media in
  Some (SelectedItem.personName item +:+ "," +:+ GettyMedia.id media +:+ ","
          +:+ mediaTypeString (SelectedItem.mediaType item) +:+ "," +:+ title +:+ ","
          +:+ date +:+ "," +:+ downloadUrl +:+ LF).

(** One pass of the [forEach] callback over [csvText]; [None] once a pass
    has thrown, which ends the [forEach]. *)
Definition appendRow (gettyResults : list PersonGettyResults.t)
    (csvText : option string) (item : SelectedItem.t) : option string :=
  text ← csvText;
  match resolveSelection gettyResults item with
  | Some media => row ← csvRow item media; Some (text +:+ row)
  | None => Some text
  end.

(** The data rows of an export: one per Selection that resolves to a
    media with a string title, in ledger order. *)
Definition exportRows (gettyResults : list PersonGettyResults.t)
    (selectedItems : list SelectedItem.t) : list string :=
  omap (λ item, resolveSelection gettyResults item ≫= csvRow item) selectedItems.

Definition compileExport (selectedItems : list SelectedItem.t)
    (gettyResults : list PersonGettyResults.t) : ExportOutcome :=
  if (length selectedItems =? 0)%nat then
    ExportError "No items selected. Please select videos or photos to export."
  else
    match foldl (appendRow gettyResults) (Some csvHeader) selectedItems with
    | Some csvText => Exported csvText
    | None => TitleTypeError
    end.

(** The [TypeError] leaves the handler before any setter is reached. *)
Definition handleCompileExport (st : App.t) : App.t :=
  match compileExport (App.selectedItems st) (App.gettyResults st) with
  | ExportError message => App.setError message st
  | Exported csvText => App.setCurrentStep 5 (App.setExportText csvText st)
  | TitleTypeError => st
  end.

(** *** Bundle packager *)

(** The body of the inner [for] loop: a fetched blob is stored under its
    path ([zip.file] replaces an entry of the same path); a rejected
    fetch is caught and logged. *)
Definition packItem (personName : string)
    (acc : gmap string string * list string) (item : SelectedItem.t)
    : gmap string string * list string :=
  match fetchBlob (SelectedItem.compUrl item) with
  | Some blob => (<[zipPath personName item := blob]> acc.1, acc.2)
  | None => (acc.1, acc.2 ++ [failureLine item])
  end.

Definition packGroups (groups : list (string * list SelectedItem.t))
    : gmap string string * list string :=
  foldl (λ acc group, foldl (packItem group.1) acc group.2) (∅, []) groups.

(** [zip.generateAsync] and [saveAs] belong to libraries outside the
    repository and are taken to succeed, so the outer [catch] is entered
    only by the [TypeError] of the grouping. *)
Definition downloadSelectedAsZip (st : App.t) : App.t * DownloadOutcome :=
  if (length (App.selectedItems st) =? 0)%nat then
    (st, Alerted "No items selected")
  else
    let st := App.setError "" (App.setIsDownloading true st) in
    match groupByPerson (App.selectedItems st) with
    | Some groupedByPerson =>
        let '(zip, errorLog) := packGroups (objectEntries groupedByPerson) in
        (App.setIsDownloading false st, Saved zip errorLog)
    | None =>
        (App.setIsDownloading false (App.setError pushError st), Failed pushError)
    end.

End Pipeline.

(** *** Reset *)
Definition handleClear (st : App.t) : App.t :=
  App.setSelectedItems []
    (App.setError ""
      (App.setCurrentStep 1
        (App.setExportText ""
          (App.setGettyResults []
            (App.setShotlist []
              (App.setScript "" st)))))).

(** ** Ledger invariants and sample data used by the properties *)

(** Within every person's result set the media ids are pairwise distinct,
    across both kinds. *)
Definition distinctIds (gettyResults : list PersonGettyResults.t) : Prop :=
  Forall (λ result, NoDup (idsOf result)) gettyResults.

(** A Selection built, for its person and kind, from a media of that kind
    in the result set of that person. *)
Definition fromResults (gettyResults : list PersonGettyResults.t)
    (item : SelectedItem.t) : Prop :=
  match gettyResults !! SelectedItem.personIndex item with
  | Some result =>
      ∃ media, media ∈ mediaOf (SelectedItem.mediaType item) result
        ∧ item = newSelection (SelectedItem.personIndex item)
                   (Person.name (PersonGettyResults.person result)) media
                   (SelectedItem.mediaType item)
  | None => False
  end.

Definition ledgerInv (gettyResults : list PersonGettyResults.t)
    (ledger : list SelectedItem.t) : Prop :=
  uniquePairs ledger ∧ Forall (fromResults gettyResults) ledger.

Module Sample.
Definition jane : Person.t := Person.mk "Jane Doe" "Jane Doe 2025 Grammy Awards".
Definition clip : GettyMedia.t :=
  GettyMedia.mk "1" (Some "Red carpet") "t1" "p1" "c1" "2025-02-02".
Definition still : GettyMedia.t :=
  GettyMedia.mk "2" (Some "Portrait") "t2" "p2" "c2" "2025-02-03".
(** A photo that carries the id of [clip]. *)
Definition stillSameId : GettyMedia.t :=
  GettyMedia.mk "1" (Some "Portrait") "t3" "p3" "c3" "2025-02-04".

Definition results : list PersonGettyResults.t :=
  [PersonGettyResults.mk jane [clip] [still]].
(** The same id occurs as a video and as a photo of person 0. *)
Definition clashingResults : list PersonGettyResults.t :=
  [PersonGettyResults.mk jane [clip] [stillSameId]].

Definition clipSelection : SelectedItem.t := newSelection 0 "Jane Doe" clip video.
Definition stillSelection : SelectedItem.t := newSelection 0 "Jane Doe" still photo.

Definition john : Person.t := Person.mk "John Roe" "John Roe Cannes 2024".

(** A provider record whose comp rendition has an empty uri. *)
Definition record : GettyRecord.t :=
  GettyRecord.mk "1" (Some "Red carpet")
    (Some [DisplaySize.mk "thumb" "t1"; DisplaySize.mk "comp" "";
           DisplaySize.mk "preview" "p1"])
    "2025-02-02".

(** A provider with one video and no photo for every phrase. *)
Definition provider (req : Request.t) : Response.t :=
  Response.mk 200 (Body.mk (Some [record]) (Some []) "").

(** A provider that answers every request with status 429 and a payload. *)
Definition refusing (payload : string) (req : Request.t) : Response.t :=
  Response.mk 429 (emptyBody payload).

(** A provider that serves Jane Doe and refuses every other phrase. *)
Definition janeOnly (req : Request.t) : Response.t :=
  if bool_decide (phraseOf req = Some "Jane Doe PMCARC") then provider req
  else refusing "quota exceeded" req.

Definition state : App.t :=
  App.mk "Jane Doe met John Roe." [jane; john] [] 3 false "" (Some "token") ""
    (ModalState.mk false "" "" photo "") [] false
    (Collections.mk true true true true true) true.

(** A Selection that points at a result set that does not exist. *)
Definition staleSelection : SelectedItem.t := newSelection 3 "Nobody" clip video.

Definition exportState : App.t :=
  App.mk "Jane Doe met John Roe." [jane] results 4 false "" (Some "token") ""
    (ModalState.mk false "" "" photo "")
    [clipSelection; staleSelection; stillSelection] false
    (Collections.mk true true true true true) true.

(** Every fetch rejects. *)
Definition offline (url : string) : option string := None.
(** The fetch of the video [c1] rejects, every other one succeeds. *)
Definition photosOnly (url : string) : option string :=
  if bool_decide (url = "c1") then None else Some ("bytes of " +:+ url).

(** A provider record without a title, and a state in which the only
    Selection is the video normalized from it. *)
Definition untitledRecord : GettyRecord.t :=
  GettyRecord.mk "7" None (Some [DisplaySize.mk "comp" "c7"]) "2025-02-05".
Definition untitledState : App.t :=
  App.mk "Jane Doe met John Roe." [jane]
    [PersonGettyResults.mk jane (topResults (Some [untitledRecord])) []]
    4 false "" (Some "token") ""
    (ModalState.mk false "" "" photo "")
    [newSelection 0 "Jane Doe" (normalize untitledRecord) video] false
    (Collections.mk true true true true true) true.

Definition clashingOps : list LedgerOp :=
  [OpSelectAll video 0 "Jane Doe" [clip]; OpSelectAll photo 0 "Jane Doe" [stillSameId]].
Definition ops : list LedgerOp :=
  [OpSelectAllGlobal video; OpToggle 0 "Jane Doe" still photo;
   OpSelectAll photo 0 "Jane Doe" [still]; OpToggle 0 "Jane Doe" clip video;
   OpDeselectAll video 0; OpSelectAllGlobal photo].
End Sample.

(** ** Remaining handlers of the component and of the gateway *)

(** Number of occurrences of a character in a string. *)
Fixpoint occurrences (c : ascii) (s : string) : nat :=
  match s with
  | EmptyString => 0
  | String d rest => (if decide (d = c) then 1 else 0) + occurrences c rest
  end.

(** The keys of the collection toggles. *)
Module CollectionKey.
Inductive t := billboard | wwd | rollingStone | hollywoodReporter | variety.
End CollectionKey.

(** [prev[collectionKey]] *)
Definition collectionFlag (key : CollectionKey.t) (prev : Collections.t) : bool :=
  match key with
  | CollectionKey.billboard => Collections.billboard prev
  | CollectionKey.wwd => Collections.wwd prev
  | CollectionKey.rollingStone => Collections.rollingStone prev
  | CollectionKey.hollywoodReporter => Collections.hollywoodReporter prev
  | CollectionKey.variety => Collections.variety prev
  end.

(** [{ ...prev, [collectionKey]: !prev[collectionKey] }] *)
Definition toggleCollection (collectionKey : CollectionKey.t) (prev : Collections.t)
    : Collections.t :=
  let flipped := negb (collectionFlag collectionKey prev) in
  match collectionKey with
  | CollectionKey.billboard =>
      Collections.mk flipped (Collections.wwd prev) (Collections.rollingStone prev)
        (Collections.hollywoodReporter prev) (Collections.variety prev)
  | CollectionKey.wwd =>
      Collections.mk (Collections.billboard prev) flipped (Collections.rollingStone prev)
        (Collections.hollywoodReporter prev) (Collections.variety prev)
  | CollectionKey.rollingStone =>
      Collections.mk (Collections.billboard prev) (Collections.wwd prev) flipped
        (Collections.hollywoodReporter prev) (Collections.variety prev)
  | CollectionKey.hollywoodReporter =>
      Collections.mk (Collections.billboard prev) (Collections.wwd prev)
        (Collections.rollingStone prev) flipped (Collections.variety prev)
  | CollectionKey.variety =>
      Collections.mk (Collections.billboard prev) (Collections.wwd prev)
        (Collections.rollingStone prev) (Collections.hollywoodReporter prev) flipped
  end.

Definition toggleAllCollections (checked : bool) : Collections.t :=
  {| Collections.billboard := checked;
     Collections.wwd := checked;
     Collections.rollingStone := checked;
     Collections.hollywoodReporter := checked;
     Collections.variety := checked |}.

(** Setters of the collection filter, the PMCARC flag and the token. *)
Definition setCollections (v : Collections.t) (st : App.t) : App.t :=
  App.mk (App.script st) (App.shotlist st) (App.gettyResults st) (App.currentStep st)
    (App.isLoading st) (App.error st) (App.accessToken st) (App.exportText st)
    (App.modal st) (App.selectedItems st) (App.isDownloading st) v (App.usePMCARC st).

Definition setUsePMCARC (v : bool) (st : App.t) : App.t :=
  App.mk (App.script st) (App.shotlist st) (App.gettyResults st) (App.currentStep st)
    (App.isLoading st) (App.error st) (App.accessToken st) (App.exportText st)
    (App.modal st) (App.selectedItems st) (App.isDownloading st) (App.collections st) v.

Definition setAccessToken (v : option string) (st : App.t) : App.t :=
  App.mk (App.script st) (App.shotlist st) (App.gettyResults st) (App.currentStep st)
    (App.isLoading st) (App.error st) v (App.exportText st)
    (App.modal st) (App.selectedItems st) (App.isDownloading st) (App.collections st)
    (App.usePMCARC st).

(** *** The serverless gateway functions in full

    What the gateway's [fetch] of the provider and the [response.json()]
    after it give: the fetch rejects; the body is not JSON, so that
    [response.json()] rejects; the body is the JSON value [null]; or the
    body is parsed. *)
Inductive ProviderOutcome :=
| FetchRejected (message : string)
| BodyRejected (status : nat) (message : string)
| NullBody (status : nat)
| Answered (response : Response.t).

(** The body a gateway function sends: none ([res.status(200).end()]), an
    object with [error] and, from the [catch], [details], or the
    provider's JSON ([None] for [null]). *)
Inductive GatewayBody :=
| NoBody
| ErrorBody (error : string) (details : option string)
| Relayed (data : option Body.t).

Module GatewayReply.
Record t := mk { status : nat; body : GatewayBody }.
End GatewayReply.

(** [response.ok] by the status. *)
Definition statusOk (status : nat) : bool := (200 <=? status) && (status <=? 299).

(** The provider endpoint and the text of the [catch] of each function. *)
Definition gatewayEndpoint (type : MediaType) : string :=
  match type with
  | video => "/search/videos/editorial"
  | photo => "/search/images/editorial"
  end.
Definition failureText (type : MediaType) : string :=
  match type with
  | video => "Failed to fetch Getty videos"
  | photo => "Failed to fetch Getty photos"
  end.

(** The exported function of [api/getty-videos.js] ([type = video]) and of
    [api/getty-photos.js] ([type = photo]): the requests it sends to the
    provider and its answer. [nullTypeError] is the message of the
    [TypeError] the engine raises when [data.videos] is read on [null]. *)
Definition apiHandler (provider : Request.t → ProviderOutcome) (nullTypeError : string)
    (type : MediaType) (method : string) (req : Request.t)
    : list Request.t * GatewayReply.t :=
  (* Handle preflight *)
  if bool_decide (method = "OPTIONS") then
    ([], {| GatewayReply.status := 200; GatewayReply.body := NoBody |})
  else if negb (bool_decide (method = "GET")) then
    ([], {| GatewayReply.status := 405;
            GatewayReply.body := ErrorBody "Method not allowed" None |})
  else
    let authToken := Request.authorization req in
    if negb (truthy (Some authToken)) || negb (String.prefix "Bearer " authToken) then
      ([], {| GatewayReply.status := 401;
              GatewayReply.body :=
                ErrorBody "Invalid or missing authorization token" None |})
    else
      let outbound := providerRequest (gatewayEndpoint type) req in
      (* the catch *)
      let failed (message : string) :=
        {| GatewayReply.status := 500;
           GatewayReply.body := ErrorBody (failureText type) (Some message) |} in
      ([outbound],
       match provider outbound with
       | FetchRejected message => failed message
       | BodyRejected status message => failed message
       | NullBody status =>
           if negb (statusOk status) then
             {| GatewayReply.status := status; GatewayReply.body := Relayed None |}
           else failed nullTypeError
       | Answered response =>
           if negb (Response.ok response) then
             {| GatewayReply.status := Response.status response;
                GatewayReply.body := Relayed (Some (Response.body response)) |}
           else
             {| GatewayReply.status := 200;
                GatewayReply.body := Relayed (Some (Response.body response)) |}
       end).

(** The condition under which a gateway handler contacts the provider. *)
Definition authorized (req : Request.t) : bool :=
  truthy (Some (Request.authorization req))
  && String.prefix "Bearer " (Request.authorization req).

(** ** Cleaning the reply of the shotlist extraction *)

Definition NEWLINE : ascii := "010"%char.
Definition TICK : ascii := "`"%char.
Definition FENCE : string := "```".
Definition JSON_FENCE : string := "```json".

(** Length of the match of the pattern [fence] followed by an optional line
    feed, at the head of a [text] that starts with [fence]. *)
Definition matchLength (fence text : string) : nat :=
  match String.get (String.length fence) text with
  | Some c =>
      if bool_decide (c = NEWLINE) then S (String.length fence) else String.length fence
  | None => String.length fence
  end.

(** [text.replace(pattern, '')] for the global pattern made of [fence] and an
    optional line feed: the matches are taken leftmost first and do not
    overlap; [skip] counts the characters of the current match that are still
    to be dropped. *)
Fixpoint removeMatches (fence : string) (skip : nat) (text : string) : string :=
  match text with
  | EmptyString => EmptyString
  | String c rest =>
      match skip with
      | S skip => removeMatches fence skip rest
      | 0 =>
          if String.prefix fence text
          then removeMatches fence (matchLength fence text - 1) rest
          else String c (removeMatches fence 0 rest)
      end
  end.

(** The two replacements of [handleGenerateShotlist] between its two
    [trim]s: first the opening fences with the language tag, then every
    remaining fence. *)
Definition stripFences (text : string) : string :=
  removeMatches FENCE 0 (removeMatches JSON_FENCE 0 text).

(** Three consecutive backticks occur somewhere in [text]. *)
Fixpoint containsFence (text : string) : bool :=
  match text with
  | EmptyString => false
  | String c rest => String.prefix FENCE text || containsFence rest
  end.

Definition startsWithTick (text : string) : bool :=
  match text with
  | String c _ => bool_decide (c = TICK)
  | EmptyString => false
  end.

(** ** Titles and lines of the export *)

(** The Selection resolves to a media whose title is no string. *)
Definition untitled (gettyResults : list PersonGettyResults.t)
    (item : SelectedItem.t) : Prop :=
  ∃ media, resolveSelection gettyResults item = Some media
    ∧ GettyMedia.title media = None.

#[global] Instance untitled_dec gettyResults item : Decision (untitled gettyResults item).
Proof.
  unfold untitled. destruct (resolveSelection gettyResults item) as [media|].
  - destruct (GettyMedia.title media) as [title|] eqn:Htitle.
    + right. intros (other & [= <-] & Hnone). congruence.
    + left. by exists media.
  - right. by intros (other & [=] & _).
Defined.

(** Every media of the result sets has a string title, as the interface
    [GettyMedia] declares. *)
Definition titledResults (gettyResults : list PersonGettyResults.t) : Prop :=
  Forall (λ result,
            Forall (λ media, is_Some (GettyMedia.title media))
              (PersonGettyResults.videos result ++ PersonGettyResults.photos result))
         gettyResults.

(** The lines of a text that ends every line with a line feed. *)
Definition lineCount (text : string) : nat := occurrences NEWLINE text.

(** The fields of the row of a Selection hold no line feed. *)
Definition singleLineFields (toLocaleDateString : string → string)
    (gettyResults : list PersonGettyResults.t) (item : SelectedItem.t) : Prop :=
  match resolveSelection gettyResults item with
  | Some media =>
      lineCount (SelectedItem.personName item) = 0
      ∧ lineCount (GettyMedia.id media) = 0
      ∧ lineCount (default "" (GettyMedia.title media)) = 0
      ∧ lineCount (toLocaleDateString (GettyMedia.dateCreated media)) = 0
      ∧ lineCount (GettyMedia.compUrl media) = 0
  | None => True
  end.

#[global] Instance singleLineFields_dec toLocaleDateString gettyResults item :
  Decision (singleLineFields toLocaleDateString gettyResults item).
Proof.
  unfold singleLineFields. destruct (resolveSelection gettyResults item); apply _.
Defined.

(** * Properties *)

(** ** Selection ledger *)

Section LedgerFacts.

Implicit Types (prev ledger : list SelectedItem.t) (personIndex : nat)
  (personName : string) (media : GettyMedia.t) (type : MediaType).

Lemma filterIndexed_keep_all {A} (keep : A → nat → bool) (l : list A) index :
  (∀ x j, index ≤ j → keep x j = true) → filterIndexed keep index l = l.
Proof.
  revert index. induction l as [|x l IH]; intros index Hkeep; simpl; [done|].
  rewrite Hkeep by lia. f_equal. apply IH. intros y j ?. apply Hkeep. lia.
Qed.

(** Filtering on [index !== existingIndex] deletes the element at that
    position, and nothing else. *)
Lemma filterIndexed_delete {A} (l : list A) (k index : nat) :
  filterIndexed (λ _ j, negb (j =? index + k)%nat) index l = delete k l.
Proof.
  revert k index. induction l as [|x l IH]; intros k index; simpl; [done|].
  destruct k as [|k].
  - rewrite Nat.add_0_r, Nat.eqb_refl. simpl.
    apply filterIndexed_keep_all. intros _ j Hj.
    apply negb_true_iff, Nat.eqb_neq. lia.
  - replace (index =? index + S k)%nat with false
      by (symmetry; apply Nat.eqb_neq; lia).
    simpl. f_equal. rewrite <- (IH k (S index)).
    by replace (S index + k) with (index + S k) by lia.
Qed.

Lemma toggleSelection_selected personIndex personName media type prev k item :
  list_find (samePair personIndex (GettyMedia.id media)) prev = Some (k, item) →
  toggleSelection personIndex personName media type prev = delete k prev.
Proof.
  intros Hfind. unfold toggleSelection, findIndex. rewrite Hfind. simpl.
  apply (filterIndexed_delete prev k 0).
Qed.

Lemma toggleSelection_unselected personIndex personName media type prev :
  list_find (samePair personIndex (GettyMedia.id media)) prev = None →
  toggleSelection personIndex personName media type prev
  = prev ++ [newSelection personIndex personName media type].
Proof. intros Hfind. unfold toggleSelection, findIndex. by rewrite Hfind. Qed.

Lemma newSelection_samePair personIndex personName media type :
  samePair personIndex (GettyMedia.id media)
    (newSelection personIndex personName media type).
Proof. by split. Qed.

Lemma isSelected_false personIndex mediaId ledger :
  isSelected ledger personIndex mediaId = false ↔
  list_find (samePair personIndex mediaId) ledger = None.
Proof.
  unfold isSelected. rewrite bool_decide_eq_false, list_find_None.
  rewrite <- Forall_Exists_neg. done.
Qed.

(** Toggling a pair that is not selected, twice: the Selection appended by
    the first call is the one the second call finds and removes. *)
Lemma toggle_twice_unselected personIndex personName media type prev :
  list_find (samePair personIndex (GettyMedia.id media)) prev = None →
  toggleSelection personIndex personName media type
    (toggleSelection personIndex personName media type prev) = prev.
Proof.
  intros Hnone. rewrite (toggleSelection_unselected _ _ _ _ prev Hnone).
  rewrite (toggleSelection_selected _ _ _ _ _ (length prev)
             (newSelection personIndex personName media type)).
  - rewrite (delete_middle prev []). apply app_nil_r.
  - rewrite list_find_app_r by done. simpl.
    rewrite decide_True by apply newSelection_samePair. done.
Qed.

(** Under the invariant, deleting the Selection of a pair leaves no
    Selection with that pair. *)
Lemma uniquePairs_delete_find personIndex mediaId ledger k item :
  uniquePairs ledger →
  list_find (samePair personIndex mediaId) ledger = Some (k, item) →
  list_find (samePair personIndex mediaId) (delete k ledger) = None.
Proof.
  intros Huniq (Hk & [Hi Hm] & _)%list_find_Some.
  apply list_find_None, Forall_forall. intros other Hother [Hi' Hm'].
  apply list_elem_of_lookup in Hother as [j Hj].
  unfold uniquePairs in Huniq. rewrite NoDup_alt in Huniq.
  assert (pairOf item = pairOf other) as Hpair.
  { unfold pairOf. congruence. }
  destruct (decide (j < k)) as [Hlt|Hge].
  - rewrite list_lookup_delete_lt in Hj by done.
    assert (j = k); [|lia].
    apply (Huniq j k (pairOf other)); rewrite list_lookup_fmap.
    + by rewrite Hj.
    + rewrite Hk. simpl. by rewrite Hpair.
  - rewrite list_lookup_delete_ge in Hj by lia.
    assert (S j = k); [|lia].
    apply (Huniq (S j) k (pairOf other)); rewrite list_lookup_fmap.
    + by rewrite Hj.
    + rewrite Hk. simpl. by rewrite Hpair.
Qed.

(** Toggling a selected pair twice, under the invariant: the Selection
    found is removed from its position and a new one is appended. *)
Lemma toggle_twice_selected personIndex personName media type prev k item :
  uniquePairs prev →
  list_find (samePair personIndex (GettyMedia.id media)) prev = Some (k, item) →
  toggleSelection personIndex personName media type
    (toggleSelection personIndex personName media type prev)
  = delete k prev ++ [newSelection personIndex personName media type].
Proof.
  intros Huniq Hfind.
  rewrite (toggleSelection_selected _ _ _ _ prev k item Hfind).
  apply toggleSelection_unselected. by eapply uniquePairs_delete_find.
Qed.

(** When the Selection found is the one the arguments describe, the two
    toggles move it to the end of the ledger. *)
Lemma toggle_twice_moves personIndex personName media type prev :
  uniquePairs prev →
  newSelection personIndex personName media type ∈ prev →
  ∃ k, prev !! k = Some (newSelection personIndex personName media type)
       ∧ toggleSelection personIndex personName media type
           (toggleSelection personIndex personName media type prev)
         = delete k prev ++ [newSelection personIndex personName media type].
Proof.
  intros Huniq Hin.
  destruct (list_find_elem_of (samePair personIndex (GettyMedia.id media))
              prev _ Hin (newSelection_samePair _ _ _ _)) as [[k item] Hfind].
  pose proof Hfind as (Hk & [Hi Hm] & _)%list_find_Some.
  apply list_elem_of_lookup in Hin as [j Hj].
  assert (j = k) as ->.
  { unfold uniquePairs in Huniq. rewrite NoDup_alt in Huniq.
    apply (Huniq j k (personIndex, GettyMedia.id media)); rewrite list_lookup_fmap.
    - by rewrite Hj.
    - rewrite Hk. simpl. unfold pairOf. by rewrite Hi, Hm. }
  exists k. split; [done|].
  by apply (toggle_twice_selected _ _ _ _ _ k item).
Qed.

Lemma toggle_twice_permutation personIndex personName media type prev :
  uniquePairs prev →
  newSelection personIndex personName media type ∈ prev →
  toggleSelection personIndex personName media type
    (toggleSelection personIndex personName media type prev) ≡ₚ prev.
Proof.
  intros Huniq Hin.
  destruct (toggle_twice_moves _ _ _ _ _ Huniq Hin) as (k & Hk & ->).
  rewrite (delete_Permutation prev k _ Hk) at 2.
  by rewrite Permutation_app_comm.
Qed.

(** Both bulk operations on one person and one kind keep the Selections
    the filter keeps; [selectAllVideos] then [deselectAllVideos] is
    [deselectAllVideos]. *)
Lemma newSelection_sameKind personIndex personName type (items : list GettyMedia.t) :
  filter (λ item, ¬ sameKind personIndex type item)
    ((λ m, newSelection personIndex personName m type) <$> items) = [].
Proof.
  induction items as [|m items IH]; [done|]. csimpl.
  rewrite filter_cons_False; [done|]. intros Hn. apply Hn. by split.
Qed.

Lemma deselect_after_select_videos personIndex personName (items : list GettyMedia.t) prev :
  deselectAllVideos personIndex (selectAllVideos personIndex personName items prev)
  = deselectAllVideos personIndex prev.
Proof.
  unfold deselectAllVideos, selectAllVideos. simpl.
  rewrite filter_app, newSelection_sameKind, app_nil_r.
  apply list_filter_filter_l. done.
Qed.

End LedgerFacts.

(** C3. [selectAllVideos(i, name, items)] followed by [deselectAllVideos(i)]
    leaves no video Selection for person [i], and the photo Selections of
    person [i] afterwards are exactly those before, whatever the ledger and
    the item list. *)
Theorem select_then_deselect_videos_frame
    (personIndex : nat) (personName : string) (items : list GettyMedia.t)
    (prev : list SelectedItem.t) :
  let after :=
    deselectAllVideos personIndex (selectAllVideos personIndex personName items prev) in
  filter (sameKind personIndex video) after = []
  ∧ filter (sameKind personIndex photo) after = filter (sameKind personIndex photo) prev.
Proof.
  intros after. subst after. rewrite deselect_after_select_videos.
  unfold deselectAllVideos. split.
  - rewrite list_filter_filter. induction prev as [|x prev IH]; [done|].
    rewrite filter_cons_False; [done|]. tauto.
  - apply list_filter_filter_l. intros x [Hi Hp] [_ Hv]. congruence.
Qed.

(** *** The invariant along a run of the ledger *)

Section LedgerInvariant.

Variable gettyResults : list PersonGettyResults.t.
Hypothesis Hdistinct : distinctIds gettyResults.

Implicit Types (ledger : list SelectedItem.t) (type : MediaType)
  (result : PersonGettyResults.t).

Lemma distinctIds_lookup personIndex result :
  gettyResults !! personIndex = Some result → NoDup (idsOf result).
Proof using Hdistinct.
  intros Hlookup. unfold distinctIds in Hdistinct.
  rewrite Forall_lookup in Hdistinct. eauto.
Qed.

Lemma NoDup_ids_of_kind result type :
  NoDup (idsOf result) → NoDup (GettyMedia.id <$> mediaOf type result).
Proof.
  unfold idsOf. rewrite fmap_app, NoDup_app. intros (Hv & _ & Hp).
  by destruct type.
Qed.

(** With distinct ids, an id names its kind. *)
Lemma kind_of_id result type type' (mediaId : string) :
  NoDup (idsOf result) →
  mediaId ∈ GettyMedia.id <$> mediaOf type result →
  mediaId ∈ GettyMedia.id <$> mediaOf type' result →
  type = type'.
Proof.
  unfold idsOf. rewrite fmap_app, NoDup_app. intros (_ & Hdisj & _) Hin Hin'.
  destruct type, type'; simpl in *; try done; exfalso; eapply Hdisj; eauto.
Qed.

Lemma newSelection_fromResults personIndex media type result :
  gettyResults !! personIndex = Some result →
  media ∈ mediaOf type result →
  fromResults gettyResults
    (newSelection personIndex (Person.name (PersonGettyResults.person result)) media type).
Proof.
  intros Hlookup Hin. unfold fromResults. simpl. rewrite Hlookup. by exists media.
Qed.

Lemma fromResults_id item result :
  fromResults gettyResults item →
  gettyResults !! SelectedItem.personIndex item = Some result →
  SelectedItem.mediaId item
    ∈ GettyMedia.id <$> mediaOf (SelectedItem.mediaType item) result.
Proof.
  unfold fromResults. intros Hfrom Hlookup. rewrite Hlookup in Hfrom.
  destruct Hfrom as (media & Hmedia & ->). simpl. by apply list_elem_of_fmap_2.
Qed.

(** With distinct ids, the media of a kind are told apart by their id. *)
Lemma media_of_id result type (media media' : GettyMedia.t) :
  NoDup (idsOf result) →
  media ∈ mediaOf type result → media' ∈ mediaOf type result →
  GettyMedia.id media = GettyMedia.id media' → media = media'.
Proof.
  intros Hnodup%(NoDup_ids_of_kind _ type) Hin Hin' Hid.
  apply list_elem_of_lookup in Hin as [i Hi]. apply list_elem_of_lookup in Hin' as [j Hj].
  rewrite NoDup_alt in Hnodup.
  assert (i = j) as ->; [|congruence].
  apply (Hnodup i j (GettyMedia.id media)); rewrite list_lookup_fmap.
  - by rewrite Hi.
  - rewrite Hj. simpl. by rewrite Hid.
Qed.

Lemma ledgerInv_nil : ledgerInv gettyResults [].
Proof. split; [apply NoDup_nil_2 | apply Forall_nil_2]. Qed.

Lemma ledgerInv_filter (P : SelectedItem.t → Prop) `{!∀ x, Decision (P x)} ledger :
  ledgerInv gettyResults ledger → ledgerInv gettyResults (filter P ledger).
Proof.
  intros [Huniq Hfrom]. split.
  - unfold uniquePairs. eapply sublist_NoDup; [exact Huniq|].
    apply fmap_sublist, sublist_filter.
  - rewrite Forall_forall in Hfrom |- *.
    intros x [_ Hx]%list_elem_of_filter. auto.
Qed.

Lemma ledgerInv_delete k ledger :
  ledgerInv gettyResults ledger → ledgerInv gettyResults (delete k ledger).
Proof.
  intros [Huniq Hfrom]. split.
  - unfold uniquePairs. rewrite list_fmap_delete.
    eapply sublist_NoDup; [exact Huniq | apply sublist_delete].
  - by apply Forall_delete.
Qed.

(** Appending Selections of one kind to a ledger that holds none of that
    kind for the persons concerned. *)
Lemma ledgerInv_app ledger (added : list SelectedItem.t) type :
  ledgerInv gettyResults ledger →
  NoDup (pairOf <$> added) →
  Forall (fromResults gettyResults) added →
  Forall (λ item, SelectedItem.mediaType item = type) added →
  (∀ old new, old ∈ ledger → new ∈ added →
     SelectedItem.personIndex old = SelectedItem.personIndex new →
     SelectedItem.mediaType old ≠ type) →
  ledgerInv gettyResults (ledger ++ added).
Proof using Hdistinct.
  intros [Huniq Hfrom] Hnodup Hadded Hkind Hother. split.
  - unfold uniquePairs. rewrite fmap_app. apply NoDup_app. split_and!; [done| |done].
    intros pair (old & -> & Hold)%list_elem_of_fmap (new & Heq & Hnew)%list_elem_of_fmap.
    injection Heq as Hindex Hid.
    apply (Hother old new Hold Hnew Hindex).
    rewrite Forall_forall in Hfrom, Hadded, Hkind.
    specialize (Hfrom old Hold). specialize (Hadded new Hnew).
    specialize (Hkind new Hnew).
    destruct (gettyResults !! SelectedItem.personIndex old) as [result|] eqn:Hlookup;
      [|by unfold fromResults in Hfrom; rewrite Hlookup in Hfrom].
    pose proof (fromResults_id old result Hfrom Hlookup) as Hidold.
    rewrite Hindex in Hlookup.
    pose proof (fromResults_id new result Hadded Hlookup) as Hidnew.
    rewrite <- Hkind. rewrite <- Hid in Hidnew.
    eapply kind_of_id; eauto using distinctIds_lookup.
  - by apply Forall_app.
Qed.

Lemma pairOf_newSelection personIndex personName type (items : list GettyMedia.t) :
  pairOf <$> ((λ m, newSelection personIndex personName m type) <$> items)
  = (λ mediaId, (personIndex, mediaId)) <$> (GettyMedia.id <$> items).
Proof. rewrite <- !list_fmap_compose. by apply list_fmap_ext. Qed.

(** Per-person bulk selection, for either kind. *)
Lemma ledgerInv_select_kind personIndex type result ledger :
  gettyResults !! personIndex = Some result →
  ledgerInv gettyResults ledger →
  ledgerInv gettyResults
    (filter (λ item, ¬ sameKind personIndex type item) ledger
     ++ ((λ m, newSelection personIndex
                 (Person.name (PersonGettyResults.person result)) m type)
           <$> mediaOf type result)).
Proof using Hdistinct.
  intros Hlookup Hinv. apply (ledgerInv_app _ _ type).
  - by apply ledgerInv_filter.
  - rewrite pairOf_newSelection. apply NoDup_fmap_2; [intros ?? [=]; done|].
    apply NoDup_ids_of_kind. by eapply distinctIds_lookup.
  - apply Forall_fmap, Forall_forall. intros m Hm. simpl.
    by eapply newSelection_fromResults.
  - by apply Forall_fmap, Forall_forall.
  - intros old new [Hold _]%list_elem_of_filter (m & -> & _)%list_elem_of_fmap Hindex Htype.
    apply Hold. by split.
Qed.

(** The Selections the global selectors build. *)
Lemma elem_of_allSelections type (results : list PersonGettyResults.t) item :
  item ∈ allSelections type results →
  ∃ index result m,
    results !! index = Some result ∧ m ∈ mediaOf type result
    ∧ item = newSelection index (Person.name (PersonGettyResults.person result)) m type.
Proof.
  unfold allSelections. induction results as [|result results IH] using rev_ind.
  - by intros ?%elem_of_nil.
  - rewrite imap_app, concat_app. simpl. rewrite app_nil_r, Nat.add_0_r.
    intros [Hin|Hin]%elem_of_app.
    + destruct (IH Hin) as (index & r & m & Hlookup & Hm & ->).
      exists index, r, m. split_and!; [|done..].
      by apply lookup_app_l_Some.
    + apply list_elem_of_fmap in Hin as (m & -> & Hm).
      exists (length results), result, m. split_and!; [|done..].
      by rewrite lookup_app_r, Nat.sub_diag.
Qed.

Lemma NoDup_allSelections type (results : list PersonGettyResults.t) :
  distinctIds results → NoDup (pairOf <$> allSelections type results).
Proof.
  unfold allSelections, distinctIds.
  induction results as [|result results IH] using rev_ind; [constructor|].
  intros [Hresults Hresult%Forall_inv]%Forall_app.
  rewrite imap_app, concat_app. simpl. rewrite app_nil_r, Nat.add_0_r.
  rewrite fmap_app. apply NoDup_app. split_and!.
  - by apply IH.
  - intros pair (old & -> & Hold)%list_elem_of_fmap Hnew.
    apply elem_of_allSelections in Hold as (index & r & m & Hlookup%lookup_lt_Some & _ & ->).
    rewrite pairOf_newSelection in Hnew.
    apply list_elem_of_fmap in Hnew as (mediaId & [= Hindex _] & _). lia.
  - rewrite pairOf_newSelection. apply NoDup_fmap_2; [intros ?? [=]; done|].
    by apply NoDup_ids_of_kind.
Qed.

(** Global bulk selection, for either kind. *)
Lemma ledgerInv_select_global type ledger :
  ledgerInv gettyResults ledger →
  ledgerInv gettyResults
    (filter (λ item, SelectedItem.mediaType item ≠ type) ledger
     ++ allSelections type gettyResults).
Proof using Hdistinct.
  intros Hinv. apply (ledgerInv_app _ _ type).
  - by apply ledgerInv_filter.
  - by apply NoDup_allSelections.
  - apply Forall_forall.
    intros item (index & result & m & Hlookup & Hm & ->)%elem_of_allSelections.
    by eapply newSelection_fromResults.
  - apply Forall_forall.
    by intros item (index & result & m & _ & _ & ->)%elem_of_allSelections.
  - by intros old new [Hold _]%list_elem_of_filter _ _.
Qed.

Lemma ledgerInv_toggle personIndex media type result ledger :
  gettyResults !! personIndex = Some result →
  media ∈ mediaOf type result →
  ledgerInv gettyResults ledger →
  ledgerInv gettyResults
    (toggleSelection personIndex (Person.name (PersonGettyResults.person result))
       media type ledger).
Proof using Hdistinct.
  intros Hlookup Hmedia Hinv.
  destruct (list_find (samePair personIndex (GettyMedia.id media)) ledger)
    as [[k item]|] eqn:Hfind.
  - rewrite (toggleSelection_selected _ _ _ _ _ k item Hfind).
    by apply ledgerInv_delete.
  - rewrite (toggleSelection_unselected _ _ _ _ _ Hfind).
    apply list_find_None in Hfind. destruct Hinv as [Huniq Hfrom]. split.
    + unfold uniquePairs. rewrite fmap_app. apply NoDup_app.
      split_and!; [done| |apply NoDup_singleton].
      intros pair (old & -> & Hold)%list_elem_of_fmap [= Hi Hm]%list_elem_of_singleton.
      rewrite Forall_forall in Hfind. by apply (Hfind old Hold).
    + apply Forall_app. split; [done|]. apply Forall_singleton.
      by eapply newSelection_fromResults.
Qed.

(** Every operation the page can issue keeps the invariant. *)
Lemma ledgerInv_applyOp op ledger :
  wired gettyResults op →
  ledgerInv gettyResults ledger →
  ledgerInv gettyResults (applyOp gettyResults op ledger).
Proof using Hdistinct.
  intros Hwired Hinv. destruct op as [i n m ty|ty i n items|ty i|ty|ty]; simpl in *.
  - destruct (gettyResults !! i) as [result|] eqn:Hlookup; [|done].
    destruct Hwired as [-> Hm]. by eapply ledgerInv_toggle.
  - destruct (gettyResults !! i) as [result|] eqn:Hlookup; [|done].
    destruct Hwired as [-> ->].
    destruct ty; by apply ledgerInv_select_kind.
  - destruct ty; by apply ledgerInv_filter.
  - destruct ty; by apply ledgerInv_select_global.
  - destruct ty; by apply ledgerInv_filter.
Qed.

Lemma ledgerInv_runOps ops ledger :
  Forall (wired gettyResults) ops →
  ledgerInv gettyResults ledger →
  ledgerInv gettyResults (runOps gettyResults ops ledger).
Proof using Hdistinct.
  unfold runOps. revert ledger.
  induction ops as [|op ops IH]; intros ledger Hwired Hinv; simpl; [done|].
  apply Forall_cons in Hwired as [Hop Hops].
  apply IH; [done|]. by apply ledgerInv_applyOp.
Qed.

End LedgerInvariant.

(** C1, as stated, fails: over a result set in which person 0 has a video
    and a photo with the same id, "Select All Videos" followed by "Select
    All Photos" leaves two Selections with the pair (0, that id). *)
Lemma pairs_not_unique_when_ids_clash :
  Forall (wired Sample.clashingResults) Sample.clashingOps
  ∧ ¬ uniquePairs (runOps Sample.clashingResults Sample.clashingOps []).
Proof.
  split.
  - apply (bool_decide_unpack _). by vm_compute.
  - apply (bool_decide_eq_false_1 _). by vm_compute.
Qed.

(** C1 (amended). Over result sets in which, for every person, the media
    ids are pairwise distinct across both kinds, every ledger state reached
    from the empty ledger by operations the page can issue (toggle, select
    all / deselect all of a kind for a person, select all / deselect all of a
    kind globally) holds at most one Selection per pair (personIndex,
    mediaId), and every such operation applied to a reached state gives a
    state that does so too. *)
Theorem ledger_pairs_unique
    (gettyResults : list PersonGettyResults.t) (ops : list LedgerOp) :
  distinctIds gettyResults →
  Forall (wired gettyResults) ops →
  uniquePairs (runOps gettyResults ops [])
  ∧ ∀ op, wired gettyResults op →
      uniquePairs (applyOp gettyResults op (runOps gettyResults ops [])).
Proof.
  intros Hdistinct Hwired.
  pose proof (ledgerInv_runOps gettyResults Hdistinct ops [] Hwired
                (ledgerInv_nil gettyResults)) as Hinv.
  split; [apply Hinv|].
  intros op Hop. by apply (ledgerInv_applyOp gettyResults Hdistinct op).
Qed.

Lemma ledger_pairs_unique_witness :
  uniquePairs (runOps Sample.results Sample.ops []).
Proof.
  apply (proj1 (ledger_pairs_unique Sample.results Sample.ops
                  ltac:(apply (bool_decide_unpack _); vm_compute; exact I)
                  ltac:(apply (bool_decide_unpack _); vm_compute; exact I))).
Defined.

(** C2, as stated, fails: toggling the first of two Selections twice moves
    it behind the other one, so the ledger is not the list it was. *)
Lemma toggle_twice_reorders :
  toggleSelection 0 "Jane Doe" Sample.clip video
    (toggleSelection 0 "Jane Doe" Sample.clip video
       [Sample.clipSelection; Sample.stillSelection])
  ≠ [Sample.clipSelection; Sample.stillSelection].
Proof. vm_compute. discriminate. Qed.

(** The pair ignores the kind: toggling the photo that shares the id of a
    selected video removes the video, and the second toggle records the
    photo, so not even the set of Selections is restored. *)
Lemma toggle_twice_other_kind :
  toggleSelection 0 "Jane Doe" Sample.stillSameId photo
    (toggleSelection 0 "Jane Doe" Sample.stillSameId photo [Sample.clipSelection])
  = [newSelection 0 "Jane Doe" Sample.stillSameId photo]
  ∧ Sample.clipSelection
    ∉ [newSelection 0 "Jane Doe" Sample.stillSameId photo].
Proof.
  split; [by vm_compute|]. intros Hin%list_elem_of_singleton. discriminate Hin.
Qed.

(** C2 (amended). Toggling twice with the same arguments restores the
    ledger exactly when the pair was not selected. When the ledger
    satisfies the invariant and already holds the Selection the arguments
    describe, two toggles remove it from its position and append it again:
    the ledger holds the same Selections, with that one moved to the end.
    This is the case in every ledger state the page can reach over result
    sets with distinct ids, for every toggle the page can issue. *)
Theorem toggle_twice
    (personIndex : nat) (personName : string) (media : GettyMedia.t)
    (type : MediaType) (prev : list SelectedItem.t) :
  let twice :=
    toggleSelection personIndex personName media type
      (toggleSelection personIndex personName media type prev) in
  (isSelected prev personIndex (GettyMedia.id media) = false → twice = prev)
  ∧ (uniquePairs prev →
     newSelection personIndex personName media type ∈ prev →
     twice ≡ₚ prev
     ∧ ∃ k, prev !! k = Some (newSelection personIndex personName media type)
            ∧ twice = delete k prev ++ [newSelection personIndex personName media type])
  ∧ (∀ gettyResults ops,
       distinctIds gettyResults →
       Forall (wired gettyResults) ops →
       wired gettyResults (OpToggle personIndex personName media type) →
       prev = runOps gettyResults ops [] →
       twice ≡ₚ prev).
Proof.
  intros twice. subst twice. split_and!.
  - intros Hsel%isSelected_false. by apply toggle_twice_unselected.
  - intros Huniq Hin. split.
    + by apply toggle_twice_permutation.
    + by apply toggle_twice_moves.
  - intros gettyResults ops Hdistinct Hops Hwired ->.
    destruct (ledgerInv_runOps gettyResults Hdistinct ops [] Hops
                (ledgerInv_nil gettyResults)) as [Huniq Hfrom].
    destruct (list_find (samePair personIndex (GettyMedia.id media))
                (runOps gettyResults ops [])) as [[k item]|] eqn:Hfind.
    + apply toggle_twice_permutation; [done|].
      apply list_find_Some in Hfind as (Hk%list_elem_of_lookup_2 & [Hi Hm] & _).
      rewrite Forall_forall in Hfrom. specialize (Hfrom item Hk).
      unfold fromResults in Hfrom. simpl in Hwired. rewrite Hi in Hfrom.
      destruct (gettyResults !! personIndex) as [result|] eqn:Hlookup; [|done].
      destruct Hwired as [-> Hmedia]. destruct Hfrom as (media' & Hmedia' & Hitem).
      pose proof (distinctIds_lookup gettyResults Hdistinct _ _ Hlookup) as Hnodup.
      assert (GettyMedia.id media' = GettyMedia.id media) as Hid.
      { rewrite <- Hm, Hitem. done. }
      assert (SelectedItem.mediaType item = type) as Htype.
      { eapply (kind_of_id result _ _ (GettyMedia.id media)); [done| |].
        - rewrite <- Hid. by apply list_elem_of_fmap_2.
        - by apply list_elem_of_fmap_2. }
      rewrite Htype in Hmedia', Hitem.
      rewrite (media_of_id result type media' media Hnodup Hmedia' Hmedia Hid) in Hitem.
      by rewrite <- Hitem.
    + by rewrite toggle_twice_unselected.
Qed.

Lemma toggle_twice_witness :
  toggleSelection 0 "Jane Doe" Sample.clip video
    (toggleSelection 0 "Jane Doe" Sample.clip video [Sample.stillSelection])
  = [Sample.stillSelection]
  ∧ toggleSelection 0 "Jane Doe" Sample.clip video
      (toggleSelection 0 "Jane Doe" Sample.clip video
         [Sample.clipSelection; Sample.stillSelection])
    ≡ₚ [Sample.clipSelection; Sample.stillSelection]
  ∧ toggleSelection 0 "Jane Doe" Sample.still photo
      (toggleSelection 0 "Jane Doe" Sample.still photo
         (runOps Sample.results Sample.ops []))
    ≡ₚ runOps Sample.results Sample.ops [].
Proof.
  split_and!.
  - apply (proj1 (toggle_twice 0 "Jane Doe" Sample.clip video [Sample.stillSelection])).
    vm_compute. reflexivity.
  - apply (proj1 (proj2 (toggle_twice 0 "Jane Doe" Sample.clip video
                           [Sample.clipSelection; Sample.stillSelection]))).
    + apply (bool_decide_unpack _). vm_compute. exact I.
    + apply (bool_decide_unpack _). vm_compute. exact I.
  - apply (proj2 (proj2 (toggle_twice 0 "Jane Doe" Sample.still photo
                           (runOps Sample.results Sample.ops [])))
             Sample.results Sample.ops).
    + apply (bool_decide_unpack _). vm_compute. exact I.
    + apply (bool_decide_unpack _). vm_compute. exact I.
    + apply (bool_decide_unpack _). vm_compute. exact I.
    + reflexivity.
Defined.

(** ** Gateway and search aggregator *)

Section SearchFacts.

Variable provider : Request.t → Response.t.

Implicit Types (st : App.t) (sent : list Request.t) (shotlist : list Person.t)
  (results : list PersonGettyResults.t).

(** With the header the client sends, a gateway handler hands the
    provider's answer on: status and body as they are when the provider
    refuses, status 200 with the provider's body otherwise. *)
Lemma gatewayHandler_forwards endpoint (req : Request.t) (token : string) :
  Request.authorization req = "Bearer " +:+ token →
  gatewayHandler provider endpoint req =
    let response := provider (providerRequest endpoint req) in
    if Response.ok response
    then {| Response.status := 200; Response.body := Response.body response |}
    else response.
Proof.
  intros Hauth. unfold gatewayHandler. rewrite Hauth.
  change (truthy (Some ("Bearer " +:+ token))) with true.
  replace (String.prefix "Bearer " ("Bearer " +:+ token)) with true
    by (by destruct token).
  simpl. destruct (provider (providerRequest endpoint req)) as [status body].
  by destruct (Response.ok _).
Qed.

Lemma gatewayHandler_ok endpoint (req : Request.t) (token : string) :
  Request.authorization req = "Bearer " +:+ token →
  Response.ok (gatewayHandler provider endpoint req)
  = Response.ok (provider (providerRequest endpoint req)).
Proof.
  intros Hauth. rewrite (gatewayHandler_forwards _ _ _ Hauth). simpl.
  by destruct (Response.ok (provider _)) eqn:Hok.
Qed.

Lemma searchGettyVideos_run st searchTerm sent :
  searchGettyVideos provider st searchTerm sent =
    (sent ++ [searchRequest st "/api/getty-videos" searchTerm],
     let reply := videosReply provider st searchTerm in
     if Response.ok reply then Ok (topResults (Body.videos (Response.body reply)))
     else Throw ("Getty video search failed: " +:+ numberString (Response.status reply))).
Proof.
  unfold searchGettyVideos, bind, fetchFrom, gettyVideosHandler, videosReply.
  rewrite (gatewayHandler_forwards _ _ (templateString (App.accessToken st))) by done.
  simpl. destruct (Response.ok (provider _)) eqn:Hok; simpl; [done|].
  by rewrite Hok.
Qed.

Lemma searchGettyPhotos_run st searchTerm sent :
  searchGettyPhotos provider st searchTerm sent =
    (sent ++ [searchRequest st "/api/getty-photos" searchTerm],
     let reply := photosReply provider st searchTerm in
     if Response.ok reply then Ok (topResults (Body.images (Response.body reply)))
     else Throw ("Getty photo search failed: " +:+ numberString (Response.status reply))).
Proof.
  unfold searchGettyPhotos, bind, fetchFrom, gettyPhotosHandler, photosReply.
  rewrite (gatewayHandler_forwards _ _ (templateString (App.accessToken st))) by done.
  simpl. destruct (Response.ok (provider _)) eqn:Hok; simpl; [done|].
  by rewrite Hok.
Qed.

(** One turn of the loop. *)
Lemma searchLoop_cons st person shotlist results sent :
  searchLoop provider st (person :: shotlist) results sent =
    let name := Person.name person in
    if Response.ok (videosReply provider st name) then
      if Response.ok (photosReply provider st name) then
        searchLoop provider st shotlist (results ++ [resultFor provider st person])
          (sent ++ requestsFor st person)
      else
        (sent ++ requestsFor st person,
         Throw ("Getty photo search failed: "
                +:+ numberString (Response.status (photosReply provider st name))))
    else
      (sent ++ [searchRequest st "/api/getty-videos" name],
       Throw ("Getty video search failed: "
              +:+ numberString (Response.status (videosReply provider st name)))).
Proof.
  simpl. unfold bind at 1. rewrite searchGettyVideos_run. simpl.
  destruct (Response.ok (videosReply provider st _)); [|done].
  unfold bind at 1. rewrite searchGettyPhotos_run. simpl.
  unfold requestsFor. rewrite <- app_assoc. simpl.
  by destruct (Response.ok (photosReply provider st _)).
Qed.

End SearchFacts.

Section SearchLoopFacts.

Variable provider : Request.t → Response.t.

Implicit Types (st : App.t) (sent : list Request.t) (shotlist : list Person.t)
  (results : list PersonGettyResults.t).

(** The loop reads the token, the collection toggles and the PMCARC flag
    only, so the flags set around it do not matter. *)
Lemma searchLoop_loading st shotlist results sent message loading :
  searchLoop provider (App.setError message (App.setIsLoading loading st))
    shotlist results sent
  = searchLoop provider st shotlist results sent.
Proof.
  revert results sent. induction shotlist as [|person shotlist IH]; intros; [done|].
  rewrite !searchLoop_cons. simpl. rewrite IH. done.
Qed.

Lemma searchLoop_setShotlist st other shotlist results sent :
  searchLoop provider (App.setShotlist other st) shotlist results sent
  = searchLoop provider st shotlist results sent.
Proof.
  revert results sent. induction shotlist as [|person shotlist IH]; intros; [done|].
  rewrite !searchLoop_cons. simpl. rewrite IH. done.
Qed.

Lemma searchLoop_answered st shotlist results sent :
  Forall (answered provider st) shotlist →
  searchLoop provider st shotlist results sent
  = (sent ++ (shotlist ≫= requestsFor st),
     Ok (results ++ (resultFor provider st <$> shotlist))).
Proof.
  revert results sent.
  induction shotlist as [|person shotlist IH]; intros results sent Hall.
  - simpl. unfold ret. by rewrite !app_nil_r.
  - apply Forall_cons in Hall as [[Hv Hp] Hall].
    rewrite searchLoop_cons. simpl. rewrite Hv, Hp, (IH _ _ Hall).
    by rewrite <- !app_assoc.
Qed.


(** Whatever the provider answers, the requests sent are an initial
    segment of the two requests per person, in shotlist order. *)
Lemma searchLoop_sent st shotlist results sent :
  ∃ n, (searchLoop provider st shotlist results sent).1
       = sent ++ take n (shotlist ≫= requestsFor st).
Proof.
  revert results sent.
  induction shotlist as [|person shotlist IH]; intros results sent.
  - exists 0. simpl. by rewrite app_nil_r.
  - rewrite searchLoop_cons. simpl.
    destruct (Response.ok (videosReply provider st _)).
    + destruct (Response.ok (photosReply provider st _)).
      * destruct (IH (results ++ [resultFor provider st person])
                     (sent ++ requestsFor st person)) as [n ->].
        exists (2 + n). by rewrite <- app_assoc.
      * by exists 2.
    + by exists 1.
Qed.

(** Two shotlists with the same names, in the same order, cause the same
    requests. *)
Lemma searchLoop_names st shotlist shotlist' results results' sent :
  Person.name <$> shotlist = Person.name <$> shotlist' →
  (searchLoop provider st shotlist results sent).1
  = (searchLoop provider st shotlist' results' sent).1.
Proof.
  revert shotlist' results results' sent.
  induction shotlist as [|person shotlist IH];
    intros [|person' shotlist'] results results' sent Hnames; try done.
  injection Hnames as Hname Hnames.
  rewrite !searchLoop_cons. simpl. unfold requestsFor. rewrite <- Hname.
  destruct (Response.ok (videosReply provider st _)); [|done].
  destruct (Response.ok (photosReply provider st _)); [|done].
  by apply IH.
Qed.

Lemma handleSearchGetty_run st :
  truthy (App.accessToken st) = true →
  handleSearchGetty provider st =
    match searchLoop provider st (App.shotlist st) [] [] with
    | (sent, Ok results) =>
        (sent, App.setIsLoading false
                 (App.setCurrentStep 4 (App.setGettyResults results
                    (App.setError "" st))))
    | (sent, Throw message) => (sent, App.setIsLoading false (App.setError message st))
    end.
Proof.
  intros Htoken. unfold handleSearchGetty. rewrite Htoken. simpl.
  rewrite searchLoop_loading.
  by destruct (searchLoop provider st (App.shotlist st) [] []) as [sent [results|message]].
Qed.

End SearchLoopFacts.

(** C5. When the token is held and the provider answers both searches of
    every person of the shotlist with a success status, the search sends
    the video and the photo request of each person in turn, stores exactly
    one result set per person, in shotlist order, and advances to step 4; a kind for which the provider returned no record (a missing or
    an empty array) gets the empty array. *)
Theorem search_one_result_per_person
    (provider : Request.t → Response.t) (st : App.t) :
  truthy (App.accessToken st) = true →
  Forall (answered provider st) (App.shotlist st) →
  let after := (handleSearchGetty provider st).2 in
  (handleSearchGetty provider st).1 = App.shotlist st ≫= requestsFor st
  ∧ PersonGettyResults.person <$> App.gettyResults after = App.shotlist st
  ∧ length (App.gettyResults after) = length (App.shotlist st)
  ∧ App.gettyResults after = resultFor provider st <$> App.shotlist st
  ∧ App.currentStep after = 4
  ∧ App.error after = ""
  ∧ Forall (λ result,
       let name := Person.name (PersonGettyResults.person result) in
       (Body.videos (Response.body (videosReply provider st name)) ∈ [None; Some []] →
        PersonGettyResults.videos result = [])
       ∧ (Body.images (Response.body (photosReply provider st name)) ∈ [None; Some []] →
          PersonGettyResults.photos result = []))
      (App.gettyResults after).
Proof.
  intros Htoken Hall after. subst after.
  rewrite (handleSearchGetty_run _ _ Htoken), (searchLoop_answered _ _ _ _ _ Hall).
  simpl. split_and!; try done.
  - rewrite <- list_fmap_compose. apply list_fmap_id.
  - apply length_fmap.
  - apply Forall_fmap, Forall_forall. intros person _. simpl. split.
    + intros [->|[->|[]%elem_of_nil]%elem_of_cons]%elem_of_cons; done.
    + intros [->|[->|[]%elem_of_nil]%elem_of_cons]%elem_of_cons; done.
Qed.

Lemma search_one_result_per_person_witness :
  PersonGettyResults.person <$>
    App.gettyResults (handleSearchGetty Sample.provider Sample.state).2
  = [Sample.jane; Sample.john].
Proof.
  apply (proj1 (proj2 (search_one_result_per_person Sample.provider Sample.state
                         ltac:(vm_compute; reflexivity)
                         ltac:(apply (bool_decide_unpack _); vm_compute; exact I)))).
Defined.






(** In the sample, the search for John Roe is refused after Jane Doe was
    served: three requests are sent and the second result set is never
    stored. *)
Lemma search_stops_at_john :
  length (handleSearchGetty Sample.janeOnly Sample.state).1 = 3
  ∧ App.error (handleSearchGetty Sample.janeOnly Sample.state).2
    = "Getty video search failed: 429".
Proof. split; reflexivity. Qed.

(** The loop over persons that are all answered sends their requests and
    goes on with the rest of the shotlist. *)
Lemma searchLoop_app_answered
    (provider : Request.t → Response.t) (st : App.t)
    (served rest : list Person.t) (results : list PersonGettyResults.t)
    (sent : list Request.t) :
  Forall (answered provider st) served →
  searchLoop provider st (served ++ rest) results sent
  = searchLoop provider st rest (results ++ (resultFor provider st <$> served))
      (sent ++ (served ≫= requestsFor st)).
Proof.
  intros Hserved. revert results sent.
  induction Hserved as [|person served [Hvideo Hphoto] _ IH]; intros results sent.
  - simpl. by rewrite !app_nil_r.
  - change ((person :: served) ++ rest) with (person :: (served ++ rest)).
    rewrite searchLoop_cons. simpl. rewrite Hvideo, Hphoto, IH.
    csimpl. by rewrite <- !app_assoc.
Qed.

Lemma length_requests (st : App.t) (shotlist : list Person.t) :
  length (shotlist ≫= requestsFor st) = 2 * length shotlist.
Proof. induction shotlist as [|person shotlist IH]; [done|]. csimpl. rewrite IH. lia. Qed.

(** The requests the loop sends for the first person that follows the
    answered ones: always the video request, and the photo request once
    the video search is answered. *)
Lemma searchLoop_next_requests
    (provider : Request.t → Response.t) (st : App.t)
    (served : list Person.t) (person : Person.t) (rest : list Person.t) :
  Forall (answered provider st) served →
  let sent := (searchLoop provider st (served ++ person :: rest) [] []).1 in
  sent !! (2 * length served)
  = Some (searchRequest st "/api/getty-videos" (Person.name person))
  ∧ (Response.ok (videosReply provider st (Person.name person)) = true →
     sent !! (2 * length served + 1)
     = Some (searchRequest st "/api/getty-photos" (Person.name person))).
Proof.
  intros Hserved sent. subst sent.
  rewrite (searchLoop_app_answered _ _ _ _ _ _ Hserved), searchLoop_cons. simpl.
  pose proof (length_requests st served) as Hlength.
  destruct (Response.ok (videosReply provider st (Person.name person))) eqn:Hvideo.
  - destruct (Response.ok (photosReply provider st (Person.name person))) eqn:Hphoto.
    + match goal with
      | |- context [searchLoop provider st rest ?results ?sent] =>
          destruct (searchLoop_sent provider st rest results sent) as [n ->]
      end.
      rewrite <- !app_assoc. split; [|intros _].
      * rewrite lookup_app_r by lia. by replace (_ - _) with 0 by lia.
      * rewrite lookup_app_r by lia. by replace (_ - _) with 1 by lia.
    + simpl. split; [|intros _].
      * rewrite lookup_app_r by lia. by replace (_ - _) with 0 by lia.
      * rewrite lookup_app_r by lia. by replace (_ - _) with 1 by lia.
  - simpl. split; [|done].
    rewrite lookup_app_r by lia. by replace (_ - _) with 0 by lia.
Qed.

(** C9. With a token held, the search sends for every person it reaches
    (every person before being answered) the video request and, once that
    is answered, the photo request; both carry as phrase the name of the
    person, followed by [" PMCARC"] exactly when the PMCARC flag is set.
    Every request the search sends is such a request of a person of the
    shotlist, and replacing the shotlist by one with the same names and
    other search terms changes none of the requests sent. *)
Theorem outbound_phrase_is_name
    (provider : Request.t → Response.t) (st : App.t) (otherTerms : list Person.t) :
  Person.name <$> otherTerms = Person.name <$> App.shotlist st →
  let phrase (name : string) :=
    if App.usePMCARC st then name +:+ " PMCARC" else name in
  let sent := (handleSearchGetty provider st).1 in
  (∀ route name, phraseOf (searchRequest st route name) = Some (phrase name))
  ∧ Forall (λ req, ∃ person route,
        person ∈ App.shotlist st
        ∧ route ∈ ["/api/getty-videos"; "/api/getty-photos"]
        ∧ req = searchRequest st route (Person.name person)
        ∧ phraseOf req = Some (phrase (Person.name person)))
      sent
  ∧ (handleSearchGetty provider (App.setShotlist otherTerms st)).1 = sent
  ∧ (truthy (App.accessToken st) = true →
     ∀ served person rest,
       App.shotlist st = served ++ person :: rest →
       Forall (answered provider st) served →
       (∃ videoRequest,
          sent !! (2 * length served) = Some videoRequest
          ∧ Request.route videoRequest = "/api/getty-videos"
          ∧ Request.query videoRequest !! 0 = Some ("phrase", phrase (Person.name person))
          ∧ phraseOf videoRequest = Some (phrase (Person.name person)))
       ∧ (Response.ok (videosReply provider st (Person.name person)) = true →
          ∃ photoRequest,
            sent !! (2 * length served + 1) = Some photoRequest
            ∧ Request.route photoRequest = "/api/getty-photos"
            ∧ Request.query photoRequest !! 0 = Some ("phrase", phrase (Person.name person))
            ∧ phraseOf photoRequest = Some (phrase (Person.name person))))
  ∧ (truthy (App.accessToken st) = true →
     Forall (answered provider st) (App.shotlist st) →
     length sent = 2 * length (App.shotlist st)).
Proof.
  intros Hnames phrase sent. subst sent.
  assert (∀ route name, phraseOf (searchRequest st route name) = Some (phrase name))
    as Hphrase.
  { intros route name. unfold phraseOf, searchRequest, searchParams. simpl.
    by destruct (truthy (getActiveCollectionCodes (App.collections st))). }
  assert (∀ route name,
            Request.query (searchRequest st route name) !! 0 = Some ("phrase", phrase name))
    as Hfirst.
  { intros route name. unfold searchRequest, searchParams. simpl.
    by destruct (truthy (getActiveCollectionCodes (App.collections st))). }
  assert (truthy (App.accessToken st) = true →
          (handleSearchGetty provider st).1
          = (searchLoop provider st (App.shotlist st) [] []).1) as Hsent.
  { intros Htoken. rewrite (handleSearchGetty_run _ _ Htoken).
    by destruct (searchLoop provider st (App.shotlist st) [] []) as [sent [results|message]]. }
  split_and!; [done| | | |].
  - destruct (truthy (App.accessToken st)) eqn:Htoken.
    + rewrite (handleSearchGetty_run _ _ Htoken).
      destruct (searchLoop_sent provider st (App.shotlist st) [] []) as [n Hsent'].
      assert (Forall (λ req, ∃ person route,
                person ∈ App.shotlist st
                ∧ route ∈ ["/api/getty-videos"; "/api/getty-photos"]
                ∧ req = searchRequest st route (Person.name person)
                ∧ phraseOf req = Some (phrase (Person.name person)))
              (App.shotlist st ≫= requestsFor st)) as Hall.
      { apply Forall_forall. intros req (person & Hreq & Hperson)%list_elem_of_bind.
        unfold requestsFor in Hreq.
        apply elem_of_cons in Hreq as [->|[->|[]%elem_of_nil]%elem_of_cons].
        - exists person, "/api/getty-videos". split_and!; [done| |done|done].
          apply elem_of_cons. by left.
        - exists person, "/api/getty-photos". split_and!; [done| |done|done].
          apply elem_of_cons. right. apply elem_of_cons. by left. }
      destruct (searchLoop provider st (App.shotlist st) [] []) as [sent [results|message]];
        simpl in *; subst sent; by apply Forall_take.
    + unfold handleSearchGetty. rewrite Htoken. simpl. constructor.
  - unfold handleSearchGetty. simpl.
    destruct (truthy (App.accessToken st)) eqn:Htoken; simpl; [|done].
    rewrite !searchLoop_loading.
    pose proof (searchLoop_names provider st otherTerms (App.shotlist st) [] [] [] Hnames)
      as Hsame.
    rewrite searchLoop_setShotlist.
    destruct (searchLoop provider st otherTerms [] []) as [sent [results|message]];
      destruct (searchLoop provider st (App.shotlist st) [] [])
        as [sent' [results'|message']]; simpl in *; by subst.
  - intros Htoken served person rest Hshotlist Hserved.
    rewrite (Hsent Htoken), Hshotlist.
    destruct (searchLoop_next_requests provider st served person rest Hserved)
      as [Hvideo Hphoto].
    split.
    + eexists. split; [exact Hvideo|]. by split_and!.
    + intros Hok. eexists. split; [exact (Hphoto Hok)|]. by split_and!.
  - intros Htoken Hall. rewrite (Hsent Htoken), searchLoop_answered by done.
    simpl. apply length_requests.
Qed.

Lemma outbound_phrase_is_name_witness :
  (∃ videoRequest,
     (handleSearchGetty Sample.provider Sample.state).1 !! 0 = Some videoRequest
     ∧ Request.route videoRequest = "/api/getty-videos"
     ∧ phraseOf videoRequest = Some "Jane Doe PMCARC")
  ∧ (∃ photoRequest,
       (handleSearchGetty Sample.provider Sample.state).1 !! 3 = Some photoRequest
       ∧ Request.route photoRequest = "/api/getty-photos"
       ∧ phraseOf photoRequest = Some "John Roe PMCARC").
Proof.
  pose proof (outbound_phrase_is_name Sample.provider Sample.state
                [Person.mk "Jane Doe" ""; Person.mk "John Roe" ""]) as H.
  destruct H as (_ & _ & _ & Hsent & _).
  - vm_compute. reflexivity.
  - split.
    + destruct (Hsent eq_refl [] Sample.jane [Sample.john] eq_refl (Forall_nil_2 _))
        as [(videoRequest & Hlookup & Hroute & _ & Hphrase) _].
      by exists videoRequest.
    + assert (Forall (answered Sample.provider Sample.state) [Sample.jane]) as Hserved.
      { constructor; [by split|constructor]. }
      destruct (Hsent eq_refl [Sample.jane] Sample.john [] eq_refl Hserved)
        as [_ Hphoto].
      destruct (Hphoto eq_refl) as (photoRequest & Hlookup & Hroute & _ & Hphrase).
      by exists photoRequest.
Defined.

(** *** Normalization of provider records *)

Lemma renditionUri_first (record : GettyRecord.t) (name uri : string) :
  firstRendition record name uri → renditionUri record name = Some uri.
Proof.
  intros (sizes & before & size & after & Hsizes & -> & Hbefore & Hname & Huri).
  unfold renditionUri. rewrite Hsizes. simpl.
  rewrite list_find_app_r by by apply list_find_None.
  simpl. rewrite decide_True by done. simpl. by rewrite Huri.
Qed.

Lemma renditionUri_none (record : GettyRecord.t) (name : string) :
  noRendition record name → renditionUri record name = None.
Proof.
  unfold noRendition, renditionUri.
  destruct (GettyRecord.display_sizes record) as [sizes|]; [|done].
  intros Hnone. simpl. by rewrite (proj2 (list_find_None _ sizes) Hnone).
Qed.

Lemma orEmpty_Some (uri : string) : orEmpty (Some uri) = uri.
Proof. unfold orEmpty, jsOr, truthy. by case_bool_decide; subst. Qed.

Lemma jsOr_empty_l (b : option string) : jsOr (Some "") b = b.
Proof. done. Qed.

Lemma jsOr_Some_l (uri : string) (b : option string) :
  uri ≠ "" → jsOr (Some uri) b = Some uri.
Proof. intros Hne. unfold jsOr, truthy. by rewrite bool_decide_eq_false_2. Qed.

Lemma sample_record_comp : firstRendition Sample.record "comp" "".
Proof.
  exists [DisplaySize.mk "thumb" "t1"; DisplaySize.mk "comp" "";
          DisplaySize.mk "preview" "p1"],
    [DisplaySize.mk "thumb" "t1"], (DisplaySize.mk "comp" ""),
    [DisplaySize.mk "preview" "p1"].
  split_and!; try done. by apply Forall_singleton.
Qed.

(** C6, as stated, fails in one point: a comp rendition whose uri is the
    empty string is passed over by [||], and the preview uri is taken
    although a comp rendition exists. *)
Lemma comp_rendition_with_empty_uri :
  firstRendition Sample.record "comp" ""
  ∧ GettyMedia.compUrl (normalize Sample.record) = "p1"
  ∧ GettyMedia.compUrl (normalize Sample.record) ≠ "".
Proof. split_and!; [apply sample_record_comp|done|done]. Qed.

(** C6 (amended). Normalization takes the first 5 records in provider
    order and maps each to a media whose thumbnailUrl is the uri of the
    rendition named thumb and whose previewUrl is the uri of the rendition
    named preview, each the empty string when the record has no such
    rendition; compUrl is the uri of the rendition named comp when that uri
    is not empty, and equals previewUrl when the record has no comp
    rendition or its uri is empty. *)
Theorem topResults_normalizes (records : option (list GettyRecord.t)) :
  let provided := default [] records in
  topResults records = normalize <$> take 5 provided
  ∧ length (topResults records) = length provided `min` 5
  ∧ (∀ i, i < 5 → topResults records !! i = normalize <$> provided !! i)
  ∧ ∀ record,
      let media := normalize record in
      GettyMedia.id media = GettyRecord.id record
      ∧ GettyMedia.title media = GettyRecord.title record
      ∧ GettyMedia.dateCreated media = GettyRecord.date_created record
      ∧ (∀ uri, firstRendition record "thumb" uri → GettyMedia.thumbnailUrl media = uri)
      ∧ (noRendition record "thumb" → GettyMedia.thumbnailUrl media = "")
      ∧ (∀ uri, firstRendition record "preview" uri → GettyMedia.previewUrl media = uri)
      ∧ (noRendition record "preview" → GettyMedia.previewUrl media = "")
      ∧ (∀ uri, firstRendition record "comp" uri → uri ≠ "" →
           GettyMedia.compUrl media = uri)
      ∧ (firstRendition record "comp" "" ∨ noRendition record "comp" →
           GettyMedia.compUrl media = GettyMedia.previewUrl media).
Proof.
  intros provided.
  assert (topResults records = normalize <$> take 5 provided) as Heq.
  { subst provided. by destruct records as [[|record records]|]. }
  split_and!; [done| | |].
  - rewrite Heq, length_fmap, length_take. lia.
  - intros i Hi. by rewrite Heq, list_lookup_fmap, lookup_take_lt.
  - intros record media. subst media. simpl. split_and!; try done.
    + intros uri ->%renditionUri_first. apply orEmpty_Some.
    + by intros ->%renditionUri_none.
    + intros uri ->%renditionUri_first. apply orEmpty_Some.
    + by intros ->%renditionUri_none.
    + intros uri ->%renditionUri_first Hne. rewrite jsOr_Some_l by done.
      apply orEmpty_Some.
    + intros [->%renditionUri_first| ->%renditionUri_none]; done.
Qed.

Lemma topResults_normalizes_witness :
  GettyMedia.thumbnailUrl (normalize Sample.record) = "t1"
  ∧ GettyMedia.compUrl (normalize Sample.record)
    = GettyMedia.previewUrl (normalize Sample.record).
Proof.
  destruct (topResults_normalizes (Some [Sample.record])) as (_ & _ & _ & H).
  destruct (H Sample.record) as (_ & _ & _ & Hthumb & _ & _ & _ & _ & Hcomp).
  split.
  - apply Hthumb.
    exists [DisplaySize.mk "thumb" "t1"; DisplaySize.mk "comp" "";
            DisplaySize.mk "preview" "p1"],
      [], (DisplaySize.mk "thumb" "t1"),
      [DisplaySize.mk "comp" ""; DisplaySize.mk "preview" "p1"].
    split_and!; try reflexivity. apply Forall_nil_2.
  - apply Hcomp. left. apply sample_record_comp.
Defined.

(** ** Export compiler *)

Lemma string_append_assoc (s1 s2 s3 : string) :
  (s1 +:+ s2) +:+ s3 = s1 +:+ (s2 +:+ s3).
Proof.
  induction s1 as [|c s1 IH]; [done|].
  change (String c ((s1 +:+ s2) +:+ s3) = String c (s1 +:+ (s2 +:+ s3))).
  by rewrite IH.
Qed.

Lemma string_append_empty_r (s : string) : s +:+ "" = s.
Proof.
  induction s as [|c s IH]; [done|].
  change (String c (s +:+ "") = String c s). by rewrite IH.
Qed.

Lemma findById_is_Some (mediaId : string) (items : list GettyMedia.t) :
  is_Some (findById mediaId items) ↔ mediaId ∈ GettyMedia.id <$> items.
Proof.
  unfold findById. rewrite fmap_is_Some. split.
  - intros [[i m] (Hm%list_elem_of_lookup_2 & <- & _)%list_find_Some].
    by apply list_elem_of_fmap_2.
  - intros (m & -> & Hm)%list_elem_of_fmap.
    by apply (list_find_elem_of _ items m).
Qed.

(** The lookup of the compiler succeeds exactly on the Selections that
    resolve; it fails on a missing result set and on an id that the array
    of the Selection's kind does not hold. *)
Lemma resolveSelection_is_Some (gettyResults : list PersonGettyResults.t)
    (item : SelectedItem.t) :
  is_Some (resolveSelection gettyResults item) ↔ resolves gettyResults item.
Proof.
  unfold resolveSelection, resolves.
  destruct (gettyResults !! SelectedItem.personIndex item) as [result|]; simpl.
  - destruct (SelectedItem.mediaType item); simpl; rewrite findById_is_Some.
    + split; [by exists result|by intros (? & [= <-] & ?)].
    + split; [by exists result|by intros (? & [= <-] & ?)].
  - split; [by intros []|by intros (? & ? & _)].
Qed.

Section ExportFacts.

Variable toLocaleDateString : string → string.

Implicit Types (gettyResults : list PersonGettyResults.t)
  (selectedItems : list SelectedItem.t).

Lemma findById_elem_of (mediaId : string) (items : list GettyMedia.t) (media : GettyMedia.t) :
  findById mediaId items = Some media → media ∈ items.
Proof.
  unfold findById. intros ([i m] & Hfind & ->)%fmap_Some.
  apply list_find_Some in Hfind as (Hm & _). by apply list_elem_of_lookup_2 in Hm.
Qed.

(** A media the compiler finds is a media of a stored result set. *)
Lemma resolveSelection_elem_of gettyResults (item : SelectedItem.t) (media : GettyMedia.t) :
  resolveSelection gettyResults item = Some media →
  ∃ result, result ∈ gettyResults
    ∧ media ∈ PersonGettyResults.videos result ++ PersonGettyResults.photos result.
Proof.
  unfold resolveSelection.
  destruct (gettyResults !! SelectedItem.personIndex item) as [result|] eqn:Hresult; [|done].
  simpl. intros Hfind. exists result. split; [by apply list_elem_of_lookup_2 in Hresult|].
  apply elem_of_app.
  destruct (SelectedItem.mediaType item); apply findById_elem_of in Hfind; auto.
Qed.

Lemma titledResults_untitled gettyResults (item : SelectedItem.t) :
  titledResults gettyResults → ¬ untitled gettyResults item.
Proof.
  intros Htitled (media & (result & Hresult & Hmedia)%resolveSelection_elem_of & Hnone).
  unfold titledResults in Htitled. rewrite Forall_forall in Htitled.
  specialize (Htitled result Hresult). rewrite Forall_forall in Htitled.
  destruct (Htitled media Hmedia) as [title Htitle]. congruence.
Qed.

Lemma csvRow_Some (item : SelectedItem.t) (media : GettyMedia.t) (row : string) :
  csvRow toLocaleDateString item media = Some row →
  ∃ title,
    GettyMedia.title media = Some title
    ∧ row = SelectedItem.personName item +:+ "," +:+ GettyMedia.id media +:+ ","
            +:+ mediaTypeString (SelectedItem.mediaType item) +:+ ","
            +:+ (String DQUOTE (escapeQuotes title) +:+ String DQUOTE EmptyString) +:+ ","
            +:+ toLocaleDateString (GettyMedia.dateCreated media) +:+ ","
            +:+ GettyMedia.compUrl media +:+ LF.
Proof.
  unfold csvRow. destruct (GettyMedia.title media) as [title|]; [|done].
  intros [= <-]. by exists title.
Qed.

Lemma foldl_appendRow_None gettyResults selectedItems :
  foldl (appendRow toLocaleDateString gettyResults) None selectedItems = None.
Proof. induction selectedItems as [|item selectedItems IH]; [done|]. simpl. apply IH. Qed.

Lemma foldl_appendRow gettyResults selectedItems (csvText : string) :
  Forall (λ item, ¬ untitled gettyResults item) selectedItems →
  foldl (appendRow toLocaleDateString gettyResults) (Some csvText) selectedItems
  = Some (csvText
          +:+ foldr String.append "" (exportRows toLocaleDateString gettyResults selectedItems)).
Proof.
  intros Htitled. revert csvText.
  induction Htitled as [|item selectedItems Hitem _ IH]; intros csvText.
  - simpl. by rewrite string_append_empty_r.
  - unfold exportRows. cbn [foldl omap list_omap]. unfold appendRow at 2. csimpl.
    destruct (resolveSelection gettyResults item) as [media|] eqn:Hresolve; csimpl.
    + unfold csvRow at 1 2.
      destruct (GettyMedia.title media) as [title|] eqn:Htitle; csimpl.
      * rewrite IH. unfold exportRows. by rewrite string_append_assoc.
      * destruct Hitem. by exists media.
    + by rewrite IH.
Qed.

Lemma foldl_appendRow_untitled gettyResults selectedItems (csvText : string) :
  Exists (untitled gettyResults) selectedItems →
  foldl (appendRow toLocaleDateString gettyResults) (Some csvText) selectedItems = None.
Proof.
  intros Huntitled. revert csvText.
  induction Huntitled as [item selectedItems (media & Hresolve & Hnone)
                         |item selectedItems _ IH]; intros csvText.
  - cbn [foldl]. unfold appendRow at 2. csimpl. rewrite Hresolve. unfold csvRow.
    rewrite Hnone. csimpl. apply foldl_appendRow_None.
  - cbn [foldl].
    destruct (appendRow toLocaleDateString gettyResults (Some csvText) item) as [text|].
    + apply IH.
    + apply foldl_appendRow_None.
Qed.

Lemma exportRows_resolving gettyResults selectedItems :
  Forall (λ item, ¬ untitled gettyResults item) selectedItems →
  Forall2 (λ row item, ∃ media,
             resolveSelection gettyResults item = Some media
             ∧ csvRow toLocaleDateString item media = Some row)
    (exportRows toLocaleDateString gettyResults selectedItems)
    (filter (λ item, is_Some (resolveSelection gettyResults item)) selectedItems).
Proof.
  unfold exportRows. induction 1 as [|item selectedItems Hitem _ IH]; [constructor|].
  destruct (resolveSelection gettyResults item) as [media|] eqn:Hresolve.
  - rewrite filter_cons_True by (by rewrite Hresolve).
    csimpl. rewrite Hresolve. csimpl.
    destruct (csvRow toLocaleDateString item media) as [row|] eqn:Hrow.
    + constructor; [by exists media|done].
    + destruct Hitem. exists media. split; [done|].
      unfold csvRow in Hrow. by destruct (GettyMedia.title media).
  - rewrite filter_cons_False by (rewrite Hresolve; by intros []).
    csimpl. by rewrite Hresolve.
Qed.

Lemma length_exportRows gettyResults selectedItems :
  Forall (λ item, ¬ untitled gettyResults item) selectedItems →
  length (exportRows toLocaleDateString gettyResults selectedItems)
  = length (filter (λ item, is_Some (resolveSelection gettyResults item)) selectedItems).
Proof. intros Htitled. by eapply Forall2_length, exportRows_resolving. Qed.

Lemma occurrences_app (c : ascii) (s1 s2 : string) :
  occurrences c (s1 +:+ s2) = occurrences c s1 + occurrences c s2.
Proof.
  induction s1 as [|d s1 IH]; [done|].
  change (String d s1 +:+ s2) with (String d (s1 +:+ s2)).
  cbn [occurrences]. rewrite IH. lia.
Qed.

(** Every data row is a line: it is not empty and ends with the line feed. *)
Lemma exportRows_lines gettyResults selectedItems :
  Forall (λ row, ∃ line, line ≠ "" ∧ row = line +:+ LF)
    (exportRows toLocaleDateString gettyResults selectedItems).
Proof.
  apply Forall_forall. intros row (item & _ & Hrow)%list_elem_of_omap.
  destruct (resolveSelection gettyResults item) as [media|]; [|done]. csimpl in Hrow.
  apply csvRow_Some in Hrow as (title & _ & ->).
  exists (SelectedItem.personName item +:+ "," +:+ GettyMedia.id media +:+ ","
          +:+ mediaTypeString (SelectedItem.mediaType item) +:+ ","
          +:+ (String DQUOTE (escapeQuotes title) +:+ String DQUOTE EmptyString) +:+ ","
          +:+ toLocaleDateString (GettyMedia.dateCreated media) +:+ ","
          +:+ GettyMedia.compUrl media).
  split.
  - intros Hempty. apply (f_equal (occurrences ","%char)) in Hempty.
    rewrite !occurrences_app in Hempty.
    change (occurrences ","%char ",") with 1 in Hempty.
    change (occurrences ","%char "") with 0 in Hempty. lia.
  - by rewrite !string_append_assoc.
Qed.

Lemma occurrences_escapeQuotes (c : ascii) (s : string) :
  c ≠ DQUOTE → occurrences c (escapeQuotes s) = occurrences c s.
Proof.
  intros Hc. induction s as [|d s IH]; [done|].
  cbn [escapeQuotes]. destruct (decide (d = DQUOTE)) as [->|Hd]; cbn [occurrences].
  - rewrite IH. by rewrite !(decide_False (P:=DQUOTE = c)) by done.
  - by rewrite IH.
Qed.

Lemma lineCount_csvRow gettyResults (item : SelectedItem.t) (media : GettyMedia.t)
    (row : string) :
  resolveSelection gettyResults item = Some media →
  singleLineFields toLocaleDateString gettyResults item →
  csvRow toLocaleDateString item media = Some row →
  lineCount row = 1.
Proof.
  unfold singleLineFields. intros -> (Hname & Hid & Htitle & Hdate & Hurl).
  intros (title & Hsome & ->)%csvRow_Some. rewrite Hsome in Htitle. simpl in Htitle.
  unfold lineCount in *. rewrite !occurrences_app, Hname, Hid, Hdate, Hurl.
  change (occurrences NEWLINE (String DQUOTE (escapeQuotes title)))
    with (0 + occurrences NEWLINE (escapeQuotes title)).
  rewrite occurrences_escapeQuotes, Htitle by done.
  by destruct (SelectedItem.mediaType item).
Qed.

Lemma lineCount_exportRows gettyResults selectedItems :
  Forall (singleLineFields toLocaleDateString gettyResults) selectedItems →
  lineCount (foldr String.append "" (exportRows toLocaleDateString gettyResults selectedItems))
  = length (exportRows toLocaleDateString gettyResults selectedItems).
Proof.
  unfold exportRows. induction 1 as [|item selectedItems Hitem _ IH]; [done|].
  csimpl. destruct (resolveSelection gettyResults item) as [media|] eqn:Hresolve; [|done].
  csimpl. destruct (csvRow toLocaleDateString item media) as [row|] eqn:Hrow; [|done].
  pose proof (lineCount_csvRow gettyResults item media row Hresolve Hitem Hrow) as Hline.
  cbn [foldr length]. unfold lineCount in *. by rewrite occurrences_app, IH, Hline.
Qed.

End ExportFacts.

(** A provider record without a title is normalized to a media without a
    title; the only Selection of the sample state is that media, and the
    export of that state throws although the ledger is not empty. *)
Lemma export_throws_on_missing_title :
  GettyMedia.title (normalize Sample.untitledRecord) = None
  ∧ App.selectedItems Sample.untitledState ≠ []
  ∧ Forall (resolves (App.gettyResults Sample.untitledState))
      (App.selectedItems Sample.untitledState)
  ∧ compileExport (λ date, date) (App.selectedItems Sample.untitledState)
      (App.gettyResults Sample.untitledState) = TitleTypeError
  ∧ handleCompileExport (λ date, date) Sample.untitledState = Sample.untitledState.
Proof.
  split_and!; [done|done| |done|done].
  apply Forall_forall. intros item Hitem. apply resolveSelection_is_Some.
  apply list_elem_of_singleton in Hitem as ->. by eexists.
Qed.

(** C4. The export compiler fails, with the message about an empty
    selection and without producing text, exactly when there is no
    Selection. For a non-empty ledger it throws, leaving the state as it
    was, exactly when some Selection resolves to a media whose title is no
    string. Otherwise it produces the header followed by one data row per
    Selection that resolves in the result set of its person, in ledger
    order: every data row is a non-empty line ended by a line feed, a
    Selection that does not resolve adds no row, the number of data rows is
    the number of resolving Selections, and when no field holds a line
    feed the text has that many lines after the header line. *)
Theorem export_row_count
    (toLocaleDateString : string → string) (st : App.t) :
  let selectedItems := App.selectedItems st in
  let gettyResults := App.gettyResults st in
  let outcome := compileExport toLocaleDateString selectedItems gettyResults in
  let rows := exportRows toLocaleDateString gettyResults selectedItems in
  let resolving :=
    filter (λ item, is_Some (resolveSelection gettyResults item)) selectedItems in
  ((∃ message, outcome = ExportError message) ↔ selectedItems = [])
  ∧ (selectedItems = [] →
       handleCompileExport toLocaleDateString st
       = App.setError "No items selected. Please select videos or photos to export." st)
  ∧ (outcome = TitleTypeError ↔
     selectedItems ≠ [] ∧ Exists (untitled gettyResults) selectedItems)
  ∧ (outcome = TitleTypeError → handleCompileExport toLocaleDateString st = st)
  ∧ (selectedItems ≠ [] →
     Forall (λ item, ¬ untitled gettyResults item) selectedItems →
       outcome = Exported (csvHeader +:+ foldr String.append "" rows)
       ∧ handleCompileExport toLocaleDateString st
         = App.setCurrentStep 5
             (App.setExportText (csvHeader +:+ foldr String.append "" rows) st)
       ∧ length rows = length resolving
       ∧ Forall2 (λ row item, ∃ media,
                    resolveSelection gettyResults item = Some media
                    ∧ csvRow toLocaleDateString item media = Some row)
           rows resolving
       ∧ Forall (λ row, ∃ line, line ≠ "" ∧ row = line +:+ LF) rows
       ∧ (Forall (singleLineFields toLocaleDateString gettyResults) selectedItems →
          lineCount (csvHeader +:+ foldr String.append "" rows) = 1 + length resolving))
  ∧ (∀ item, is_Some (resolveSelection gettyResults item) ↔ resolves gettyResults item).
Proof.
  intros selectedItems gettyResults outcome rows resolving.
  subst outcome rows resolving. unfold handleCompileExport, compileExport.
  fold selectedItems gettyResults.
  destruct (decide (Exists (untitled gettyResults) selectedItems)) as [Huntitled|Htitled].
  - assert (selectedItems ≠ []) as Hne by (intros Hnil; rewrite Hnil in Huntitled; inversion Huntitled).
    rewrite (foldl_appendRow_untitled _ _ _ _ Huntitled).
    destruct selectedItems as [|item items] eqn:Hitems; [done|]. cbn [length Nat.eqb].
    split_and!; try done.
    + split; [by intros [? ?]|done].
    + intros _ Hall. exfalso. apply Exists_exists in Huntitled as (bad & Hin & Hbad).
      rewrite Forall_forall in Hall. by apply (Hall bad).
    + apply resolveSelection_is_Some.
  - apply not_Exists_Forall in Htitled; [|apply _].
    assert (Forall (λ item, ¬ untitled gettyResults item) selectedItems) as Hall.
    { eapply Forall_impl; [exact Htitled|]. done. }
    rewrite (foldl_appendRow _ _ _ _ Hall).
    destruct selectedItems as [|item items] eqn:Hitems.
    + cbn [length Nat.eqb]. split_and!; try done.
      * split; [done|by eexists].
      * split; [done|by intros [? _]].
      * apply resolveSelection_is_Some.
    + cbn [length Nat.eqb]. split_and!; try done.
      * split; [by intros [? ?]|done].
      * split; [done|]. intros [_ Hbad]. exfalso.
        apply Exists_exists in Hbad as (bad & Hin & Hbad).
        rewrite Forall_forall in Hall. by apply (Hall bad).
      * intros _ _. split_and!; try done.
        -- by apply length_exportRows.
        -- by apply exportRows_resolving.
        -- apply exportRows_lines.
        -- intros Hlines. unfold lineCount. rewrite occurrences_app.
           fold (lineCount (foldr String.append ""
                   (exportRows toLocaleDateString gettyResults (item :: items)))).
           rewrite (lineCount_exportRows _ _ _ Hlines), (length_exportRows _ _ _ Hall).
           done.
      * apply resolveSelection_is_Some.
Qed.

Lemma export_row_count_witness :
  compileExport (λ date, date) (App.selectedItems Sample.exportState)
    (App.gettyResults Sample.exportState)
  = Exported (csvHeader +:+ foldr String.append ""
      (exportRows (λ date, date) Sample.results
         [Sample.clipSelection; Sample.staleSelection; Sample.stillSelection]))
  ∧ lineCount (csvHeader +:+ foldr String.append ""
      (exportRows (λ date, date) Sample.results
         [Sample.clipSelection; Sample.staleSelection; Sample.stillSelection])) = 1 + 2.
Proof.
  destruct (export_row_count (λ date, date) Sample.exportState)
    as (_ & _ & _ & _ & Hrows & _).
  destruct Hrows as (Houtcome & _ & _ & _ & _ & Hlines).
  - vm_compute. discriminate.
  - apply (bool_decide_unpack _). vm_compute. exact I.
  - split; [exact Houtcome|]. apply Hlines.
    apply (bool_decide_unpack _). vm_compute. exact I.
Defined.

(** The stale Selection of the sample adds no row: two rows for three
    Selections. *)
Lemma export_skips_stale_selection :
  length (exportRows (λ date, date) Sample.results
            [Sample.clipSelection; Sample.staleSelection; Sample.stillSelection]) = 2.
Proof. reflexivity. Qed.

(** ** Bundle packager *)

Section PackagerFacts.

Variable fetchBlob : string → option string.

Implicit Types (acc : gmap string string * list string)
  (pairs : list (string * SelectedItem.t)) (selectedItems : list SelectedItem.t).

(** The inner loop body on a (key, item) pair. *)
Local Abbreviation packPair :=
  (λ (acc : gmap string string * list string) (pair : string * SelectedItem.t),
     packItem fetchBlob pair.1 acc pair.2).

Local Abbreviation rejected :=
  (λ pair : string * SelectedItem.t,
     fetchBlob (SelectedItem.compUrl pair.2) = None).

Lemma packGroups_fold (groups : list (string * list SelectedItem.t)) acc :
  foldl (λ acc group, foldl (packItem fetchBlob group.1) acc group.2) acc groups
  = foldl packPair acc (groupedItems groups).
Proof.
  revert acc. induction groups as [|[key items] groups IH]; intros acc; [done|].
  unfold groupedItems. rewrite bind_cons, foldl_app. simpl.
  rewrite foldl_fmap. simpl. apply IH.
Qed.

(** The archive holds a path exactly when it held it before or a visited
    item with that path was fetched. *)
Lemma packPairs_zip pairs acc (path : string) :
  is_Some ((foldl packPair acc pairs).1 !! path) ↔
  is_Some (acc.1 !! path)
  ∨ ∃ pair, pair ∈ pairs
      ∧ is_Some (fetchBlob (SelectedItem.compUrl pair.2))
      ∧ path = zipPath pair.1 pair.2.
Proof.
  revert acc. induction pairs as [|pair pairs IH]; intros acc.
  - simpl. split; [by left|]. intros [?|(? & []%elem_of_nil & _)]. done.
  - simpl. rewrite IH. unfold packItem.
    destruct (fetchBlob (SelectedItem.compUrl pair.2)) as [blob|] eqn:Hfetch; simpl.
    + rewrite lookup_insert_is_Some'. split.
      * intros [[<-|?]|(other & ? & ? & ?)].
        -- right. exists pair. split_and!; [apply elem_of_cons; by left| |done].
           by rewrite Hfetch.
        -- by left.
        -- right. exists other. split_and!; [apply elem_of_cons; by right|done..].
      * intros [?|(other & [->|?]%elem_of_cons & ? & ?)].
        -- left. by right.
        -- left. by left.
        -- right. by exists other.
    + split.
      * intros [?|(other & ? & ? & ?)]; [by left|].
        right. exists other. split_and!; [apply elem_of_cons; by right|done..].
      * intros [?|(other & [->|?]%elem_of_cons & Hsome & ?)]; [by left| |].
        -- rewrite Hfetch in Hsome. by destruct Hsome.
        -- right. by exists other.
Qed.

(** The log grows by one line per visited item whose fetch rejects. *)
Lemma packPairs_log pairs acc :
  (foldl packPair acc pairs).2
  = acc.2 ++ ((λ pair, failureLine pair.2) <$> filter rejected pairs).
Proof.
  revert acc. induction pairs as [|pair pairs IH]; intros acc.
  - simpl. by rewrite app_nil_r.
  - simpl. rewrite IH. unfold packItem.
    destruct (fetchBlob (SelectedItem.compUrl pair.2)) as [blob|] eqn:Hfetch; simpl.
    + rewrite filter_cons_False; [done|]. simpl. by rewrite Hfetch.
    + rewrite filter_cons_True by done. simpl. by rewrite <- app_assoc.
Qed.

(** Grouping loses no Selection and adds none: the visited pairs are the
    Selections, each under its own person name. *)
Lemma pushGroup_grouped (personName : string) (item : SelectedItem.t)
    (groups : list (string * list SelectedItem.t)) :
  groupedItems (pushGroup personName item groups)
  ≡ₚ groupedItems groups ++ [(personName, item)].
Proof.
  unfold groupedItems. induction groups as [|[key items] groups IH]; [done|].
  simpl. case_decide as Hkey.
  - subst key. rewrite !bind_cons. simpl. rewrite fmap_app. simpl.
    rewrite <- !app_assoc. apply Permutation_app_head, Permutation_app_comm.
  - rewrite !bind_cons, IH. simpl. by rewrite app_assoc.
Qed.

Lemma groupByPerson_grouped selectedItems :
  Forall (λ item, SelectedItem.personName item ∉ inheritedKeys) selectedItems →
  ∃ groups,
    groupByPerson selectedItems = Some groups
    ∧ groupedItems groups
      ≡ₚ (λ item, (SelectedItem.personName item, item)) <$> selectedItems.
Proof.
  unfold groupByPerson.
  induction selectedItems as [|item selectedItems IH] using rev_ind; intros Hown.
  - by exists [].
  - apply Forall_app in Hown as [Hitems Hitem%Forall_inv].
    destruct (IH Hitems) as (groups & Hgroups & Hperm).
    exists (pushGroup (SelectedItem.personName item) item groups).
    rewrite foldl_snoc, Hgroups. csimpl.
    rewrite bool_decide_eq_false_2 by done. split; [done|].
    by rewrite pushGroup_grouped, Hperm, fmap_app.
Qed.

(** A person name that the grouping object inherits makes the grouping
    throw. *)
Lemma groupByPerson_inherited selectedItems :
  Exists (λ item, SelectedItem.personName item ∈ inheritedKeys) selectedItems →
  groupByPerson selectedItems = None.
Proof.
  unfold groupByPerson.
  induction selectedItems as [|item selectedItems IH] using rev_ind.
  - by intros ?%Exists_nil.
  - rewrite foldl_snoc. intros [Hitems|Hitem%Exists_cons]%Exists_app.
    + by rewrite (IH Hitems).
    + destruct Hitem as [Hitem|[]%Exists_nil].
      destruct (foldl _ _ selectedItems); csimpl; [|done].
      by rewrite bool_decide_eq_true_2.
Qed.

(** [Object.entries] lists every entry once. *)
Lemma objectEntries_Permutation {V} (object : list (string * V)) :
  objectEntries object ≡ₚ object.
Proof.
  unfold objectEntries. rewrite merge_sort_Permutation.
  induction object as [|entry object IH]; [done|].
  csimpl. destruct (arrayIndex entry.1) as [n|] eqn:Hindex; csimpl.
  - rewrite filter_cons_False by (by rewrite Hindex). by rewrite IH.
  - rewrite filter_cons_True by done. by rewrite <- Permutation_middle, IH.
Qed.

Lemma groupedItems_objectEntries (groups : list (string * list SelectedItem.t)) :
  groupedItems (objectEntries groups) ≡ₚ groupedItems groups.
Proof. unfold groupedItems. by rewrite objectEntries_Permutation. Qed.

Lemma filter_rejected_pairs selectedItems :
  (λ pair : string * SelectedItem.t, failureLine pair.2)
    <$> filter rejected
          ((λ item, (SelectedItem.personName item, item)) <$> selectedItems)
  = failureLine
    <$> filter (λ item, fetchBlob (SelectedItem.compUrl item) = None) selectedItems.
Proof.
  induction selectedItems as [|item selectedItems IH]; [done|].
  csimpl. rewrite !filter_cons. simpl.
  destruct (decide (fetchBlob (SelectedItem.compUrl item) = None)); csimpl;
    by rewrite IH.
Qed.

End PackagerFacts.

(** C7, as stated, fails in its second half: when every fetch rejects, the
    packager still generates and saves an archive, which is empty, and sets
    no error. *)
Lemma empty_archive_is_saved :
  let st := App.setSelectedItems [Sample.clipSelection] Sample.state in
  downloadSelectedAsZip Sample.offline st
  = (App.setIsDownloading false (App.setError "" st),
     Saved ∅ ["Failed to download 1.mp4:"])
  ∧ App.error (downloadSelectedAsZip Sample.offline st).1 = "".
Proof. split; reflexivity. Qed.

(** C7 (amended). With at least one Selection (and person names that are
    own keys of the grouping object), the packager visits every Selection;
    an item whose fetch rejects adds one line to the error log and no entry
    to the archive, every item whose fetch succeeds is stored under its
    path, and the archive is saved with the error field cleared, however
    many fetches rejected (an archive without entries is saved like any
    other). Without any Selection the packager alerts and builds no
    archive. The only error it surfaces is the one thrown by the grouping
    for a person name that the grouping object inherits. *)
Theorem package_partial_success
    (fetchBlob : string → option string) (st : App.t) :
  (App.selectedItems st = [] →
     downloadSelectedAsZip fetchBlob st = (st, Alerted "No items selected"))
  ∧ (App.selectedItems st ≠ [] →
     Forall (λ item, SelectedItem.personName item ∉ inheritedKeys)
       (App.selectedItems st) →
     ∃ zip errorLog,
       downloadSelectedAsZip fetchBlob st
       = (App.setIsDownloading false (App.setError "" st), Saved zip errorLog)
       ∧ (∀ path, is_Some (zip !! path) ↔
            ∃ item, item ∈ App.selectedItems st
              ∧ is_Some (fetchBlob (SelectedItem.compUrl item))
              ∧ path = zipPath (SelectedItem.personName item) item)
       ∧ errorLog
         ≡ₚ failureLine
            <$> filter (λ item, fetchBlob (SelectedItem.compUrl item) = None)
                  (App.selectedItems st))
  ∧ (Exists (λ item, SelectedItem.personName item ∈ inheritedKeys)
       (App.selectedItems st) →
     downloadSelectedAsZip fetchBlob st
     = (App.setIsDownloading false (App.setError pushError st), Failed pushError)).
Proof.
  split_and!.
  - intros Hnil. unfold downloadSelectedAsZip. by rewrite Hnil.
  - intros Hsome Hown. unfold downloadSelectedAsZip.
    destruct (App.selectedItems st) as [|first others] eqn:Hitems; [done|].
    remember (first :: others) as selectedItems. clear Hsome.
    replace (length selectedItems =? 0)%nat with false by (by subst).
    simpl. rewrite Hitems.
    destruct (groupByPerson_grouped selectedItems Hown) as (groups & -> & Hgroups).
    unfold packGroups. rewrite packGroups_fold.
    destruct (foldl _ _ (groupedItems (objectEntries groups)))
      as [zip errorLog] eqn:Hfold.
    exists zip, errorLog. split_and!; [done| |].
    + intros path.
      pose proof (packPairs_zip fetchBlob (groupedItems (objectEntries groups))
                    (∅, []) path) as Hzip.
      rewrite Hfold in Hzip. simpl in Hzip. rewrite Hzip, lookup_empty. split.
      * intros [[]%is_Some_None|([key item] & Hin & Hfetched & ->)].
        rewrite groupedItems_objectEntries, Hgroups in Hin.
        apply list_elem_of_fmap in Hin as (item' & [= -> ->] & Hin).
        by exists item'.
      * intros (item & Hin & Hfetched & ->). right.
        exists (SelectedItem.personName item, item). split_and!; [|done..].
        rewrite groupedItems_objectEntries, Hgroups.
        by apply list_elem_of_fmap_2' with item.
    + pose proof (packPairs_log fetchBlob (groupedItems (objectEntries groups))
                    (∅, [])) as Hlog.
      rewrite Hfold in Hlog. simpl in Hlog. rewrite Hlog.
      rewrite groupedItems_objectEntries, Hgroups. by rewrite filter_rejected_pairs.
  - intros Hinherited. unfold downloadSelectedAsZip.
    destruct (App.selectedItems st) as [|first others] eqn:Hitems;
      [by apply Exists_nil in Hinherited|].
    simpl. rewrite Hitems. by rewrite (groupByPerson_inherited _ Hinherited).
Qed.

Lemma package_partial_success_witness :
  ∃ zip errorLog,
    (downloadSelectedAsZip Sample.photosOnly Sample.exportState).2 = Saved zip errorLog.
Proof.
  destruct (package_partial_success Sample.photosOnly Sample.exportState) as (_ & H & _).
  destruct H as (zip & errorLog & Hrun & _).
  - vm_compute. discriminate.
  - apply (bool_decide_unpack _). vm_compute. exact I.
  - exists zip, errorLog. by rewrite Hrun.
Defined.

(** The scenario of the specification: the fetch of the video rejects, the
    archive holds the photo of the same person, and the failure is in the
    log. *)
Lemma package_keeps_fetched_photo :
  let st := App.setSelectedItems [Sample.clipSelection; Sample.stillSelection]
              Sample.state in
  (downloadSelectedAsZip Sample.photosOnly st).2
  = Saved {[ "Jane Doe/photos/2.jpg" := "bytes of c2" ]} ["Failed to download 1.mp4:"].
Proof. reflexivity. Qed.

(** Keys that are array indices are visited first, in numeric order. *)
Lemma objectEntries_order :
  objectEntries [("Jane Doe", 1); ("10", 2); ("9", 3); ("007", 4)]
  = [("9", 3); ("10", 2); ("Jane Doe", 1); ("007", 4)].
Proof. reflexivity. Qed.

(** ** Reset *)

(** C10. The reset clears the script, the shotlist, the result sets, the
    export text, the selection ledger and the error, and returns the step
    to 1; the five collection toggles, the PMCARC flag and the held access
    token (as well as the modal and the two busy flags) are left as they
    were. *)
Theorem handleClear_frame (st : App.t) :
  let after := handleClear st in
  App.script after = ""
  ∧ App.shotlist after = []
  ∧ App.gettyResults after = []
  ∧ App.exportText after = ""
  ∧ App.selectedItems after = []
  ∧ App.error after = ""
  ∧ App.currentStep after = 1
  ∧ App.collections after = App.collections st
  ∧ App.usePMCARC after = App.usePMCARC st
  ∧ App.accessToken after = App.accessToken st
  ∧ App.modal after = App.modal st
  ∧ App.isLoading after = App.isLoading st
  ∧ App.isDownloading after = App.isDownloading st.
Proof. intros after. subst after. unfold handleClear. by split_and!. Qed.

(** * Further properties of the handlers *)

(** ** Selection ledger: membership, bulk selection, global operations *)

Lemma isSelected_true (ledger : list SelectedItem.t) (personIndex : nat) (mediaId : string) :
  isSelected ledger personIndex mediaId = true ↔
  Exists (samePair personIndex mediaId) ledger.
Proof. unfold isSelected. apply bool_decide_eq_true. Qed.

Lemma isSelected_app (l k : list SelectedItem.t) (personIndex : nat) (mediaId : string) :
  isSelected (l ++ k) personIndex mediaId
  = isSelected l personIndex mediaId || isSelected k personIndex mediaId.
Proof.
  unfold isSelected. apply eq_true_iff_eq.
  rewrite orb_true_iff, !bool_decide_eq_true. apply Exists_app.
Qed.

(** X1. Under the invariant, a toggle flips the checkbox of its own pair:
    the pair is selected afterwards exactly when it was not before. *)
Theorem toggle_flips_isSelected
    (personIndex : nat) (personName : string) (media : GettyMedia.t)
    (type : MediaType) (prev : list SelectedItem.t) :
  uniquePairs prev →
  isSelected (toggleSelection personIndex personName media type prev)
    personIndex (GettyMedia.id media)
  = negb (isSelected prev personIndex (GettyMedia.id media)).
Proof.
  intros Huniq.
  destruct (list_find (samePair personIndex (GettyMedia.id media)) prev)
    as [[k item]|] eqn:Hfind.
  - rewrite (toggleSelection_selected _ _ _ _ _ k item Hfind).
    rewrite (proj2 (isSelected_false _ _ _))
      by by eapply uniquePairs_delete_find.
    symmetry. apply negb_false_iff, isSelected_true.
    apply list_find_Some in Hfind as (Hk%list_elem_of_lookup_2 & Hpair & _).
    apply Exists_exists. by exists item.
  - rewrite (toggleSelection_unselected _ _ _ _ _ Hfind), isSelected_app.
    rewrite (proj2 (isSelected_false _ _ _) Hfind). cbn [orb negb].
    apply isSelected_true, Exists_cons_hd, newSelection_samePair.
Qed.

Lemma toggle_flips_isSelected_witness :
  isSelected (toggleSelection 0 "Jane Doe" Sample.clip video
                [Sample.clipSelection; Sample.stillSelection]) 0 "1" = false.
Proof.
  apply (toggle_flips_isSelected 0 "Jane Doe" Sample.clip video
           [Sample.clipSelection; Sample.stillSelection]).
  apply (bool_decide_unpack _). vm_compute. exact I.
Defined.

(** X2. A toggle changes the checkbox of no other pair, whatever the
    ledger holds. *)
Theorem toggle_keeps_other_pairs
    (personIndex : nat) (personName : string) (media : GettyMedia.t)
    (type : MediaType) (prev : list SelectedItem.t)
    (otherIndex : nat) (otherId : string) :
  (otherIndex, otherId) ≠ (personIndex, GettyMedia.id media) →
  isSelected (toggleSelection personIndex personName media type prev) otherIndex otherId
  = isSelected prev otherIndex otherId.
Proof.
  intros Hother.
  destruct (list_find (samePair personIndex (GettyMedia.id media)) prev)
    as [[k item]|] eqn:Hfind.
  - rewrite (toggleSelection_selected _ _ _ _ _ k item Hfind).
    apply list_find_Some in Hfind as (Hk & [Hi Hm] & _).
    unfold isSelected. apply bool_decide_ext. rewrite !Exists_exists. split.
    + intros (x & Hx & HP). exists x. split; [|done].
      rewrite (delete_Permutation prev k item Hk). apply elem_of_cons. by right.
    + intros (x & Hx & [Hi' Hm']). exists x. split; [|done].
      rewrite (delete_Permutation prev k item Hk) in Hx.
      apply elem_of_cons in Hx as [->|Hx]; [|done]. destruct Hother. congruence.
  - rewrite (toggleSelection_unselected _ _ _ _ _ Hfind), isSelected_app.
    replace (isSelected [newSelection personIndex personName media type] otherIndex otherId)
      with false; [apply orb_false_r|].
    symmetry. apply bool_decide_eq_false. rewrite Exists_cons, Exists_nil.
    intros [[Hi Hm]|[]]. simpl in Hi, Hm. destruct Hother. congruence.
Qed.

Lemma toggle_keeps_other_pairs_witness :
  isSelected (toggleSelection 0 "Jane Doe" Sample.clip video
                [Sample.clipSelection; Sample.stillSelection]) 0 "2" = true.
Proof.
  rewrite (toggle_keeps_other_pairs 0 "Jane Doe" Sample.clip video
             [Sample.clipSelection; Sample.stillSelection] 0 "2").
  - reflexivity.
  - discriminate.
Defined.

Section BulkSelection.

Implicit Types (prev : list SelectedItem.t) (personIndex : nat)
  (personName : string) (type : MediaType) (items : list GettyMedia.t).

Lemma filter_keeps_all {A} (P : A → Prop) `{!∀ x, Decision (P x)} (l : list A) :
  Forall P l → filter P l = l.
Proof.
  induction 1 as [|x l Hx _ IH]; [done|].
  by rewrite filter_cons_True, IH.
Qed.

Lemma filter_drops_all {A} (P : A → Prop) `{!∀ x, Decision (P x)} (l : list A) :
  Forall (λ x, ¬ P x) l → filter P l = [].
Proof.
  induction 1 as [|x l Hx _ IH]; [done|].
  by rewrite filter_cons_False, IH.
Qed.

Lemma filter_sameKind_new personIndex personName type items :
  filter (sameKind personIndex type)
    ((λ m, newSelection personIndex personName m type) <$> items)
  = (λ m, newSelection personIndex personName m type) <$> items.
Proof. apply filter_keeps_all, Forall_fmap, Forall_forall. by intros m _. Qed.

(** Both per-person selectors are the same expression at their kind. *)
Lemma applyOp_select_all gettyResults type personIndex personName items prev :
  applyOp gettyResults (OpSelectAll type personIndex personName items) prev
  = filter (λ item, ¬ sameKind personIndex type item) prev
    ++ ((λ m, newSelection personIndex personName m type) <$> items).
Proof. by destruct type. Qed.

Lemma applyOp_deselect_all gettyResults type personIndex prev :
  applyOp gettyResults (OpDeselectAll type personIndex) prev
  = filter (λ item, ¬ sameKind personIndex type item) prev.
Proof. by destruct type. Qed.

Lemma applyOp_select_global gettyResults type prev :
  applyOp gettyResults (OpSelectAllGlobal type) prev
  = filter (λ item, SelectedItem.mediaType item ≠ type) prev
    ++ allSelections type gettyResults.
Proof. by destruct type. Qed.

Lemma applyOp_deselect_global gettyResults type prev :
  applyOp gettyResults (OpDeselectAllGlobal type) prev
  = filter (λ item, SelectedItem.mediaType item ≠ type) prev.
Proof. by destruct type. Qed.

Lemma allSelections_kind type (gettyResults : list PersonGettyResults.t) :
  Forall (λ item, SelectedItem.mediaType item = type) (allSelections type gettyResults).
Proof.
  apply Forall_forall.
  by intros item (index & result & m & _ & _ & ->)%elem_of_allSelections.
Qed.

Lemma length_allSelections type (gettyResults : list PersonGettyResults.t) :
  length (allSelections type gettyResults)
  = sum_list_with (λ result, length (mediaOf type result)) gettyResults.
Proof.
  unfold allSelections.
  induction gettyResults as [|result gettyResults IH] using rev_ind; [done|].
  rewrite imap_app, concat_app, length_app, sum_list_with_app, IH. simpl.
  rewrite app_nil_r, length_fmap. lia.
Qed.

End BulkSelection.

(** X3. "Select All" of a kind for a person, pressed twice with the same
    items, gives the ledger the first press gave (for videos and for
    photos). *)
Theorem select_all_idempotent
    (gettyResults : list PersonGettyResults.t) (type : MediaType)
    (personIndex : nat) (personName : string) (items : list GettyMedia.t)
    (prev : list SelectedItem.t) :
  let press := applyOp gettyResults (OpSelectAll type personIndex personName items) in
  press (press prev) = press prev.
Proof.
  intros press. subst press. rewrite !applyOp_select_all.
  rewrite filter_app, newSelection_sameKind, app_nil_r.
  by rewrite list_filter_filter_l.
Qed.

(** X4. After "Select All" of a kind for a person, the Selections of that
    person and kind are exactly one per item passed, in item order, and
    every other Selection of the ledger is kept, in its order. *)
Theorem select_all_replaces_kind
    (gettyResults : list PersonGettyResults.t) (type : MediaType)
    (personIndex : nat) (personName : string) (items : list GettyMedia.t)
    (prev : list SelectedItem.t) :
  let after := applyOp gettyResults (OpSelectAll type personIndex personName items) prev in
  filter (sameKind personIndex type) after
  = (λ m, newSelection personIndex personName m type) <$> items
  ∧ filter (λ item, ¬ sameKind personIndex type item) after
    = filter (λ item, ¬ sameKind personIndex type item) prev
  ∧ ∀ m, m ∈ items → isSelected after personIndex (GettyMedia.id m) = true.
Proof.
  intros after. subst after. rewrite applyOp_select_all. split_and!.
  - rewrite filter_app, filter_sameKind_new.
    rewrite (filter_drops_all (sameKind personIndex type)); [done|].
    apply Forall_forall. intros x [Hx _]%list_elem_of_filter. tauto.
  - rewrite filter_app, newSelection_sameKind, app_nil_r.
    by rewrite list_filter_filter_l.
  - intros m Hm. rewrite isSelected_app. apply orb_true_iff. right.
    apply isSelected_true, Exists_exists.
    exists (newSelection personIndex personName m type). split; [|done].
    apply list_elem_of_fmap. by exists m.
Qed.

(** X5. "Deselect All" of a kind for a person leaves no Selection of that
    person and kind, and it commutes with "Select All" of the other kind
    for that person: pressed after it, it leaves what that press added
    (the two kinds do not interfere). *)
Theorem deselect_all_other_kind
    (gettyResults : list PersonGettyResults.t) (type other : MediaType)
    (personIndex : nat) (personName : string) (items : list GettyMedia.t)
    (prev : list SelectedItem.t) :
  type ≠ other →
  let select := applyOp gettyResults (OpSelectAll other personIndex personName items) in
  let deselect := applyOp gettyResults (OpDeselectAll type personIndex) in
  deselect (select prev) = select (deselect prev)
  ∧ filter (sameKind personIndex type) (deselect prev) = []
  ∧ filter (sameKind personIndex other) (deselect (select prev))
    = (λ m, newSelection personIndex personName m other) <$> items.
Proof.
  intros Hne select deselect. subst select deselect.
  rewrite !applyOp_deselect_all, !applyOp_select_all.
  assert (filter (λ item, ¬ sameKind personIndex type item)
            ((λ m, newSelection personIndex personName m other) <$> items)
          = (λ m, newSelection personIndex personName m other) <$> items) as Hkeep.
  { apply filter_keeps_all, Forall_fmap, Forall_forall.
    intros m _ [_ Htype]. simpl in Htype. congruence. }
  assert (filter (λ item, ¬ sameKind personIndex type item)
            (filter (λ item, ¬ sameKind personIndex other item) prev)
          = filter (λ item, ¬ sameKind personIndex other item)
              (filter (λ item, ¬ sameKind personIndex type item) prev)) as Hcomm.
  { rewrite !list_filter_filter. apply list_filter_iff. tauto. }
  split_and!.
  - by rewrite filter_app, Hkeep, Hcomm.
  - apply filter_drops_all, Forall_forall.
    intros x [Hx _]%list_elem_of_filter. tauto.
  - rewrite filter_app, Hkeep, Hcomm, filter_app, filter_sameKind_new.
    rewrite (filter_drops_all (sameKind personIndex other)); [done|].
    apply Forall_forall. intros x [Hx _]%list_elem_of_filter. tauto.
Qed.

Lemma deselect_all_other_kind_witness :
  deselectAllVideos 0 (selectAllPhotos 0 "Jane Doe" [Sample.still] [Sample.clipSelection])
  = selectAllPhotos 0 "Jane Doe" [Sample.still] (deselectAllVideos 0 [Sample.clipSelection]).
Proof.
  apply (proj1 (deselect_all_other_kind [] video photo 0 "Jane Doe" [Sample.still]
                  [Sample.clipSelection] ltac:(discriminate))).
Defined.

(** X6. The global "Deselect All Videos" keeps exactly the photo
    Selections, in order, and "Deselect All Photos" exactly the video
    Selections; pressing both, in either order, empties the ledger. *)
Theorem deselect_global_partitions (prev : list SelectedItem.t) :
  deselectAllVideosGlobal prev
  = filter (λ item, SelectedItem.mediaType item = photo) prev
  ∧ deselectAllPhotosGlobal prev
    = filter (λ item, SelectedItem.mediaType item = video) prev
  ∧ deselectAllPhotosGlobal (deselectAllVideosGlobal prev) = []
  ∧ deselectAllVideosGlobal (deselectAllPhotosGlobal prev) = [].
Proof.
  unfold deselectAllVideosGlobal, deselectAllPhotosGlobal. split_and!.
  - apply list_filter_iff. intros item. by destruct (SelectedItem.mediaType item).
  - apply list_filter_iff. intros item. by destruct (SelectedItem.mediaType item).
  - apply filter_drops_all, Forall_forall.
    intros x [Hx _]%list_elem_of_filter. destruct (SelectedItem.mediaType x); tauto.
  - apply filter_drops_all, Forall_forall.
    intros x [Hx _]%list_elem_of_filter. destruct (SelectedItem.mediaType x); tauto.
Qed.

(** X7. After the global "Select All" of a kind, the Selections of that
    kind are exactly one per media of that kind in the result sets, person
    by person, so the counter in the section header shows the total number
    of media of that kind; the Selections of the other kind are kept. *)
Theorem select_global_selects_every_media
    (gettyResults : list PersonGettyResults.t) (type : MediaType)
    (prev : list SelectedItem.t) :
  let after := applyOp gettyResults (OpSelectAllGlobal type) prev in
  filter (λ item, SelectedItem.mediaType item = type) after
  = allSelections type gettyResults
  ∧ length (filter (λ item, SelectedItem.mediaType item = type) after)
    = sum_list_with (λ result, length (mediaOf type result)) gettyResults
  ∧ filter (λ item, SelectedItem.mediaType item ≠ type) after
    = filter (λ item, SelectedItem.mediaType item ≠ type) prev.
Proof.
  intros after. subst after. rewrite applyOp_select_global.
  assert (filter (λ item, SelectedItem.mediaType item = type)
            (filter (λ item, SelectedItem.mediaType item ≠ type) prev
             ++ allSelections type gettyResults)
          = allSelections type gettyResults) as Hkind.
  { rewrite filter_app, (filter_keeps_all _ _ (allSelections_kind _ _)).
    rewrite (filter_drops_all (λ item, SelectedItem.mediaType item = type)); [done|].
    apply Forall_forall. intros x [Hx _]%list_elem_of_filter. tauto. }
  split_and!; [done| |].
  - by rewrite Hkind, length_allSelections.
  - rewrite filter_app, list_filter_filter_l by done.
    rewrite (filter_drops_all _ (allSelections type gettyResults)); [apply app_nil_r|].
    eapply Forall_impl; [apply allSelections_kind|]. intros x Hx. simpl in Hx. tauto.
Qed.

(** ** Selections made through the page refer to stored media *)

Section Provenance.

Variable gettyResults : list PersonGettyResults.t.

Implicit Types (ledger : list SelectedItem.t).

Lemma fromResults_filter (P : SelectedItem.t → Prop) `{!∀ x, Decision (P x)} ledger :
  Forall (fromResults gettyResults) ledger →
  Forall (fromResults gettyResults) (filter P ledger).
Proof.
  rewrite !Forall_forall. intros Hall x [_ Hx]%list_elem_of_filter. auto.
Qed.

Lemma fromResults_allSelections type :
  Forall (fromResults gettyResults) (allSelections type gettyResults).
Proof.
  apply Forall_forall.
  intros item (index & result & m & Hlookup & Hm & ->)%elem_of_allSelections.
  by apply newSelection_fromResults.
Qed.

Lemma fromResults_applyOp op ledger :
  wired gettyResults op →
  Forall (fromResults gettyResults) ledger →
  Forall (fromResults gettyResults) (applyOp gettyResults op ledger).
Proof.
  intros Hwired Hall. destruct op as [i n m ty|ty i n items|ty i|ty|ty].
  - simpl in *. destruct (gettyResults !! i) as [result|] eqn:Hlookup; [|done].
    destruct Hwired as [-> Hm].
    destruct (list_find (samePair i (GettyMedia.id m)) ledger) as [[k item]|] eqn:Hfind.
    + rewrite (toggleSelection_selected _ _ _ _ _ k item Hfind). by apply Forall_delete.
    + rewrite (toggleSelection_unselected _ _ _ _ _ Hfind).
      apply Forall_app. split; [done|]. apply Forall_singleton.
      by apply newSelection_fromResults.
  - rewrite applyOp_select_all. simpl in Hwired.
    destruct (gettyResults !! i) as [result|] eqn:Hlookup; [|done].
    destruct Hwired as [-> ->]. apply Forall_app. split.
    + by apply fromResults_filter.
    + apply Forall_fmap, Forall_forall. intros m Hm. simpl.
      by apply newSelection_fromResults.
  - rewrite applyOp_deselect_all. by apply fromResults_filter.
  - rewrite applyOp_select_global. apply Forall_app. split.
    + by apply fromResults_filter.
    + apply fromResults_allSelections.
  - rewrite applyOp_deselect_global. by apply fromResults_filter.
Qed.

Lemma fromResults_runOps ops ledger :
  Forall (wired gettyResults) ops →
  Forall (fromResults gettyResults) ledger →
  Forall (fromResults gettyResults) (runOps gettyResults ops ledger).
Proof.
  unfold runOps. revert ledger.
  induction ops as [|op ops IH]; intros ledger Hwired Hall; simpl; [done|].
  apply Forall_cons in Hwired as [Hop Hops].
  apply IH; [done|]. by apply fromResults_applyOp.
Qed.

Lemma fromResults_resolves item :
  fromResults gettyResults item → resolves gettyResults item.
Proof.
  intros Hfrom. unfold resolves.
  destruct (gettyResults !! SelectedItem.personIndex item) as [result|] eqn:Hlookup.
  - exists result. split; [done|]. by apply (fromResults_id gettyResults).
  - unfold fromResults in Hfrom. by rewrite Hlookup in Hfrom.
Qed.

Lemma resolveSelection_kind item result :
  gettyResults !! SelectedItem.personIndex item = Some result →
  resolveSelection gettyResults item
  = findById (SelectedItem.mediaId item) (mediaOf (SelectedItem.mediaType item) result).
Proof.
  intros Hlookup. unfold resolveSelection. rewrite Hlookup. simpl.
  by destruct (SelectedItem.mediaType item).
Qed.

End Provenance.

(** X8. Every Selection of a ledger reached through the page resolves in
    the stored result sets, so an export from such a ledger drops no row:
    when the titles of the result sets are strings, as their interface
    declares, it has as many data rows as there are Selections. *)
Theorem reachable_selections_are_exported
    (toLocaleDateString : string → string)
    (gettyResults : list PersonGettyResults.t) (ops : list LedgerOp) :
  Forall (wired gettyResults) ops →
  let ledger := runOps gettyResults ops [] in
  Forall (resolves gettyResults) ledger
  ∧ (titledResults gettyResults →
     length (exportRows toLocaleDateString gettyResults ledger) = length ledger).
Proof.
  intros Hwired ledger.
  assert (Forall (fromResults gettyResults) ledger) as Hfrom.
  { apply fromResults_runOps; [done|constructor]. }
  split.
  - eapply Forall_impl; [exact Hfrom|]. apply fromResults_resolves.
  - intros Htitled. rewrite length_exportRows.
    + f_equal. apply filter_keeps_all.
      eapply Forall_impl; [exact Hfrom|]. intros item Hitem. simpl.
      by apply resolveSelection_is_Some, fromResults_resolves.
    + apply Forall_forall. intros item _. by apply titledResults_untitled.
Qed.

Lemma reachable_selections_are_exported_witness :
  length (exportRows (λ date, date) Sample.results (runOps Sample.results Sample.ops []))
  = length (runOps Sample.results Sample.ops []).
Proof.
  apply (reachable_selections_are_exported (λ date, date) Sample.results Sample.ops).
  - apply (bool_decide_unpack _). vm_compute. exact I.
  - apply (bool_decide_unpack _). vm_compute. exact I.
Defined.

(** X9. Over result sets with distinct ids, the media the export finds for
    a Selection made through the page is the media the Selection was built
    from: the row's download URL is the URL the packager fetches for that
    Selection, and its file name is the media id with the extension of the
    Selection's kind. *)
Theorem export_row_matches_selection
    (gettyResults : list PersonGettyResults.t) (ops : list LedgerOp)
    (item : SelectedItem.t) :
  distinctIds gettyResults →
  Forall (wired gettyResults) ops →
  item ∈ runOps gettyResults ops [] →
  ∃ media,
    resolveSelection gettyResults item = Some media
    ∧ item = newSelection (SelectedItem.personIndex item) (SelectedItem.personName item)
               media (SelectedItem.mediaType item)
    ∧ GettyMedia.compUrl media = SelectedItem.compUrl item
    ∧ GettyMedia.id media = SelectedItem.mediaId item.
Proof.
  intros Hdistinct Hwired Hitem.
  assert (fromResults gettyResults item) as Hfrom.
  { pose proof (fromResults_runOps gettyResults ops [] Hwired (Forall_nil_2 _)) as Hall.
    rewrite Forall_forall in Hall. by apply Hall. }
  unfold fromResults in Hfrom.
  destruct (gettyResults !! SelectedItem.personIndex item) as [result|] eqn:Hlookup;
    [|done].
  destruct Hfrom as (media & Hmedia & Hbuilt).
  pose proof (distinctIds_lookup gettyResults Hdistinct _ _ Hlookup) as Hnodup.
  assert (SelectedItem.mediaId item = GettyMedia.id media) as Hid by by rewrite Hbuilt.
  exists media. rewrite (resolveSelection_kind _ _ _ Hlookup).
  assert (findById (SelectedItem.mediaId item)
            (mediaOf (SelectedItem.mediaType item) result) = Some media) as ->.
  { destruct (findById _ _) as [found|] eqn:Hfind.
    - unfold findById in Hfind.
      apply fmap_Some in Hfind as ([j m] & (Hm%list_elem_of_lookup_2 & Hidm & _)%list_find_Some & ->).
      simpl in *. f_equal.
      apply (media_of_id result (SelectedItem.mediaType item)); congruence.
    - assert (is_Some (findById (SelectedItem.mediaId item)
                         (mediaOf (SelectedItem.mediaType item) result))) as [? Hsome].
      { apply findById_is_Some. rewrite Hid. by apply list_elem_of_fmap_2. }
      congruence. }
  split_and!; [done| |by rewrite Hbuilt|done].
  rewrite Hbuilt at 1. by rewrite Hbuilt.
Qed.

Lemma export_row_matches_selection_witness :
  ∃ media, resolveSelection Sample.results Sample.stillSelection = Some media
    ∧ GettyMedia.compUrl media = "c2".
Proof.
  destruct (export_row_matches_selection Sample.results Sample.ops Sample.stillSelection)
    as (media & Hresolve & _ & Hurl & _).
  - apply (bool_decide_unpack _). vm_compute. exact I.
  - apply (bool_decide_unpack _). vm_compute. exact I.
  - apply (bool_decide_unpack _). vm_compute. exact I.
  - exists media. split; [exact Hresolve|exact Hurl].
Defined.

(** ** Export compiler: quoting of titles, regeneration *)

(** X10. Escaping the quotes of a title loses nothing: two titles with the
    same escaped form are the same title. *)
Theorem escapeQuotes_injective (s1 s2 : string) :
  escapeQuotes s1 = escapeQuotes s2 → s1 = s2.
Proof.
  revert s2. induction s1 as [|c s1 IH]; intros [|d s2] Heq; simpl in Heq.
  - done.
  - by destruct (decide (d = DQUOTE)).
  - by destruct (decide (c = DQUOTE)).
  - destruct (decide (c = DQUOTE)) as [->|Hc], (decide (d = DQUOTE)) as [->|Hd].
    + injection Heq as Heq. by rewrite (IH s2).
    + injection Heq as Hd' _. by destruct Hd.
    + injection Heq as Hc' _. by destruct Hc.
    + injection Heq as -> Heq. by rewrite (IH s2).
Qed.

Lemma escapeQuotes_injective_witness :
  String DQUOTE "Hi" = String DQUOTE "Hi".
Proof. apply (escapeQuotes_injective (String DQUOTE "Hi") (String DQUOTE "Hi")). reflexivity. Defined.

(** X11. Escaping doubles every double quote and changes nothing else: the
    escaped title has twice the quotes, its length grows by the number of
    quotes, and a title without quotes is left as it is. *)
Theorem escapeQuotes_doubles_quotes (s : string) :
  occurrences DQUOTE (escapeQuotes s) = 2 * occurrences DQUOTE s
  ∧ String.length (escapeQuotes s) = String.length s + occurrences DQUOTE s
  ∧ (occurrences DQUOTE s = 0 → escapeQuotes s = s)
  ∧ ∀ c, c ≠ DQUOTE → occurrences c (escapeQuotes s) = occurrences c s.
Proof.
  induction s as [|d s (IHq & IHl & IHn & IHc)]; [done|].
  cbn [escapeQuotes]. destruct (decide (d = DQUOTE)) as [->|Hd];
    cbn [occurrences String.length].
  - rewrite (decide_True (P:=DQUOTE = DQUOTE)) by done. split_and!.
    + rewrite IHq. lia.
    + rewrite IHl. lia.
    + lia.
    + intros c Hc. rewrite decide_False by done. rewrite IHc by done. lia.
  - rewrite (decide_False (P:=d = DQUOTE)) by done. split_and!.
    + rewrite IHq. lia.
    + rewrite IHl. lia.
    + intros Hnone. by rewrite IHn.
    + intros c Hc. by rewrite IHc.
Qed.

Lemma escapeQuotes_doubles_quotes_witness : escapeQuotes "Red carpet" = "Red carpet".
Proof.
  apply (proj1 (proj2 (proj2 (escapeQuotes_doubles_quotes "Red carpet")))).
  reflexivity.
Defined.

(** X12. Compiling the export changes neither the ledger nor the result
    sets, and compiling again without a change in between gives the same
    state: "Regenerate CSV" reproduces the text. With a non-empty ledger
    whose Selections resolve to media with string titles only, it moves to
    step 5 and leaves the error as it was. *)
Theorem compile_export_idempotent
    (toLocaleDateString : string → string) (st : App.t) :
  let after := handleCompileExport toLocaleDateString st in
  handleCompileExport toLocaleDateString after = after
  ∧ App.selectedItems after = App.selectedItems st
  ∧ App.gettyResults after = App.gettyResults st
  ∧ App.shotlist after = App.shotlist st
  ∧ (App.selectedItems st ≠ [] →
     Forall (λ item, ¬ untitled (App.gettyResults st) item) (App.selectedItems st) →
     App.currentStep after = 5 ∧ App.error after = App.error st).
Proof.
  intros after. subst after. unfold handleCompileExport.
  destruct (compileExport toLocaleDateString (App.selectedItems st) (App.gettyResults st))
    as [message|csvText|] eqn:Hcompile; simpl; rewrite ?Hcompile.
  - split_and!; try done. intros Hne _. unfold compileExport in Hcompile.
    destruct (App.selectedItems st) as [|item items]; [done|].
    cbn [length Nat.eqb] in Hcompile. by destruct (foldl _ _ _) in Hcompile.
  - by split_and!.
  - split_and!; try done. intros Hne Htitled. unfold compileExport in Hcompile.
    rewrite (foldl_appendRow _ _ _ _ Htitled) in Hcompile.
    by destruct (App.selectedItems st).
Qed.

(** ** Search aggregator and gateway: outcomes, filters, forwarding *)

Section SearchOutcomes.

Variable provider : Request.t → Response.t.

Implicit Types (st : App.t) (sent : list Request.t) (shotlist : list Person.t)
  (results : list PersonGettyResults.t).

Lemma searchLoop_Ok st shotlist results sent sent' out :
  searchLoop provider st shotlist results sent = (sent', Ok out) →
  out = results ++ (resultFor provider st <$> shotlist).
Proof.
  revert results sent.
  induction shotlist as [|person shotlist IH]; intros results sent.
  - simpl. unfold ret. intros [= _ <-]. by rewrite app_nil_r.
  - rewrite searchLoop_cons. simpl.
    destruct (Response.ok (videosReply provider st _)); [|done].
    destruct (Response.ok (photosReply provider st _)); [|done].
    intros Hrun%IH. by rewrite Hrun, <- app_assoc.
Qed.

Lemma searchLoop_Throw st shotlist results sent sent' message :
  searchLoop provider st shotlist results sent = (sent', Throw message) →
  ∃ type status,
    message = "Getty " +:+ mediaTypeString type +:+ " search failed: " +:+ status.
Proof.
  revert results sent.
  induction shotlist as [|person shotlist IH]; intros results sent.
  - done.
  - rewrite searchLoop_cons. simpl.
    destruct (Response.ok (videosReply provider st _)).
    + destruct (Response.ok (photosReply provider st _)).
      * apply IH.
      * intros [= _ <-]. by exists photo, (numberString (Response.status (photosReply provider st (Person.name person)))).
    + intros [= _ <-]. by exists video, (numberString (Response.status (videosReply provider st (Person.name person)))).
Qed.

End SearchOutcomes.

(** X13. The search is all or nothing, whatever the provider answers: it
    either stores one result set per person of the shotlist, moves to step 4
    and clears the error, or leaves result sets and step as they were and
    sets a non-empty error. In both cases the script, the shotlist, the
    ledger, the export text, the token and the filters are untouched; with a
    token held the loading flag is down at the end, and without one no
    request is sent. *)
Theorem search_all_or_nothing (provider : Request.t → Response.t) (st : App.t) :
  let sent := (handleSearchGetty provider st).1 in
  let after := (handleSearchGetty provider st).2 in
  (App.script after = App.script st
   ∧ App.shotlist after = App.shotlist st
   ∧ App.selectedItems after = App.selectedItems st
   ∧ App.exportText after = App.exportText st
   ∧ App.accessToken after = App.accessToken st
   ∧ App.collections after = App.collections st
   ∧ App.usePMCARC after = App.usePMCARC st
   ∧ App.isDownloading after = App.isDownloading st)
  ∧ ((App.gettyResults after = resultFor provider st <$> App.shotlist st
      ∧ App.currentStep after = 4 ∧ App.error after = "")
     ∨ (App.gettyResults after = App.gettyResults st
        ∧ App.currentStep after = App.currentStep st ∧ App.error after ≠ ""))
  ∧ (if truthy (App.accessToken st) then App.isLoading after = false
     else sent = [] ∧ App.isLoading after = App.isLoading st).
Proof.
  intros sent after. subst sent after.
  destruct (truthy (App.accessToken st)) eqn:Htoken.
  - rewrite (handleSearchGetty_run _ _ Htoken).
    destruct (searchLoop provider st (App.shotlist st) [] [])
      as [sent [results|message]] eqn:Hrun; simpl.
    + split_and!; try done. left. split_and!; try done.
      by apply searchLoop_Ok in Hrun.
    + split_and!; try done. right. split_and!; try done.
      apply searchLoop_Throw in Hrun as (type & status & ->). done.
  - unfold handleSearchGetty. rewrite Htoken. simpl.
    split_and!; try done. right. by split_and!.
Qed.

(** X14. The search request carries a [collection_codes] parameter exactly
    when at least one collection toggle is on; its value is then the codes
    of the toggles that are on, joined by commas in the fixed order blb,
    wom, rol, tho, vrt, and never the empty string. *)
Theorem collection_codes_parameter (st : App.t) (searchTerm : string) :
  let on := App.collections st in
  let any :=
    Collections.billboard on || Collections.wwd on || Collections.rollingStone on
    || Collections.hollywoodReporter on || Collections.variety on in
  hasParam "collection_codes" (searchParams st searchTerm) = any
  ∧ (any = false → getActiveCollectionCodes on = None)
  ∧ (any = true →
       ∃ codes, getActiveCollectionCodes on = Some codes ∧ codes ≠ ""
         ∧ ("collection_codes", codes) ∈ searchParams st searchTerm
         ∧ codes
           = String.concat ","
               (omap (λ kc : bool * string, if kc.1 then Some kc.2 else None)
                  [(Collections.billboard on, "blb"); (Collections.wwd on, "wom");
                   (Collections.rollingStone on, "rol");
                   (Collections.hollywoodReporter on, "tho");
                   (Collections.variety on, "vrt")])).
Proof.
  intros on any. subst on any. unfold searchParams.
  destruct (App.collections st) as [[] [] [] [] []]; simpl;
    (split_and!; [done|done|]);
    try done;
    intros _; eexists; (split_and!; [reflexivity|done| |reflexivity]);
    repeat (apply elem_of_cons; first [by left|right]).
Qed.

Lemma collection_codes_parameter_witness :
  getActiveCollectionCodes (toggleAllCollections false) = None.
Proof.
  apply (proj1 (proj2 (collection_codes_parameter
                         (setCollections (toggleAllCollections false) Sample.state)
                         "Jane Doe"))).
  reflexivity.
Defined.

(** X15. Toggling a collection flips the flag of that key and of no other,
    and toggling it again restores the filter; "Deselect All" turns every
    flag off, after which a search request carries no [collection_codes]
    parameter, and "Select All" makes it carry all five codes. *)
Theorem toggle_collection_involution
    (collectionKey : CollectionKey.t) (prev : Collections.t) :
  toggleCollection collectionKey (toggleCollection collectionKey prev) = prev
  ∧ collectionFlag collectionKey (toggleCollection collectionKey prev)
    = negb (collectionFlag collectionKey prev)
  ∧ (∀ other, other ≠ collectionKey →
       collectionFlag other (toggleCollection collectionKey prev)
       = collectionFlag other prev)
  ∧ (∀ st searchTerm,
       hasParam "collection_codes"
         (searchParams (setCollections (toggleAllCollections false) st) searchTerm)
       = false)
  ∧ (∀ st searchTerm,
       ("collection_codes", "blb,wom,rol,tho,vrt")
       ∈ searchParams (setCollections (toggleAllCollections true) st) searchTerm).
Proof.
  split_and!.
  - destruct prev as [[] [] [] [] []], collectionKey; reflexivity.
  - by destruct collectionKey.
  - intros other Hother. by destruct other, collectionKey.
  - done.
  - intros st searchTerm. unfold searchParams. simpl.
    repeat (apply elem_of_cons; first [by left|right]).
Qed.

Section GatewayFacts.

Variable provider : Request.t → Response.t.

Lemma hasParam_app (key : string) (params extra : list (string * string)) :
  hasParam key (params ++ extra) = hasParam key params || hasParam key extra.
Proof.
  unfold hasParam. apply eq_true_iff_eq.
  rewrite orb_true_iff, !bool_decide_eq_true, fmap_app. apply elem_of_app.
Qed.

Lemma gatewayHandler_unauthorized endpoint (req : Request.t) :
  authorized req = false →
  gatewayHandler provider endpoint req
  = {| Response.status := 401;
       Response.body := emptyBody "Invalid or missing authorization token" |}.
Proof.
  unfold authorized, gatewayHandler. intros Hauth.
  apply andb_false_iff in Hauth as [-> | ->]; [done|]. by rewrite orb_true_r.
Qed.

Lemma gatewayHandler_authorized endpoint (req : Request.t) :
  authorized req = true →
  gatewayHandler provider endpoint req =
    let response := provider (providerRequest endpoint req) in
    if Response.ok response
    then {| Response.status := 200; Response.body := Response.body response |}
    else response.
Proof.
  unfold authorized, gatewayHandler. intros [-> ->]%andb_true_iff. simpl.
  destruct (provider (providerRequest endpoint req)) as [status body].
  by destruct (Response.ok _).
Qed.

End GatewayFacts.

(** X16. [buildGettyUrl] keeps the caller's parameters, in their order, in
    front of whatever it appends; its result always has a [fields] and a
    [sort_order] parameter, it appends nothing when the caller gave both,
    and applying it to its own result appends nothing more. *)
Theorem buildGettyUrl_defaults (endpoint : string) (queryParams : list (string * string)) :
  let built := buildGettyUrl endpoint queryParams in
  built.1 = "https://api.gettyimages.com/v3" +:+ endpoint
  ∧ queryParams `prefix_of` built.2
  ∧ hasParam "fields" built.2 = true
  ∧ hasParam "sort_order" built.2 = true
  ∧ (hasParam "fields" queryParams = true → hasParam "sort_order" queryParams = true →
     built.2 = queryParams)
  ∧ (∀ key value, (key, value) ∈ built.2 →
       (key, value) ∈ queryParams
       ∨ (key, value) = ("fields", "id,title,thumb,preview,date_created")
          ∧ hasParam "fields" queryParams = false
       ∨ (key, value) = ("sort_order", "best_match")
          ∧ hasParam "sort_order" queryParams = false)
  ∧ (buildGettyUrl endpoint built.2).2 = built.2.
Proof.
  intros built. subst built.
  assert (∀ params, (buildGettyUrl endpoint params).2
            = (params ++ (if hasParam "fields" params then []
                          else [("fields", "id,title,thumb,preview,date_created")]))
              ++ (if hasParam "sort_order" params then []
                  else [("sort_order", "best_match")])) as Hbuilt.
  { intros params. unfold buildGettyUrl. simpl.
    destruct (hasParam "fields" params) eqn:Hf; rewrite ?app_nil_r, ?hasParam_app;
      by destruct (hasParam "sort_order" params) eqn:Hs; rewrite ?app_nil_r; simpl;
        rewrite ?orb_false_r. }
  assert (hasParam "fields" (buildGettyUrl endpoint queryParams).2 = true) as Hfields.
  { rewrite Hbuilt, !hasParam_app.
    by destruct (hasParam "fields" queryParams), (hasParam "sort_order" queryParams). }
  assert (hasParam "sort_order" (buildGettyUrl endpoint queryParams).2 = true) as Hsort.
  { rewrite Hbuilt, !hasParam_app.
    by destruct (hasParam "fields" queryParams), (hasParam "sort_order" queryParams). }
  split_and!; [done| |done|done| | |].
  - rewrite Hbuilt, <- app_assoc. by apply prefix_app_r.
  - intros Hf Hs. by rewrite Hbuilt, Hf, Hs, !app_nil_r.
  - intros key value. rewrite Hbuilt, !elem_of_app.
    destruct (hasParam "fields" queryParams), (hasParam "sort_order" queryParams);
      rewrite ?elem_of_nil, ?list_elem_of_singleton; intuition auto.
  - rewrite (Hbuilt (buildGettyUrl endpoint queryParams).2), Hfields, Hsort.
    by rewrite !app_nil_r.
Qed.

Lemma buildGettyUrl_defaults_witness :
  (buildGettyUrl "/search/videos/editorial"
     [("phrase", "Jane Doe"); ("fields", "id"); ("sort_order", "newest")]).2
  = [("phrase", "Jane Doe"); ("fields", "id"); ("sort_order", "newest")].
Proof.
  apply (proj1 (proj2 (proj2 (proj2 (proj2
           (buildGettyUrl_defaults "/search/videos/editorial"
              [("phrase", "Jane Doe"); ("fields", "id"); ("sort_order", "newest")])))))).
  - reflexivity.
  - reflexivity.
Defined.

(** X17. The gateway adds nothing to a search request of the component:
    the provider receives the component's parameters as they are (the
    phrase, page 1, page size 30, the field list with comp, the order
    most_popular and the collection codes, if any), so the gateway's
    default field list and its default order best_match never apply to
    them. *)
Theorem gateway_passes_search_parameters
    (st : App.t) (endpoint route searchTerm : string) :
  providerRequest endpoint (searchRequest st route searchTerm)
  = {| Request.route := "https://api.gettyimages.com/v3" +:+ endpoint;
       Request.query := searchParams st searchTerm;
       Request.authorization := "Bearer " +:+ templateString (App.accessToken st) |}
  ∧ ("sort_order", "most_popular") ∈ searchParams st searchTerm
  ∧ (("sort_order", "best_match") ∉ searchParams st searchTerm)
  ∧ ("page_size", "30") ∈ searchParams st searchTerm.
Proof.
  unfold providerRequest, searchRequest, buildGettyUrl, searchParams. simpl.
  destruct (truthy (getActiveCollectionCodes (App.collections st))); simpl.
  - split_and!; [done| | |].
    + repeat (apply elem_of_cons; first [by left|right]).
    + intros Hin.
      repeat (apply elem_of_cons in Hin; destruct Hin as [Hin|Hin]; [discriminate Hin|]).
      by apply elem_of_nil in Hin.
    + repeat (apply elem_of_cons; first [by left|right]).
  - split_and!; [done| | |].
    + repeat (apply elem_of_cons; first [by left|right]).
    + intros Hin.
      repeat (apply elem_of_cons in Hin; destruct Hin as [Hin|Hin]; [discriminate Hin|]).
      by apply elem_of_nil in Hin.
    + repeat (apply elem_of_cons; first [by left|right]).
Qed.

Section GatewayFunction.

Variable provider : Request.t → ProviderOutcome.
Variable nullTypeError : string.
Variable type : MediaType.

Lemma apiHandler_other_method (method : string) (req : Request.t) :
  method ≠ "GET" →
  apiHandler provider nullTypeError type method req
  = ([], if bool_decide (method = "OPTIONS")
         then {| GatewayReply.status := 200; GatewayReply.body := NoBody |}
         else {| GatewayReply.status := 405;
                 GatewayReply.body := ErrorBody "Method not allowed" None |}).
Proof.
  intros Hget. unfold apiHandler. case_bool_decide; [done|].
  by rewrite (bool_decide_eq_false_2 (method = "GET")).
Qed.

Lemma apiHandler_unauthorized (req : Request.t) :
  authorized req = false →
  apiHandler provider nullTypeError type "GET" req
  = ([], {| GatewayReply.status := 401;
            GatewayReply.body :=
              ErrorBody "Invalid or missing authorization token" None |}).
Proof.
  unfold authorized, apiHandler. intros Hauth.
  rewrite (bool_decide_eq_false_2 ("GET" = "OPTIONS")) by done.
  rewrite (bool_decide_eq_true_2 ("GET" = "GET")) by done. cbn [negb].
  apply andb_false_iff in Hauth as [-> | ->]; [done|]. by rewrite orb_true_r.
Qed.

Lemma apiHandler_authorized (req : Request.t) :
  authorized req = true →
  apiHandler provider nullTypeError type "GET" req
  = let outbound := providerRequest (gatewayEndpoint type) req in
    let failed (message : string) :=
      {| GatewayReply.status := 500;
         GatewayReply.body := ErrorBody (failureText type) (Some message) |} in
    ([outbound],
     match provider outbound with
     | FetchRejected message => failed message
     | BodyRejected status message => failed message
     | NullBody status =>
         if statusOk status then failed nullTypeError
         else {| GatewayReply.status := status; GatewayReply.body := Relayed None |}
     | Answered response =>
         {| GatewayReply.status :=
              if Response.ok response then 200 else Response.status response;
            GatewayReply.body := Relayed (Some (Response.body response)) |}
     end).
Proof.
  unfold authorized, apiHandler. intros [-> ->]%andb_true_iff.
  rewrite (bool_decide_eq_false_2 ("GET" = "OPTIONS")) by done.
  rewrite (bool_decide_eq_true_2 ("GET" = "GET")) by done. cbn [negb orb]. cbv zeta.
  f_equal.
  destruct (provider _) as [message|status message|status|response]; try done.
  - by destruct (statusOk status).
  - by destruct (Response.ok response).
Qed.

End GatewayFunction.

(** X18. A gateway function contacts the provider only for a GET whose
    Authorization header is non-empty and starts with "Bearer ", once,
    passing that header on. Its answer is a success exactly for a
    preflight request or when the provider answered such a GET with a
    success status and a JSON body other than [null]; a rejected fetch, a
    body that is not JSON and a [null] body under a success status are
    answered 500 with the function's own error text and the message as
    details. Whatever it relays is the provider's body. As far as the
    search aggregator reads an answer (the status, and the body of a
    success), the answers to a GET are those of [gatewayHandler] for a
    provider that always answers. *)
Theorem api_handler_contract
    (provider : Request.t → ProviderOutcome) (nullTypeError : string)
    (type : MediaType) (method : string) (req : Request.t) :
  let sent := (apiHandler provider nullTypeError type method req).1 in
  let reply := (apiHandler provider nullTypeError type method req).2 in
  let outbound := providerRequest (gatewayEndpoint type) req in
  sent = (if bool_decide (method = "GET") && authorized req then [outbound] else [])
  ∧ Request.authorization outbound = Request.authorization req
  ∧ Request.query req `prefix_of` Request.query outbound
  ∧ (statusOk (GatewayReply.status reply) = true ↔
     method = "OPTIONS"
     ∨ (method = "GET" ∧ authorized req = true
        ∧ ∃ response, provider outbound = Answered response
                      ∧ Response.ok response = true))
  ∧ (∀ details,
       GatewayReply.body reply = ErrorBody (failureText type) (Some details) ↔
       method = "GET" ∧ authorized req = true
       ∧ (provider outbound = FetchRejected details
          ∨ (∃ status, provider outbound = BodyRejected status details)
          ∨ (∃ status, provider outbound = NullBody status
                       ∧ statusOk status = true ∧ details = nullTypeError)))
  ∧ (∀ details,
       GatewayReply.body reply = ErrorBody (failureText type) (Some details) →
       GatewayReply.status reply = 500)
  ∧ (∀ data,
       GatewayReply.body reply = Relayed data →
       sent = [outbound]
       ∧ match data with
         | Some body =>
             ∃ response, provider outbound = Answered response
                         ∧ body = Response.body response
                         ∧ GatewayReply.status reply
                           = (if Response.ok response then 200
                              else Response.status response)
         | None =>
             provider outbound = NullBody (GatewayReply.status reply)
             ∧ statusOk (GatewayReply.status reply) = false
         end)
  ∧ (∃ answering : Request.t → Response.t,
       ∀ other,
         let seen := gatewayHandler answering (gatewayEndpoint type) other in
         let full := (apiHandler provider nullTypeError type "GET" other).2 in
         GatewayReply.status full = Response.status seen
         ∧ (Response.ok seen = true →
            GatewayReply.body full = Relayed (Some (Response.body seen)))).
Proof.
  intros sent reply outbound. subst sent reply outbound.
  assert (Request.authorization (providerRequest (gatewayEndpoint type) req)
          = Request.authorization req) as Hheader.
  { unfold providerRequest. by destruct (buildGettyUrl _ _). }
  assert (Request.query req
            `prefix_of` Request.query (providerRequest (gatewayEndpoint type) req))
    as Hquery.
  { unfold providerRequest, buildGettyUrl. simpl.
    destruct (hasParam "fields" (Request.query req)); simpl;
      destruct (hasParam "sort_order" _); simpl;
      rewrite <- ?app_assoc; try apply prefix_app_r; done. }
  split_and!; [|done|done| | | | |].
  - destruct (decide (method = "GET")) as [->|Hget].
    + destruct (authorized req) eqn:Hauth.
      * by rewrite apiHandler_authorized.
      * by rewrite apiHandler_unauthorized.
    + rewrite apiHandler_other_method by done.
      by rewrite (bool_decide_eq_false_2 (method = "GET")).
  - destruct (decide (method = "GET")) as [->|Hget].
    + destruct (authorized req) eqn:Hauth.
      * rewrite apiHandler_authorized by done. simpl.
        destruct (provider _) as [message|status message|status|response] eqn:Hout; simpl.
        -- split; [done|]. by intros [?|(_ & _ & response & [=] & _)].
        -- split; [done|]. by intros [?|(_ & _ & response & [=] & _)].
        -- destruct (statusOk status) eqn:Hstatus; simpl; rewrite ?Hstatus;
             (split; [done|]); by intros [?|(_ & _ & response & [=] & _)].
        -- destruct (Response.ok response) eqn:Hok; simpl.
           ++ split; [|done]. intros _. right. split_and!; [done|done|]. by exists response.
           ++ split.
              ** unfold Response.ok in Hok. unfold statusOk. congruence.
              ** intros [?|(_ & _ & other & [= <-] & Hother)]; [done|congruence].
      * rewrite apiHandler_unauthorized by done. simpl.
        split; [done|]. by intros [?|(_ & ? & _)].
    + rewrite apiHandler_other_method by done. case_bool_decide as Hoptions; simpl.
      * split; [|done]. intros _. by left.
      * split; [done|]. by intros [?|(? & _)].
  - intros details. destruct (decide (method = "GET")) as [->|Hget].
    + destruct (authorized req) eqn:Hauth.
      * rewrite apiHandler_authorized by done. simpl.
        destruct (provider _) as [message|status message|status|response] eqn:Hout; simpl.
        -- split.
           ++ intros [= ->]. split_and!; [done|done|]. by left.
           ++ by intros (_ & _ & [[= ->]|[(? & [=])|(? & [=] & _)]]).
        -- split.
           ++ intros [= ->]. split_and!; [done|done|]. right. left. by exists status.
           ++ by intros (_ & _ & [[=]|[(? & [= _ ->])|(? & [=] & _)]]).
        -- destruct (statusOk status) eqn:Hstatus; simpl.
           ++ split.
              ** intros [= <-]. split_and!; [done|done|]. right. right. by exists status.
              ** by intros (_ & _ & [[=]|[(? & [=])|(? & [= _] & _ & ->)]]).
           ++ split; [done|].
              intros (_ & _ & [[=]|[(? & [=])|(? & [= <-] & Hok & _)]]). congruence.
        -- split; [done|]. by intros (_ & _ & [[=]|[(? & [=])|(? & [=] & _)]]).
      * rewrite apiHandler_unauthorized by done. simpl.
        split; [intros [=]|by intros (_ & ? & _)].
    + rewrite apiHandler_other_method by done.
      case_bool_decide; simpl; (split; [|by intros (? & _)]); [done|intros [=]].
  - intros details. destruct (decide (method = "GET")) as [->|Hget].
    + destruct (authorized req) eqn:Hauth.
      * rewrite apiHandler_authorized by done. simpl.
        destruct (provider _) as [message|status message|status|response]; simpl;
          try done.
        by destruct (statusOk status).
      * rewrite apiHandler_unauthorized by done. simpl. intros [=].
    + rewrite apiHandler_other_method by done.
      case_bool_decide; simpl; [done|]. intros [=].
  - intros data. destruct (decide (method = "GET")) as [->|Hget].
    + destruct (authorized req) eqn:Hauth.
      * rewrite apiHandler_authorized by done. simpl.
        destruct (provider _) as [message|status message|status|response] eqn:Hout; simpl;
          try done.
        -- destruct (statusOk status) eqn:Hstatus; simpl; [done|].
           intros [= <-]. by split.
        -- intros [= <-]. split; [done|]. by exists response.
      * by rewrite apiHandler_unauthorized.
    + rewrite apiHandler_other_method by done. by case_bool_decide.
  - exists (λ outbound : Request.t,
             match provider outbound with
             | FetchRejected message | BodyRejected _ message =>
                 Response.mk 500 (emptyBody (failureText type))
             | NullBody status =>
                 if statusOk status then Response.mk 500 (emptyBody (failureText type))
                 else Response.mk status (emptyBody "")
             | Answered response => response
             end).
    intros other. simpl. destruct (authorized other) eqn:Hauth.
    + rewrite apiHandler_authorized, gatewayHandler_authorized by done. simpl.
      destruct (provider _) as [message|status message|status|response]; simpl; try done.
      * destruct (statusOk status) eqn:Hstatus; simpl; [done|].
        change (Response.ok (Response.mk status (emptyBody ""))) with (statusOk status).
        rewrite Hstatus. split; [done|].
        change (Response.ok (Response.mk status (emptyBody ""))) with (statusOk status).
        by rewrite Hstatus.
      * destruct (Response.ok response) eqn:Hok; simpl; [done|]. by rewrite Hok.
    + by rewrite apiHandler_unauthorized, gatewayHandler_unauthorized.
Qed.

(** ** Bundle packager: what the archive holds *)

Section ArchiveFacts.

Variable fetchBlob : string → option string.

Implicit Types (acc : gmap string string * list string)
  (pairs : list (string * SelectedItem.t)) (selectedItems : list SelectedItem.t).

Local Abbreviation packOne :=
  (λ (acc : gmap string string * list string) (pair : string * SelectedItem.t),
     packItem fetchBlob pair.1 acc pair.2).

Local Abbreviation fetchedPair :=
  (λ pair : string * SelectedItem.t,
     is_Some (fetchBlob (SelectedItem.compUrl pair.2))).

(** A stored content is what the fetch of some visited item returned. *)
Lemma packPairs_content pairs acc (path blob : string) :
  (foldl packOne acc pairs).1 !! path = Some blob →
  acc.1 !! path = Some blob
  ∨ ∃ pair, pair ∈ pairs
      ∧ fetchBlob (SelectedItem.compUrl pair.2) = Some blob
      ∧ path = zipPath pair.1 pair.2.
Proof.
  revert acc. induction pairs as [|pair pairs IH]; intros acc; simpl; [by left|].
  intros [Hacc|(other & Hin & Hfetch & ->)]%IH.
  - unfold packItem in Hacc.
    destruct (fetchBlob (SelectedItem.compUrl pair.2)) as [stored|] eqn:Hfetch;
      simpl in Hacc; [|by left].
    apply lookup_insert_Some in Hacc as [[<- <-]|[_ Hacc]]; [|by left].
    right. exists pair. split_and!; [apply elem_of_cons; by left|done..].
  - right. exists other. split_and!; [apply elem_of_cons; by right|done..].
Qed.

(** Every visited item adds at most one entry or exactly one log line. *)
Lemma packPairs_accounting pairs acc :
  size (foldl packOne acc pairs).1 + length (foldl packOne acc pairs).2
  ≤ size acc.1 + length acc.2 + length pairs.
Proof.
  revert acc. induction pairs as [|pair pairs IH]; intros acc; simpl; [lia|].
  etransitivity; [apply IH|]. unfold packItem.
  destruct (fetchBlob (SelectedItem.compUrl pair.2)) as [stored|]; simpl.
  - rewrite map_size_insert. destruct (acc.1 !! zipPath pair.1 pair.2); simpl; lia.
  - rewrite length_app. simpl. lia.
Qed.

Lemma packPairs_accounting_exact pairs acc :
  NoDup ((λ pair, zipPath pair.1 pair.2) <$> filter fetchedPair pairs) →
  (∀ pair, pair ∈ pairs → fetchedPair pair → acc.1 !! zipPath pair.1 pair.2 = None) →
  size (foldl packOne acc pairs).1 + length (foldl packOne acc pairs).2
  = size acc.1 + length acc.2 + length pairs.
Proof.
  revert acc. induction pairs as [|pair pairs IH]; intros acc Hnodup Hfresh; simpl; [lia|].
  unfold packItem at 2 4.
  destruct (fetchBlob (SelectedItem.compUrl pair.2)) as [stored|] eqn:Hfetch.
  - rewrite filter_cons_True in Hnodup by (by rewrite Hfetch).
    csimpl in Hnodup. apply NoDup_cons in Hnodup as [Hnotin Hnodup].
    rewrite IH; [| done |].
    + simpl. rewrite map_size_insert_None; [lia|].
      apply Hfresh; [apply elem_of_cons; by left|by rewrite Hfetch].
    + intros other Hother Hfetched. simpl. rewrite lookup_insert_ne.
      * apply Hfresh; [apply elem_of_cons; by right|done].
      * intros Heq. apply Hnotin. rewrite Heq.
        apply (list_elem_of_fmap_2 (λ pair, zipPath pair.1 pair.2)).
        by apply list_elem_of_filter.
  - rewrite filter_cons_False in Hnodup by (rewrite Hfetch; by intros []).
    rewrite IH; [| done |].
    + simpl. rewrite length_app. simpl. lia.
    + intros other Hother Hfetched. simpl.
      apply Hfresh; [apply elem_of_cons; by right|done].
Qed.

Lemma groupByPerson_Some selectedItems (groups : list (string * list SelectedItem.t)) :
  groupByPerson selectedItems = Some groups →
  groupedItems groups
  ≡ₚ (λ item, (SelectedItem.personName item, item)) <$> selectedItems.
Proof.
  intros Hgroups.
  destruct (decide (Forall (λ item, SelectedItem.personName item ∉ inheritedKeys)
                      selectedItems)) as [Hown|Hnot].
  - destruct (groupByPerson_grouped selectedItems Hown) as (groups' & Hsame & Hperm).
    rewrite Hsame in Hgroups. injection Hgroups as <-. exact Hperm.
  - apply not_Forall_Exists in Hnot; [|apply _].
    assert (Exists (λ item, SelectedItem.personName item ∈ inheritedKeys) selectedItems)
      as Hinherited.
    { apply Exists_exists. apply Exists_exists in Hnot as (item & Hin & Hitem).
      exists item. split; [done|]. simpl in Hitem.
      destruct (decide (SelectedItem.personName item ∈ inheritedKeys)); [done|].
      by destruct Hitem. }
    by rewrite (groupByPerson_inherited _ Hinherited) in Hgroups.
Qed.

Lemma download_Saved (st st' : App.t) zip errorLog :
  downloadSelectedAsZip fetchBlob st = (st', Saved zip errorLog) →
  ∃ groups,
    groupByPerson (App.selectedItems st) = Some groups
    ∧ foldl packOne (∅, []) (groupedItems (objectEntries groups)) = (zip, errorLog).
Proof.
  unfold downloadSelectedAsZip.
  destruct (length (App.selectedItems st) =? 0)%nat; [done|]. simpl.
  destruct (groupByPerson (App.selectedItems st)) as [groups|]; [|done].
  unfold packGroups. rewrite packGroups_fold.
  destruct (foldl _ _ (groupedItems (objectEntries groups))) as [z l] eqn:Hfold.
  intros [= _ <- <-]. by exists groups.
Qed.

Lemma fetched_paths_pairs selectedItems :
  (λ pair : string * SelectedItem.t, zipPath pair.1 pair.2)
    <$> filter fetchedPair
          ((λ item, (SelectedItem.personName item, item)) <$> selectedItems)
  = (λ item, zipPath (SelectedItem.personName item) item)
    <$> filter (λ item, is_Some (fetchBlob (SelectedItem.compUrl item))) selectedItems.
Proof.
  induction selectedItems as [|item selectedItems IH]; [done|].
  csimpl. rewrite !filter_cons. simpl.
  destruct (decide (is_Some (fetchBlob (SelectedItem.compUrl item)))); csimpl;
    by rewrite IH.
Qed.

End ArchiveFacts.

(** X19. In a saved archive every entry holds the content fetched for a
    Selection whose path it is stored under; entries and log lines
    together never outnumber the Selections, and when the fetched
    Selections have pairwise different paths every Selection is accounted
    for by exactly one entry or one log line. *)
Theorem archive_accounts_for_selections
    (fetchBlob : string → option string) (st : App.t)
    (zip : gmap string string) (errorLog : list string) :
  (downloadSelectedAsZip fetchBlob st).2 = Saved zip errorLog →
  (∀ path blob, zip !! path = Some blob →
     ∃ item, item ∈ App.selectedItems st
       ∧ fetchBlob (SelectedItem.compUrl item) = Some blob
       ∧ path = zipPath (SelectedItem.personName item) item)
  ∧ size zip + length errorLog ≤ length (App.selectedItems st)
  ∧ (NoDup ((λ item, zipPath (SelectedItem.personName item) item)
              <$> filter (λ item, is_Some (fetchBlob (SelectedItem.compUrl item)))
                    (App.selectedItems st)) →
     size zip + length errorLog = length (App.selectedItems st)).
Proof.
  intros Hsaved.
  destruct (downloadSelectedAsZip fetchBlob st) as [st' outcome] eqn:Hrun.
  simpl in Hsaved. subst outcome.
  apply download_Saved in Hrun as (groups & Hgroups & Hfold).
  pose proof (groupByPerson_Some _ _ Hgroups) as Hperm.
  assert (groupedItems (objectEntries groups)
          ≡ₚ (λ item, (SelectedItem.personName item, item)) <$> App.selectedItems st)
    as Hvisited by by rewrite groupedItems_objectEntries.
  split_and!.
  - intros path blob Hlookup.
    pose proof (packPairs_content fetchBlob (groupedItems (objectEntries groups))
                  (∅, []) path blob) as Hcontent.
    rewrite Hfold in Hcontent. simpl in Hcontent.
    destruct (Hcontent Hlookup) as [Hempty|([key item] & Hin & Hfetch & ->)];
      [by rewrite lookup_empty in Hempty|].
    rewrite Hvisited in Hin.
    apply list_elem_of_fmap in Hin as (item' & [= -> ->] & Hin). by exists item'.
  - pose proof (packPairs_accounting fetchBlob (groupedItems (objectEntries groups))
                  (∅, [])) as Hcount.
    rewrite Hfold, Hvisited, length_fmap in Hcount. simpl in Hcount.
    by rewrite map_size_empty in Hcount.
  - intros Hnodup.
    pose proof (packPairs_accounting_exact fetchBlob
                  (groupedItems (objectEntries groups)) (∅, [])) as Hcount.
    rewrite Hfold in Hcount. simpl in Hcount.
    rewrite map_size_empty, Hvisited, length_fmap in Hcount. apply Hcount.
    + by rewrite fetched_paths_pairs.
    + intros pair _ _. apply lookup_empty.
Qed.

Lemma archive_accounts_for_selections_witness :
  size ({[ "Jane Doe/photos/2.jpg" := "bytes of c2" ]} : gmap string string)
  + length ["Failed to download 1.mp4:"] ≤ 2.
Proof.
  assert ((downloadSelectedAsZip Sample.photosOnly
             (App.setSelectedItems [Sample.clipSelection; Sample.stillSelection]
                Sample.state)).2
          = Saved {[ "Jane Doe/photos/2.jpg" := "bytes of c2" ]}
              ["Failed to download 1.mp4:"]) as Hsaved by reflexivity.
  apply (proj1 (proj2 (archive_accounts_for_selections _ _ _ _ Hsaved))).
Defined.

(** ** Grouping by person *)

Section Grouping.

Implicit Types (groups : list (string * list SelectedItem.t))
  (selectedItems : list SelectedItem.t) (item : SelectedItem.t).

Lemma pushGroup_keys_old (personName : string) item groups :
  personName ∈ groups.*1 → (pushGroup personName item groups).*1 = groups.*1.
Proof.
  induction groups as [|[key items] groups IH]; [by intros ?%elem_of_nil|].
  simpl. intros Hin. case_decide as Hkey; [done|]. csimpl. f_equal.
  apply IH. apply elem_of_cons in Hin as [->|Hin]; done.
Qed.

Lemma pushGroup_keys_new (personName : string) item groups :
  personName ∉ groups.*1 → (pushGroup personName item groups).*1 = groups.*1 ++ [personName].
Proof.
  induction groups as [|[key items] groups IH]; [done|].
  simpl. intros Hnotin. case_decide as Hkey.
  - subst key. destruct Hnotin. apply elem_of_cons. by left.
  - csimpl. f_equal. apply IH. intros Hin. apply Hnotin, elem_of_cons. by right.
Qed.

Lemma elem_of_pushGroup (personName : string) item groups (key : string)
    (items : list SelectedItem.t) :
  NoDup groups.*1 →
  (key, items) ∈ pushGroup personName item groups →
  (key ≠ personName ∧ (key, items) ∈ groups)
  ∨ (key = personName
     ∧ ((∃ before, (personName, before) ∈ groups ∧ items = before ++ [item])
        ∨ ((personName ∉ groups.*1) ∧ items = [item]))).
Proof.
  induction groups as [|[k g] groups IH]; intros Hnodup Hin.
  - simpl in Hin. apply list_elem_of_singleton in Hin as [= -> ->].
    right. split; [done|]. right. split; [apply not_elem_of_nil|done].
  - csimpl in Hnodup. apply NoDup_cons in Hnodup as [Hk Hnodup].
    simpl in Hin. case_decide as Hkey.
    + subst k. apply elem_of_cons in Hin as [[= -> ->]|Hin].
      * right. split; [done|]. left. exists g. split; [apply elem_of_cons; by left|done].
      * left. split; [|apply elem_of_cons; by right].
        intros ->. apply Hk. by apply (list_elem_of_fmap_2 fst) in Hin.
    + apply elem_of_cons in Hin as [[= -> ->]|Hin].
      * left. split; [done|apply elem_of_cons; by left].
      * destruct (IH Hnodup Hin) as [[Hne Hold]|[-> [(before & Hbefore & ->)|[Hnew ->]]]].
        -- left. split; [done|apply elem_of_cons; by right].
        -- right. split; [done|]. left. exists before.
           split; [apply elem_of_cons; by right|done].
        -- right. split; [done|]. right. split; [|done].
           csimpl. intros [?|?]%elem_of_cons; done.
Qed.

(** What the grouping object holds after the Selections seen so far. *)
Lemma groupByPerson_invariant selectedItems :
  Forall (λ item, SelectedItem.personName item ∉ inheritedKeys) selectedItems →
  ∃ groups,
    groupByPerson selectedItems = Some groups
    ∧ NoDup groups.*1
    ∧ (∀ key items, (key, items) ∈ groups →
         items ≠ []
         ∧ items = filter (λ item, SelectedItem.personName item = key) selectedItems)
    ∧ (∀ item, item ∈ selectedItems → SelectedItem.personName item ∈ groups.*1).
Proof.
  unfold groupByPerson.
  induction selectedItems as [|item selectedItems IH] using rev_ind; intros Hown.
  - exists []. split_and!; [done|constructor| |].
    + by intros key items ?%elem_of_nil.
    + by intros item ?%elem_of_nil.
  - apply Forall_app in Hown as [Hitems Hitem%Forall_inv].
    destruct (IH Hitems) as (groups & Hgroups & Hnodup & Hfilter & Hnames).
    exists (pushGroup (SelectedItem.personName item) item groups).
    rewrite foldl_snoc, Hgroups. csimpl.
    rewrite bool_decide_eq_false_2 by done. split_and!; [done| | |].
    + destruct (decide (SelectedItem.personName item ∈ groups.*1)) as [Hold|Hnew].
      * by rewrite pushGroup_keys_old.
      * rewrite pushGroup_keys_new by done. apply NoDup_app. split_and!; [done| |apply NoDup_singleton].
        intros key Hkey ->%list_elem_of_singleton. done.
    + intros key items Hin. rewrite filter_app.
      destruct (elem_of_pushGroup _ _ _ _ _ Hnodup Hin)
        as [[Hne Hold]|[-> [(before & Hbefore & ->)|[Hnew ->]]]].
      * destruct (Hfilter key items Hold) as [Hnonempty ->]. split; [done|].
        rewrite (filter_cons_False _ item) by (simpl; congruence).
        by rewrite app_nil_r.
      * destruct (Hfilter _ before Hbefore) as [_ ->]. split; [by destruct (filter _ _)|].
        by rewrite (filter_cons_True _ item) by done.
      * split; [done|]. rewrite (filter_cons_True _ item) by done.
        rewrite (filter_drops_all _ selectedItems); [done|].
        apply Forall_forall. intros other Hother Hname. apply Hnew.
        rewrite <- Hname. by apply Hnames.
    + intros other [Hother|Hlast]%elem_of_app.
      2: apply list_elem_of_singleton in Hlast as ->.
      * destruct (decide (SelectedItem.personName item ∈ groups.*1)) as [Hold|Hnew].
        -- rewrite pushGroup_keys_old by done. by apply Hnames.
        -- rewrite pushGroup_keys_new by done. apply elem_of_app. left. by apply Hnames.
      * destruct (decide (SelectedItem.personName item ∈ groups.*1)) as [Hold|Hnew].
        -- by rewrite pushGroup_keys_old.
        -- rewrite pushGroup_keys_new by done. apply elem_of_app. right.
           by apply list_elem_of_singleton.
Qed.

End Grouping.

(** X20. When no person name is inherited by the grouping object, the
    grouping succeeds with one group per distinct person name; the group
    of a name is never empty and holds exactly the Selections with that
    name, in ledger order. The grouping throws exactly when some person
    name is inherited. *)
Theorem groupByPerson_groups (selectedItems : list SelectedItem.t) :
  (∀ groups, groupByPerson selectedItems = Some groups →
     NoDup groups.*1
     ∧ (∀ key items, (key, items) ∈ groups →
          items ≠ []
          ∧ items = filter (λ item, SelectedItem.personName item = key) selectedItems)
     ∧ (∀ item, item ∈ selectedItems → SelectedItem.personName item ∈ groups.*1))
  ∧ (groupByPerson selectedItems = None ↔
     Exists (λ item, SelectedItem.personName item ∈ inheritedKeys) selectedItems).
Proof.
  destruct (decide (Forall (λ item, SelectedItem.personName item ∉ inheritedKeys)
                      selectedItems)) as [Hown|Hnot].
  - destruct (groupByPerson_invariant selectedItems Hown)
      as (groups & Hgroups & Hnodup & Hfilter & Hnames).
    split.
    + intros groups' Heq. rewrite Hgroups in Heq. injection Heq as <-. by split_and!.
    + rewrite Hgroups. split; [done|]. intros Hinherited. exfalso.
      apply Exists_exists in Hinherited as (item & Hin & Hitem).
      rewrite Forall_forall in Hown. by apply (Hown item).
  - apply not_Forall_Exists in Hnot; [|apply _].
    assert (Exists (λ item, SelectedItem.personName item ∈ inheritedKeys) selectedItems)
      as Hinherited.
    { apply Exists_exists. apply Exists_exists in Hnot as (item & Hin & Hitem).
      exists item. split; [done|]. simpl in Hitem.
      destruct (decide (SelectedItem.personName item ∈ inheritedKeys)); [done|].
      by destruct Hitem. }
    rewrite (groupByPerson_inherited _ Hinherited). by split.
Qed.

Lemma groupByPerson_groups_witness :
  groupByPerson [Sample.clipSelection; Sample.stillSelection]
  = Some [("Jane Doe", [Sample.clipSelection; Sample.stillSelection])]
  ∧ NoDup [("Jane Doe", [Sample.clipSelection; Sample.stillSelection])].*1.
Proof.
  assert (groupByPerson [Sample.clipSelection; Sample.stillSelection]
          = Some [("Jane Doe", [Sample.clipSelection; Sample.stillSelection])])
    as Hgroups by reflexivity.
  split; [exact Hgroups|].
  apply (proj1 (proj1 (groupByPerson_groups _) _ Hgroups)).
Defined.

(** ** Cleaning the reply of the shotlist extraction *)

Lemma string_prefix_cons (a b : ascii) (s1 s2 : string) :
  String.prefix (String a s1) (String b s2)
  = if decide (a = b) then String.prefix s1 s2 else false.
Proof.
  change (String.prefix (String a s1) (String b s2))
    with (match ascii_dec a b with
          | left _ => String.prefix s1 s2
          | right _ => false
          end).
  by destruct (ascii_dec a b), (decide (a = b)).
Qed.

Lemma string_prefix_nil_r (a : ascii) (s : string) : String.prefix (String a s) EmptyString = false.
Proof. reflexivity. Qed.

Lemma fence_cases (text : string) :
  (∃ rest, text = String TICK (String TICK (String TICK rest)))
  ∨ String.prefix FENCE text = false.
Proof.
  unfold FENCE.
  destruct text as [|a [|b [|c rest]]]; rewrite ?string_prefix_cons, ?string_prefix_nil_r;
    repeat case_decide; subst; try (by right).
  left. by exists rest.
Qed.

Lemma prefix_json_fence (text : string) :
  String.prefix JSON_FENCE text = true → String.prefix FENCE text = true.
Proof.
  unfold JSON_FENCE, FENCE.
  destruct text as [|a [|b [|c rest]]]; rewrite ?string_prefix_cons, ?string_prefix_nil_r;
    repeat case_decide; subst; try done.
  intros _. by destruct rest.
Qed.

Lemma removeMatches_keep (fence : string) (c : ascii) (rest : string) :
  String.prefix fence (String c rest) = false →
  removeMatches fence 0 (String c rest) = String c (removeMatches fence 0 rest).
Proof. intros Hprefix. cbn [removeMatches]. by rewrite Hprefix. Qed.

Lemma removeMatches_fence_newline (rest : string) :
  removeMatches FENCE 0 (String TICK (String TICK (String TICK (String NEWLINE rest))))
  = removeMatches FENCE 0 rest.
Proof. reflexivity. Qed.

Lemma removeMatches_match (fence : string) (c : ascii) (rest : string) :
  String.prefix fence (String c rest) = true →
  removeMatches fence 0 (String c rest)
  = removeMatches fence (matchLength fence (String c rest) - 1) rest.
Proof. intros Hprefix. cbn [removeMatches]. by rewrite Hprefix. Qed.

Lemma removeMatches_fence (rest : string) :
  String.prefix LF rest = false →
  removeMatches FENCE 0 (String TICK (String TICK (String TICK rest)))
  = removeMatches FENCE 0 rest.
Proof.
  intros Hrest. destruct rest as [|c rest]; [done|].
  rewrite removeMatches_match by reflexivity.
  change (matchLength _ _) with (if bool_decide (c = NEWLINE) then 4 else 3).
  rewrite bool_decide_eq_false_2; [done|].
  intros ->. unfold LF in Hrest. rewrite string_prefix_cons in Hrest.
  case_decide; [by destruct rest|done].
Qed.

Lemma removeMatches_unfenced (fence text : string) :
  (∀ s, String.prefix fence s = true → String.prefix FENCE s = true) →
  containsFence text = false → removeMatches fence 0 text = text.
Proof.
  intros Hfence. induction text as [|c rest IH]; [done|].
  intros [Hhead Hrest]%orb_false_elim.
  rewrite removeMatches_keep; [by rewrite IH|].
  destruct (String.prefix fence (String c rest)) eqn:Hprefix; [|done].
  apply Hfence in Hprefix. congruence.
Qed.

Lemma startsWithTick_true (text : string) :
  startsWithTick text = true → ∃ rest, text = String TICK rest.
Proof.
  destruct text as [|c rest]; [done|]. simpl.
  intros ->%bool_decide_eq_true_1. by exists rest.
Qed.

Lemma removeMatches_no_fence_bounded (n : nat) (text : string) :
  String.length text ≤ n →
  containsFence (removeMatches FENCE 0 text) = false
  ∧ (startsWithTick text = false →
     startsWithTick (removeMatches FENCE 0 text) = false).
Proof.
  revert text. induction n as [|n IH]; intros text Hlen.
  { destruct text; [done|simpl in Hlen; lia]. }
  destruct (fence_cases text) as [[rest ->]|Hprefix].
  - split; [|done]. cbn [String.length] in Hlen.
    destruct (String.prefix LF rest) eqn:Hnewline.
    + destruct rest as [|c rest]; [done|]. unfold LF in Hnewline.
      rewrite string_prefix_cons in Hnewline. case_decide as Hc; [subst c|done].
      rewrite removeMatches_fence_newline. apply IH. cbn [String.length] in Hlen. lia.
    + rewrite removeMatches_fence by done. apply IH. lia.
  - destruct text as [|c rest]; [done|]. cbn [String.length] in Hlen.
    rewrite removeMatches_keep by done.
    destruct (IH rest ltac:(lia)) as [Hrest Hstart].
    split; [|done].
    cbn [containsFence]. rewrite Hrest, orb_false_r.
    destruct (fence_cases (String c (removeMatches FENCE 0 rest)))
      as [[tail [= -> Hout]]|Hnone]; [exfalso|done].
    destruct (startsWithTick rest) eqn:Hsecond;
      [|by rewrite Hout in Hstart; specialize (Hstart eq_refl)].
    apply startsWithTick_true in Hsecond as [rest' ->].
    cbn [String.length] in Hlen.
    destruct (IH rest' ltac:(lia)) as [_ Hstart'].
    destruct (startsWithTick rest') eqn:Hthird.
    + apply startsWithTick_true in Hthird as [rest'' ->]. by destruct rest''.
    + assert (String.prefix FENCE (String TICK rest') = false) as Hkeep.
      { destruct (fence_cases (String TICK rest')) as [[more [= ->]]|?]; done. }
      rewrite removeMatches_keep in Hout by done.
      injection Hout as Hout. rewrite Hout in Hstart'. by specialize (Hstart' eq_refl).
Qed.

Lemma containsFence_app (before after : string) :
  containsFence (before +:+ FENCE +:+ after) = true.
Proof.
  induction before as [|c before IH].
  - by destruct after.
  - change (String c before +:+ FENCE +:+ after)
      with (String c (before +:+ FENCE +:+ after)).
    cbn [containsFence]. rewrite IH. apply orb_true_r.
Qed.

Lemma removeMatches_body (fence body tail : string) :
  (∀ s, String.prefix fence s = true → String.prefix FENCE s = true) →
  containsFence body = false →
  removeMatches fence 0 (body +:+ LF +:+ tail)
  = body +:+ LF +:+ removeMatches fence 0 tail.
Proof.
  intros Hfence. induction body as [|c body IH]; intros Hbody.
  - change (EmptyString +:+ LF +:+ tail) with (String NEWLINE tail).
    rewrite removeMatches_keep; [done|].
    destruct (String.prefix fence (String NEWLINE tail)) eqn:Hprefix; [|done].
    apply Hfence in Hprefix. unfold FENCE in Hprefix. by rewrite string_prefix_cons in Hprefix.
  - apply orb_false_elim in Hbody as [Hhead Hbody].
    change (String c body +:+ LF +:+ tail) with (String c (body +:+ LF +:+ tail)).
    rewrite removeMatches_keep.
    + rewrite IH by done. done.
    + destruct (String.prefix fence (String c (body +:+ LF +:+ tail))) eqn:Hprefix; [|done].
      apply Hfence in Hprefix.
      destruct (fence_cases (String c (body +:+ LF +:+ tail)))
        as [[more [= -> Hmore]]|?]; [|congruence].
      destruct body as [|b [|b' body]].
      * done.
      * by injection Hmore.
      * injection Hmore as -> -> _. by destruct body.
Qed.

Lemma containsFence_spec (text : string) :
  containsFence text = true ↔ ∃ before after, text = before +:+ FENCE +:+ after.
Proof.
  split; [|intros (before & after & ->); apply containsFence_app].
  induction text as [|c rest IH]; [done|].
  cbn [containsFence]. intros [Hhead|Hrest]%orb_prop.
  - destruct (fence_cases (String c rest)) as [[after ->]|?]; [|congruence].
    by exists EmptyString, after.
  - destruct (IH Hrest) as (before & after & ->). by exists (String c before), after.
Qed.

Lemma unfenced_containsFence (text : string) :
  (∀ before after, text ≠ before +:+ FENCE +:+ after) → containsFence text = false.
Proof.
  intros Hfree. destruct (containsFence text) eqn:Hfence; [|done].
  apply containsFence_spec in Hfence as (before & after & ->). by destruct (Hfree before after).
Qed.

Lemma containsFence_false (text : string) :
  containsFence text = false → ∀ before after, text ≠ before +:+ "```" +:+ after.
Proof.
  intros Hfree before after Heq.
  pose proof (containsFence_app before after) as Hfence.
  change FENCE with "```" in Hfence. congruence.
Qed.

Lemma stripFences_unfenced (text : string) :
  containsFence text = false → stripFences text = text.
Proof.
  intros Hfree. unfold stripFences.
  rewrite (removeMatches_unfenced JSON_FENCE text prefix_json_fence Hfree).
  by apply removeMatches_unfenced.
Qed.

Lemma stripFences_containsFence (text : string) :
  containsFence (stripFences text) = false.
Proof. unfold stripFences. by eapply removeMatches_no_fence_bounded. Qed.

(** X22. After the two replacements of the shotlist handler no fence of
    three backticks is left anywhere in the text; a text without such a
    fence is returned as it is, so cleaning twice changes nothing more. *)
Theorem stripFences_removes_every_fence (text : string) :
  (∀ before after, stripFences text ≠ before +:+ "```" +:+ after)
  ∧ ((∀ before after, text ≠ before +:+ "```" +:+ after) → stripFences text = text)
  ∧ stripFences (stripFences text) = stripFences text.
Proof.
  split_and!.
  - apply containsFence_false, stripFences_containsFence.
  - intros Hfree. by apply stripFences_unfenced, unfenced_containsFence.
  - apply stripFences_unfenced, stripFences_containsFence.
Qed.

Lemma stripFences_removes_every_fence_witness :
  stripFences "[]" = "[]".
Proof.
  apply (proj1 (proj2 (stripFences_removes_every_fence "[]"))).
  apply containsFence_false. reflexivity.
Defined.

(** X23. A reply wrapped in a fenced block, with or without the [json]
    tag, is unwrapped to its payload and the line feed that ended it,
    provided the payload holds no fence itself. *)
Theorem stripFences_unwraps (body : string) :
  (∀ before after, body ≠ before +:+ "```" +:+ after) →
  stripFences ("```json" +:+ LF +:+ body +:+ LF +:+ "```") = body +:+ LF
  ∧ stripFences ("```" +:+ LF +:+ body +:+ LF +:+ "```") = body +:+ LF.
Proof.
  intros Hfree%unfenced_containsFence.
  assert (∀ fence, (∀ s, String.prefix fence s = true → String.prefix FENCE s = true) →
            removeMatches fence 0 FENCE = (if String.prefix fence FENCE then "" else FENCE) →
            removeMatches fence 0 (body +:+ LF +:+ FENCE)
            = body +:+ LF +:+ (if String.prefix fence FENCE then "" else FENCE)) as Hbody.
  { intros fence Hfence Hlast. rewrite removeMatches_body by done.
    by rewrite Hlast. }
  assert (body +:+ LF +:+ "" = body +:+ LF) as Hend.
  { clear. induction body as [|c body IH]; [done|].
    change (String c body +:+ LF +:+ "") with (String c (body +:+ LF +:+ "")).
    by rewrite IH. }
  unfold stripFences. split.
  - change (removeMatches JSON_FENCE 0 ("```json" +:+ LF +:+ body +:+ LF +:+ "```"))
      with (removeMatches JSON_FENCE 0 (body +:+ LF +:+ FENCE)).
    rewrite (Hbody JSON_FENCE prefix_json_fence eq_refl).
    change (if String.prefix JSON_FENCE FENCE then _ else _) with FENCE.
    rewrite (Hbody FENCE (λ _ H, H) eq_refl). exact Hend.
  - change ("```" +:+ LF +:+ body +:+ LF +:+ "```")
      with (String TICK (String TICK (String TICK (String NEWLINE (body +:+ LF +:+ FENCE))))).
    rewrite !(removeMatches_keep JSON_FENCE) by reflexivity.
    rewrite (Hbody JSON_FENCE prefix_json_fence eq_refl).
    change (if String.prefix JSON_FENCE FENCE then _ else _) with FENCE.
    rewrite removeMatches_fence_newline.
    rewrite (Hbody FENCE (λ _ H, H) eq_refl). exact Hend.
Qed.

Lemma stripFences_unwraps_witness :
  stripFences ("```json" +:+ LF +:+ "[]" +:+ LF +:+ "```") = "[]" +:+ LF.
Proof.
  apply (proj1 (stripFences_unwraps "[]" (containsFence_false "[]" eq_refl))).
Defined.
